(** * PyCESim: Coulomb-explosion simulation, verified against its description

    A shallow embedding of [PyCESim.py] and proofs about it.

    - Numbers.  NumPy floating-point numbers are modelled by the real
      numbers [R] of the Standard Library: every statement below is about
      the program run in exact real arithmetic.  Counts ([n_geoms], [nmax],
      [natoms]) are natural numbers; the vibrational level [n] and the point
      counts of [make_timebins] are integers, as the source tests their
      sign.
    - Arrays.  Arrays of shape [(3,)] are triples, arrays of shape [(n,3)]
      are lists of triples, flat arrays are lists.  An index out of range
      raises [IndexError], as in NumPy.
    - Objects.  A class is a record; an attribute that is assigned only on
      some paths is an [option], and reading it while unset raises
      [AttributeError].  A method returns the updated object.
    - Failure.  Python exceptions are values of [exn]; code that may raise
      returns an [outcome].
    - Randomness.  The draws of [np.random] are read, in program order,
      from an explicit tape of raw draws (uniform on [0,1) for [uniform] and
      [choice], standard normal for [normal]).  A run that needs more draws
      than the tape holds ends in [Starved]; a loop that never returns is
      one that is [Starved] on every tape. *)

From Stdlib Require Import String Bool ZArith Lia Reals Lra Psatz List Sorted.
Import ListNotations.
Open Scope R_scope.

(** ** Module-level constants *)

Module Constants.
Definition u : R := 1.660538921e-27.
Definition e : R := 1.60217663e-19.
Definition k : R := 8.9875517923e9.
Definition kb : R := 1.380649e-23.
Definition cm_to_J : R := 1.986e-23.
Definition c_cm_s : R := 2.997e10.
(* [hbar] is assigned twice at module level; the later value is the one in force. *)
Definition hbar : R := 1.054571817e-34.
Definition bohr_radius : R := 5.29177210903e-11.
Definition cm_to_hartree : R := 1 / 219474.6.
Definition hartree_to_eV : R := 27.211396132.
Definition u_to_amu : R := 1 / 5.4857990943e-4.
Definition bohr_to_angstrom : R := 0.529177211.
End Constants.
Import Constants.

(** ** Vectors and matrices of shape (3,) and (3,3) *)

Definition vec3 : Type := (R * R * R)%type.
Definition mat3 : Type := (vec3 * vec3 * vec3)%type.

Definition vx (v : vec3) : R := fst (fst v).
Definition vy (v : vec3) : R := snd (fst v).
Definition vz (v : vec3) : R := snd v.

Definition vzero : vec3 := (0, 0, 0).
Definition vadd (a b : vec3) : vec3 := (vx a + vx b, vy a + vy b, vz a + vz b).
Definition vsub (a b : vec3) : vec3 := (vx a - vx b, vy a - vy b, vz a - vz b).
Definition vscale (c : R) (a : vec3) : vec3 := (c * vx a, c * vy a, c * vz a).
(* array * scalar, array / scalar *)
Definition vmuls (a : vec3) (c : R) : vec3 := (vx a * c, vy a * c, vz a * c).
Definition vdivs (a : vec3) (c : R) : vec3 := (vx a / c, vy a / c, vz a / c).
Definition vdot (a b : vec3) : R := vx a * vx b + vy a * vy b + vz a * vz b.
(* np.linalg.norm on a 1-D array *)
Definition norm (a : vec3) : R := sqrt (vx a * vx a + vy a * vy a + vz a * vz a).

Definition row1 (m : mat3) : vec3 := fst (fst m).
Definition row2 (m : mat3) : vec3 := snd (fst m).
Definition row3 (m : mat3) : vec3 := snd m.

Definition eye3 : mat3 := ((1, 0, 0), (0, 1, 0), (0, 0, 1)).
Definition outer (a b : vec3) : mat3 := (vscale (vx a) b, vscale (vy a) b, vscale (vz a) b).
Definition msub (a b : mat3) : mat3 :=
  (vsub (row1 a) (row1 b), vsub (row2 a) (row2 b), vsub (row3 a) (row3 b)).
Definition transpose (m : mat3) : mat3 :=
  ((vx (row1 m), vx (row2 m), vx (row3 m)),
   (vy (row1 m), vy (row2 m), vy (row3 m)),
   (vz (row1 m), vz (row2 m), vz (row3 m))).
(* np.dot(matrix, vector) *)
Definition mat_vec (m : mat3) (v : vec3) : vec3 :=
  (vdot (row1 m) v, vdot (row2 m) v, vdot (row3 m) v).
(* A.dot(B) on two (3,3) arrays *)
Definition mat_mul (a b : mat3) : mat3 :=
  let bt := transpose b in
  (mat_vec bt (row1 a), mat_vec bt (row2 a), mat_vec bt (row3 a)).
Definition det (m : mat3) : R :=
  let '((a, b, c), (d, e', f), (g, h, i)) := m in
  a * (e' * i - f * h) - b * (d * i - f * g) + c * (d * h - e' * g).

Definition orthogonal (m : mat3) : Prop :=
  mat_mul m (transpose m) = eye3 /\ mat_mul (transpose m) m = eye3.

(** ** RandRotationMatrix and random_rotation *)

(** [randnums] is the triple the source unpacks into [theta, phi, z]. *)
Definition RandRotationMatrix (deflection : R) (randnums : vec3) : mat3 :=
  let '(theta, phi, z) := randnums in
  let theta := theta * 2 * deflection * PI in
  let phi := phi * 2 * PI in
  let z := z * 2 * deflection in
  let r := sqrt z in
  let V : vec3 := (sin phi * r, cos phi * r, sqrt (2 - z)) in
  let st := sin theta in
  let ct := cos theta in
  let R : mat3 := ((ct, st, 0), (- st, ct, 0), (0, 0, 1)) in
  mat_mul (msub (outer V V) eye3) R.

(** The loop of [random_rotation] once the matrix [rm] has been produced. *)
Definition rotate_all (rm : mat3) (r_list : list vec3) : list vec3 :=
  map (mat_vec rm) r_list.

(** Euclidean distance between two atoms. *)
Definition dist (a b : vec3) : R := norm (vsub a b).

(** ** Python exceptions, fallible code and the tape of random draws *)

Inductive exn : Type :=
| NameError (name : string)
| UnboundLocalError (name : string)
| AttributeError (attr : string)
| IndexError
| ValueError
| TypeError
| AssertionError.

(** The result of running a piece of the program: it returns, it raises, or
    (for code that draws random numbers) the tape of draws handed to it ran
    out before it finished. *)
Inductive outcome (A : Type) : Type :=
| Ok (a : A)
| Raise (err : exn)
| Starved.
Arguments Ok {A} a.
Arguments Raise {A} err.
Arguments Starved {A}.

Definition bind {A B : Type} (m : outcome A) (f : A -> outcome B) : outcome B :=
  match m with
  | Ok a => f a
  | Raise err => Raise err
  | Starved => Starved
  end.

Declare Scope py_scope.
Delimit Scope py_scope with py.
Notation "x <- m ;; f" := (bind m (fun x => f))
  (at level 61, m at next level, right associativity) : py_scope.
Notation "' pat <- m ;; f" := (bind m (fun x => match x with pat => f end))
  (at level 61, pat pattern, m at next level, right associativity) : py_scope.
Open Scope py_scope.

(** [l[i]] *)
Definition get {A : Type} (l : list A) (i : nat) : outcome A :=
  match nth_error l i with
  | Some x => Ok x
  | None => Raise IndexError
  end.

Fixpoint upd {A : Type} (l : list A) (i : nat) (x : A) : list A :=
  match l, i with
  | [], _ => []
  | _ :: l', O => x :: l'
  | a :: l', S i' => a :: upd l' i' x
  end.

(** [l[i] = x] *)
Definition set_item {A : Type} (l : list A) (i : nat) (x : A) : outcome (list A) :=
  if Nat.ltb i (length l) then Ok (upd l i x) else Raise IndexError.

(** [obj.attr] for an attribute that is only set on some paths. *)
Definition attr {A : Type} (name : string) (field : option A) : outcome A :=
  match field with
  | Some x => Ok x
  | None => Raise (AttributeError name)
  end.

(** [for a in l: s = body(a, s)] *)
Fixpoint for_each {A S : Type} (l : list A) (body : A -> S -> outcome S) (s : S) : outcome S :=
  match l with
  | [] => Ok s
  | a :: l' => s' <- body a s ;; for_each l' body s'
  end.

(** [range(n)] *)
Definition range (n : nat) : list nat := seq 0 n.

(** Code that consumes random draws: a function of the remaining tape. *)
Definition M (A : Type) : Type := list R -> outcome (A * list R).

Definition ret {A : Type} (a : A) : M A := fun tape => Ok (a, tape).
Definition bindM {A B : Type} (m : M A) (f : A -> M B) : M B :=
  fun tape => match m tape with
              | Ok (a, tape') => f a tape'
              | Raise err => Raise err
              | Starved => Starved
              end.
Definition lift {A : Type} (m : outcome A) : M A :=
  fun tape => match m with
              | Ok a => Ok (a, tape)
              | Raise err => Raise err
              | Starved => Starved
              end.
Definition raise {A : Type} (err : exn) : M A := fun _ => Raise err.

Notation "x <~ m ;; f" := (bindM m (fun x => f))
  (at level 61, m at next level, right associativity) : py_scope.
Notation "' pat <~ m ;; f" := (bindM m (fun x => match x with pat => f end))
  (at level 61, pat pattern, m at next level, right associativity) : py_scope.

(** The next raw draw of the generator. *)
Definition draw : M R :=
  fun tape => match tape with
              | [] => Starved
              | x :: tape' => Ok (x, tape')
              end.

Fixpoint for_eachM {A S : Type} (l : list A) (body : A -> S -> M S) (s : S) : M S :=
  match l with
  | [] => ret s
  | a :: l' => s' <~ body a s ;; for_eachM l' body s'
  end.

(** [np.random.uniform(low, high)]: the raw draw lies in [0, 1). *)
Definition uniform (low high : R) : M R :=
  x <~ draw ;; ret (low + (high - low) * x).

(** [np.random.normal(loc, scale)]: the raw draw is a standard normal deviate. *)
Definition normal (loc scale : R) : M R :=
  if Rlt_dec scale 0 then raise ValueError
  else g <~ draw ;; ret (loc + scale * g).

Definition Rsum (l : list R) : R := fold_left Rplus l 0.

(** [np.cumsum] *)
Fixpoint cumsum_from (acc : R) (l : list R) : list R :=
  match l with
  | [] => []
  | x :: l' => (acc + x) :: cumsum_from (acc + x) l'
  end.
Definition cumsum (l : list R) : list R := cumsum_from 0 l.

Definition Rleb (x y : R) : bool := if Rle_dec x y then true else false.
Definition Rltb (x y : R) : bool := if Rlt_dec x y then true else false.

(** [cdf.searchsorted(x, side='right')]: the number of entries [<= x]. *)
Definition searchsorted_right (cdf : list R) (x : R) : nat :=
  length (filter (fun c => Rleb c x) cdf).

(** Tolerance of [np.random.choice] on the sum of [p]: the square root of
    the double-precision machine epsilon. *)
Definition choice_atol : R := / 2 ^ 26.

(** [np.random.choice(a, p=p)] for one sample, with NumPy's validation of
    [p]: the raw draw is looked up in the normalised cumulative sums. *)
Definition random_choice {A : Type} (a : list A) (p : list R) : M A :=
  match a with
  | [] => raise ValueError
  | _ =>
    if negb (length p =? length a)%nat then raise ValueError
    else if existsb (fun x => Rltb x 0) p then raise ValueError
    else if Rltb choice_atol (Rabs (Rsum p - 1)) then raise ValueError
    else
      let cdf := cumsum p in
      let cdf := map (fun c => c / last cdf 0) cdf in
      x <~ draw ;;
      lift (get a (searchsorted_right cdf x))
  end.

(** ** Utility functions of the module *)

(** [CoulombForce(r1, r2, q1, q2)] *)
Definition CoulombForce (r1 r2 : vec3) (q1 q2 : R) : vec3 :=
  let r12 := vsub r1 r2 in
  let r12_mag := norm r12 in
  vmuls (vscale (k * q1 * q2) r12) (1 / r12_mag ^ 3).

(** [scipy.special.laguerre(n)]: the Laguerre polynomial of degree [n],
    [L_n(x) = sum_{i<=n} (-1)^i binom(n,i) x^i / i!].  SciPy's, not this
    repository's. *)
Definition laguerre (n : nat) (x : R) : R :=
  sum_f_R0 (fun i => (-1) ^ i * C n i / INR (fact i) * x ^ i) n.

(** [calc_W(P, Q, n)] *)
Definition calc_W (P Q : R) (n : Z) : R :=
  if (0 <? n)%Z then
    let rhosquare := 2 * (P ^ 2 + Q ^ 2) in
    let Ln := laguerre (Z.to_nat n) in
    (-1) ^ Z.to_nat n * Ln rhosquare * exp (- rhosquare / 2)
  else
    exp (- Q ^ 2) * exp (- P ^ 2).

(** [calc_canonical_partition(omega, T)] *)
Definition calc_canonical_partition (omega T : R) : R :=
  exp (- (hbar * omega) / (2 * kb * T)) / (1 - exp (- (hbar * omega) / (kb * T))).

(** [calc_vib_energy(n, omega)] *)
Definition calc_vib_energy (n : Z) (omega : R) : R :=
  hbar * omega * (IZR n + 1 / 2).

(** [calc_Pn(omega_cm, T, n)] *)
Definition calc_Pn (omega_cm T : R) (n : Z) : R :=
  let omega_Hz := omega_cm * c_cm_s * 2 * PI in
  let Z := calc_canonical_partition omega_Hz T in
  let En := calc_vib_energy n omega_Hz in
  if Rlt_dec 0 T then exp (- En / (kb * T)) / Z
  else if (n =? 0)%Z then 1 else 0.

(** ** Names bound at module level

    A name used in a function body that the function never assigns is
    looked up among the module's globals (and then the builtins, which hold
    none of the names looked up below). *)

Inductive pyval : Type :=
| PyInt (z : Z)
| PyFloat (x : R)
| PyObject.

Definition module_globals : list (string * pyval) :=
  [ ("np", PyObject); ("pd", PyObject); ("cclib", PyObject); ("plt", PyObject);
    ("solve_ivp", PyObject); ("scipy", PyObject); ("laguerre", PyObject);
    ("u", PyFloat u); ("e", PyFloat e); ("k", PyFloat k); ("hbar", PyFloat hbar);
    ("kb", PyFloat kb); ("cm_to_J", PyFloat cm_to_J); ("c_cm_s", PyFloat c_cm_s);
    ("bohr_radius", PyFloat bohr_radius);
    ("p_au_fac", PyFloat (hbar / bohr_radius));
    ("p_au_KE_eV_fac", PyFloat ((hbar / bohr_radius) ^ 2 / (u * e)));
    ("cm_to_hartree", PyFloat cm_to_hartree); ("hartree_to_eV", PyFloat hartree_to_eV);
    ("u_to_amu", PyFloat u_to_amu); ("bohr_to_angstrom", PyFloat bohr_to_angstrom);
    ("mass_dict", PyObject);
    ("random_rotation", PyObject); ("RandRotationMatrix", PyObject);
    ("CoulombForce", PyObject); ("calc_W", PyObject);
    ("calc_canonical_partition", PyObject); ("calc_vib_energy", PyObject);
    ("calc_Pn", PyObject); ("geometry", PyObject); ("ce_channel", PyObject);
    ("starting_conditions", PyObject); ("CE_sim", PyObject) ]%string.

Definition global_name (name : string) : outcome pyval :=
  match find (fun b => String.eqb (fst b) name) module_globals with
  | Some b => Ok (snd b)
  | None => Raise (NameError name)
  end.

(** [range(v)] for a Python value [v]. *)
Definition range_of (v : pyval) : outcome (list nat) :=
  match v with
  | PyInt z => Ok (range (Z.to_nat z))
  | PyFloat _ => Raise TypeError
  | PyObject => Raise TypeError
  end.

(** ** class geometry *)

Definition nonzero (x : R) : bool := if Req_dec_T x 0 then false else true.
Definition vany (v : vec3) : bool := nonzero (vx v) || nonzero (vy v) || nonzero (vz v).

(** [nmodes.any()] and [omegas.any()] *)
Definition modes_any (nmodes : list (list vec3)) : bool := existsb (existsb vany) nmodes.
Definition reals_any (l : list R) : bool := existsb nonzero l.

(** The attributes of a [geometry] object.  Attributes that are assigned
    only on some paths are optional; the labels ([atom_nos], [atom_labels],
    [elements], [geom_label]) play no part in the computations and are left
    out. *)
Record geometry : Type := mk_geometry {
  atom_coords : list vec3;
  atom_masses : list R;
  natoms : nat;
  nmodes : option (list (list vec3));
  nmodes_weighted : option (list (list vec3));
  omegas : option (list R);
  com : option vec3;
  atom_coords_com : option (list vec3)
}.

(** [find_com] *)
Definition find_com (self : geometry) : geometry :=
  let '(mass_product, mass_sum) :=
    fold_left (fun acc rm => (vadd (fst acc) (vmuls (fst rm) (snd rm)), snd acc + snd rm))
              (combine (atom_coords self) (atom_masses self)) (vzero, 0) in
  mk_geometry (atom_coords self) (atom_masses self) (natoms self) (nmodes self)
              (nmodes_weighted self) (omegas self)
              (Some (vdivs mass_product mass_sum)) (atom_coords_com self).

(** [com_geometry] *)
Definition com_geometry (self : geometry) : outcome geometry :=
  let self := find_com self in
  c <- attr "com" (com self) ;;
  Ok (mk_geometry (atom_coords self) (atom_masses self) (natoms self) (nmodes self)
                  (nmodes_weighted self) (omegas self) (com self)
                  (Some (map (fun r => vsub r c) (atom_coords self)))).

(** What [check_normal_modes] prints. *)
Record mode_report : Type := mk_mode_report {
  printed_norms : list R;
  max_residual : R;
  in_expected_format : bool
}.

(** The first loop body of [check_normal_modes]: the norm of one mode and
    the re-weighted mode. *)
Definition mode_norm (self : geometry) (mode : list vec3) : outcome R :=
  norm <- for_each (range (natoms self)) (fun i norm =>
            row <- get mode i ;;
            m <- get (atom_masses self) i ;;
            Ok (norm + vx row ^ 2 * m + vy row ^ 2 * m + vz row ^ 2 * m)) 0 ;;
  Ok (sqrt norm).

Definition reweight_mode (self : geometry) (mode : list vec3) (norm : R) : outcome (list vec3) :=
  for_each (range (natoms self)) (fun i mode_new =>
    row <- get mode i ;;
    m <- get (atom_masses self) i ;;
    set_item mode_new i (vdivs (vmuls row (sqrt m)) norm))
    (repeat vzero (length mode)).

(** The innermost loop of the second part: [for k in range(n_atoms)]. *)
Definition mode_dot (mode1 mode2 : list vec3) : outcome R :=
  n_atoms <- global_name "n_atoms" ;;
  ks <- range_of n_atoms ;;
  for_each ks (fun k dotprod =>
    a <- get mode1 k ;;
    b <- get mode2 k ;;
    Ok (dotprod + vdot a b)) 0.

(** [for x in l: out.append(f(x))] *)
Fixpoint map_outcome {A B : Type} (f : A -> outcome B) (l : list A) : outcome (list B) :=
  match l with
  | [] => Ok []
  | a :: l' => b <- f a ;; bs <- map_outcome f l' ;; Ok (b :: bs)
  end.

(** [results[i,i] -= 1] for every [i]. *)
Definition subtract_identity (results : list (list R)) : list (list R) :=
  map (fun ir => upd (snd ir) (fst ir) (nth (fst ir) (snd ir) 0 - 1))
      (combine (range (length results)) results).

(** [np.max] of a 2-D array; an empty array raises. *)
Definition array_max (a : list (list R)) : outcome R :=
  match concat a with
  | [] => Raise ValueError
  | x :: l => Ok (fold_left Rmax l x)
  end.

(** [check_normal_modes(threshold, make_fig)] *)
Definition check_normal_modes (self : geometry) (threshold : R) (make_fig : bool)
  : outcome (geometry * mode_report) :=
  nmodes_raw <- attr "nmodes" (nmodes self) ;;
  normed <- map_outcome (fun mode =>
              norm <- mode_norm self mode ;;
              mode_new <- reweight_mode self mode norm ;;
              Ok (norm, mode_new)) nmodes_raw ;;
  let nmodes2 := map snd normed in
  results <- map_outcome (fun mode1 => map_outcome (fun mode2 => mode_dot mode1 mode2) nmodes2)
                         nmodes2 ;;
  let results := subtract_identity results in
  _ <- (if make_fig then array_max results else Ok 0) ;;
  residual <- array_max (map (map Rabs) results) ;;
  Ok (mk_geometry (atom_coords self) (atom_masses self) (natoms self) (nmodes self)
                  (Some nmodes2) (omegas self) (com self) (atom_coords_com self),
      mk_mode_report (map fst normed) residual (negb (Rltb threshold residual))).

(** [geometry(atom_coords, atom_masses, nmodes=..., omegas=...)] *)
Definition geometry_init (coords : list vec3) (masses : list R)
           (modes : list (list vec3)) (freqs : list R) : outcome geometry :=
  let self := mk_geometry coords masses (length coords) None None None None None in
  self <- (if modes_any modes then
             let self := mk_geometry coords masses (length coords) (Some modes)
                                     None None None None in
             '(self, _) <- check_normal_modes self 0.05 true ;; Ok self
           else Ok self) ;;
  Ok (if reals_any freqs then
        mk_geometry (atom_coords self) (atom_masses self) (natoms self) (nmodes self)
                    (nmodes_weighted self) (Some freqs) (com self) (atom_coords_com self)
      else self).

(** ** class ce_channel *)

Module Channel.
Record ce_channel : Type := mk {
  charges : list R;
  p : R;
  label : string
}.
End Channel.

(** ** class starting_conditions *)

(** [sigma] as the sampler accepts it: a single number or a 1-D array. *)
Inductive sigma_t : Type :=
| SigmaNumber (s : R)
| SigmaArray (a : list R).

Record starting_conditions : Type := mk_starting_conditions {
  eq_geometry : geometry;
  multi_channel : bool;
  channel_list : option (list Channel.ce_channel);
  channel_p_list : option (list R);
  method : option string;
  n_geoms : option nat;
  random_rotate : option bool;
  T : option R;
  wigner_sample_max : option R;
  nmax : option nat;
  sigma : option sigma_t;
  n_list : option (list Z);
  Pn_arr : option (list (list R));
  samp_n_list : option (list Z);
  samp_q_list : option (list R);
  samp_y0_list : option (list (list R));
  samp_charges_list : option (list (list R));
  samp_masses_list : option (list (list R));
  samp_channel_list : option (list Channel.ce_channel)
}.

(** [starting_conditions(eq_geometry)] *)
Definition starting_conditions_init (g : geometry) : starting_conditions :=
  mk_starting_conditions g false None None None None None None None None None None None
                         None None None None None None.

(** [set_channel_list(channel_list)]: the new state and what is printed. *)
Definition set_channel_list (self : starting_conditions) (channels : list Channel.ce_channel)
  : starting_conditions * list string :=
  let p_list := map Channel.p channels in
  let sum_p := Rsum p_list in
  if Rltb 0.001 (Rabs (sum_p - 1)) then
    (self, ["Channel probabilities don't sum to 1!"%string])
  else
    (mk_starting_conditions (eq_geometry self) true (Some channels) (Some p_list)
       (method self) (n_geoms self) (random_rotate self) (T self) (wigner_sample_max self)
       (nmax self) (sigma self) (n_list self) (Pn_arr self) (samp_n_list self)
       (samp_q_list self) (samp_y0_list self) (samp_charges_list self)
       (samp_masses_list self) (samp_channel_list self),
     []).

(** [sigma_to_array] *)
Definition sigma_to_array (s : sigma_t) : sigma_t :=
  match s with
  | SigmaNumber x => SigmaArray [x]
  | SigmaArray a => SigmaArray a
  end.

(** *** The pieces of [generate_pool] *)

(** The table [Pn_arr] filled before the trajectory loop (wigner, [T > 0]):
    [len(nmodes)] rows of [nmax] entries, row [i] holding [calc_Pn] of
    [omegas[i]]; rows beyond [len(omegas)] stay zero, and an [omegas]
    longer than [nmodes] overruns the table. *)
Definition fill_Pn_arr (n_modes : nat) (freqs : list R) (temp : R) (n_max : nat)
  : outcome (list (list R)) :=
  for_each (range n_max) (fun n arr =>
    for_each (combine (range (length freqs)) freqs) (fun io arr =>
      row <- get arr (fst io) ;;
      row <- set_item row n (calc_Pn (snd io) temp (Z.of_nat n)) ;;
      set_item arr (fst io) row) arr)
    (repeat (repeat 0 n_max) n_modes).

(** Choice of the vibrational level of one mode; [mode_counter] is the row
    of [Pn_arr] that is read. *)
Definition choose_level (temp : R) (table : option (list (list R))) (levels : option (list Z))
           (mode_counter : nat) : M Z :=
  if Rlt_dec 0 temp then
    arr <~ lift (attr "Pn_arr" table) ;;
    Pn <~ lift (get arr mode_counter) ;;
    let Pn_scaled := map (fun x => x / Rsum Pn) Pn in
    ns <~ lift (attr "n_list" levels) ;;
    random_choice ns Pn_scaled
  else ret 0%Z.

(** The rejection loop [while not wigner_sampled]: one pass reads three
    draws ([random_Q], [random_P], the threshold); the accepted [random_Q]
    is returned.  The loop has no other exit. *)
Fixpoint wigner_loop (sample_max : R) (n : Z) (tape : list R) : outcome (R * list R) :=
  match tape with
  | xq :: xp :: xt :: tape' =>
    let random_Q := - sample_max + (sample_max - - sample_max) * xq in
    let random_P := - sample_max + (sample_max - - sample_max) * xp in
    let W := calc_W random_P random_Q n in
    if Rlt_dec (0 + (1 - 0) * xt) W then Ok (random_Q, tape')
    else wigner_loop sample_max n tape'
  | _ => Starved
  end.

(** The number of passes the loop makes over a tape, accepted pass included. *)
Fixpoint wigner_attempts (sample_max : R) (n : Z) (tape : list R) : nat :=
  match tape with
  | xq :: xp :: xt :: tape' =>
    let random_Q := - sample_max + (sample_max - - sample_max) * xq in
    let random_P := - sample_max + (sample_max - - sample_max) * xp in
    let W := calc_W random_P random_Q n in
    if Rlt_dec (0 + (1 - 0) * xt) W then 1%nat
    else S (wigner_attempts sample_max n tape')
  | _ => 0%nat
  end.

(** The displacement applied on acceptance:
    [new_geom[i,:] += (random_Q/freq_factor)*nmode[i,:]*sqrt(1/(m_i*u_to_amu))*bohr_to_angstrom]. *)
Definition displace (g : geometry) (nmode : list vec3) (freq_factor random_Q : R)
           (new_geom : list vec3) : outcome (list vec3) :=
  for_each (range (natoms g)) (fun i new_geom =>
    old <- get new_geom i ;;
    row <- get nmode i ;;
    m <- get (atom_masses g) i ;;
    set_item new_geom i
      (vadd old (vmuls (vmuls (vscale (random_Q / freq_factor) row)
                              (sqrt (1 / (m * u_to_amu)))) bohr_to_angstrom)))
    new_geom.

(** State threaded through the loop over the modes of one trajectory. *)
Record wigner_acc : Type := mk_wigner_acc {
  acc_geom : list vec3;
  acc_n : list Z;
  acc_q : list R
}.

(** One pass of [for nmode, omega in zip(nmodes_weighted, omegas)]. *)
Definition wigner_mode (g : geometry) (temp sample_max : R)
           (table : option (list (list R))) (levels : option (list Z))
           (mode_counter : nat) (mo : list vec3 * R) (acc : wigner_acc) : M wigner_acc :=
  let '(nmode, omega) := mo in
  let mode_freq_hartree := omega * cm_to_hartree in
  let freq_factor := sqrt mode_freq_hartree in
  n <~ choose_level temp table levels mode_counter ;;
  random_Q <~ wigner_loop sample_max n ;;
  new_geom <~ lift (displace g nmode freq_factor random_Q (acc_geom acc)) ;;
  ret (mk_wigner_acc new_geom
         (if Rlt_dec 0 temp then acc_n acc ++ [n] else acc_n acc)
         (acc_q acc ++ [random_Q])).

(** The wigner branch of one trajectory.  [mode_counter] is set to 0 before
    the loop over the modes and never changed. *)
Definition wigner_positions (g : geometry) (temp sample_max : R)
           (table : option (list (list R))) (levels : option (list Z))
           (ns : list Z) (qs : list R) : M (list vec3 * list Z * list R) :=
  let mode_counter := 0%nat in
  coords <~ lift (attr "atom_coords_com" (atom_coords_com g)) ;;
  weighted <~ lift (attr "nmodes_weighted" (nmodes_weighted g)) ;;
  freqs <~ lift (attr "omegas" (omegas g)) ;;
  acc <~ for_eachM (combine weighted freqs)
           (wigner_mode g temp sample_max table levels mode_counter)
           (mk_wigner_acc coords ns qs) ;;
  r_list <~ lift (map_outcome (fun n => row <- get (acc_geom acc) n ;; Ok (vmuls row 1e-10))
                              (range (natoms g))) ;;
  ret (r_list, acc_n acc, acc_q acc).

(** [np.shape(self.sigma)[0]] *)
Definition sigma_shape0 (s : sigma_t) : outcome nat :=
  match s with
  | SigmaNumber _ => Raise IndexError
  | SigmaArray a => Ok (length a)
  end.

(** The choice of [blur_sigma] for atom [n].  When the array has one entry
    the whole array is the scale and every draw is a one-entry array; that
    entry is what lands in the state vector. *)
Definition blur_sigma_of (g : geometry) (s : sigma_t) (n : nat) : outcome R :=
  shape0 <- sigma_shape0 s ;;
  match s with
  | SigmaNumber _ => Raise IndexError
  | SigmaArray a =>
    if (shape0 =? 1)%nat then get a 0
    else if (shape0 =? natoms g)%nat then get a n
    else Raise (UnboundLocalError "blur_sigma")
  end.

(** The gaussian branch of one trajectory. *)
Definition gaussian_positions (g : geometry) (sig : option sigma_t) : M (list vec3) :=
  coords <~ lift (attr "atom_coords_com" (atom_coords_com g)) ;;
  for_eachM (range (natoms g)) (fun n r_list =>
    s <~ lift (attr "sigma" sig) ;;
    blur_sigma <~ lift (blur_sigma_of g s n) ;;
    c <~ lift (get coords n) ;;
    dx <~ normal 0 blur_sigma ;;
    dy <~ normal 0 blur_sigma ;;
    dz <~ normal 0 blur_sigma ;;
    ret (r_list ++ [((vx c + dx) * 1e-10, (vy c + dy) * 1e-10, (vz c + dz) * 1e-10)]))
    [].

(** [random_rotation(r_list)] *)
Definition random_rotation (r_list : list vec3) : M (list vec3) :=
  theta <~ uniform 0 1 ;;
  phi <~ uniform 0 1 ;;
  z <~ uniform 0 1 ;;
  let rm := RandRotationMatrix 1 (theta, phi, z) in
  ret (rotate_all rm r_list).

(** The charge and mass vectors of one trajectory. *)
Definition charges_and_masses (self : starting_conditions) (g : geometry)
  : M (list R * list R) :=
  if multi_channel self then
    chans <~ lift (attr "channel_list" (channel_list self)) ;;
    ps <~ lift (attr "channel_p_list" (channel_p_list self)) ;;
    channel <~ random_choice chans ps ;;
    ret (map (fun q => q * e) (Channel.charges channel),
         map (fun m => m * u) (atom_masses g))
  else
    ret (map (fun q => q * e) (repeat 1 (natoms g)),
         map (fun m => m * u) (atom_masses g)).

(** Filling [y0] from the (rotated) positions; the velocity half is left
    as [np.zeros] made it. *)
Definition fill_y0 (g : geometry) (r_list_rot : list vec3) : outcome (list R) :=
  for_each (range (natoms g)) (fun n y0 =>
    r <- get r_list_rot n ;;
    y0 <- set_item y0 (3 * n) (vx r) ;;
    y0 <- set_item y0 (3 * n + 1) (vy r) ;;
    set_item y0 (3 * n + 2) (vz r))
    (repeat 0 (natoms g * 6)).

(** What the trajectory loop appends to. *)
Record pool : Type := mk_pool {
  pool_y0 : list (list R);
  pool_charges : list (list R);
  pool_masses : list (list R);
  pool_n : list Z;
  pool_q : list R
}.

(** The body of [for i in range(self.n_geoms)]. *)
Definition trajectory (self : starting_conditions) (g : geometry) (meth : string)
           (rotate : bool) (sig : option sigma_t) (sample_max temp : R)
           (table : option (list (list R))) (levels : option (list Z))
           (acc : pool) : M pool :=
  '(charges, masses) <~ charges_and_masses self g ;;
  '(r_list, ns, qs) <~
     (if String.eqb meth "gaussian" then
        r_list <~ gaussian_positions g sig ;; ret (r_list, pool_n acc, pool_q acc)
      else if String.eqb meth "wigner" then
        wigner_positions g temp sample_max table levels (pool_n acc) (pool_q acc)
      else ret ([], pool_n acc, pool_q acc)) ;;
  r_list_rot <~ (if rotate then random_rotation r_list else ret r_list) ;;
  y0 <~ lift (fill_y0 g r_list_rot) ;;
  ret (mk_pool (pool_y0 acc ++ [y0]) (pool_charges acc ++ [charges])
               (pool_masses acc ++ [masses]) ns qs).

(** The two assertions made when [method == 'wigner']. *)
Definition wigner_preconditions (g : geometry) : outcome unit :=
  modes <- attr "nmodes" (nmodes g) ;;
  if modes_any modes then
    freqs <- attr "omegas" (omegas g) ;;
    if reals_any freqs then Ok tt else Raise AssertionError
  else Raise AssertionError.

(** [generate_pool(n_geoms, method, random_rotate, sigma, wigner_sample_max, T, nmax)].
    [n_geoms] and [nmax] are taken non-negative. *)
Definition generate_pool (self : starting_conditions) (n_geoms' : nat) (method' : string)
           (random_rotate' : bool) (sigma' : sigma_t) (wigner_sample_max' T' : R)
           (nmax' : nat) : M starting_conditions :=
  let is_wigner := String.eqb method' "wigner" in
  let is_gaussian := String.eqb method' "gaussian" in
  _ <~ lift (if is_wigner then wigner_preconditions (eq_geometry self) else Ok tt) ;;
  g <~ lift (com_geometry (eq_geometry self)) ;;
  let sig := if is_gaussian then Some (sigma_to_array sigma') else sigma self in
  '(levels, table, ns0) <~
     lift (if is_wigner && (if Rlt_dec 0 T' then true else false) then
             modes <- attr "nmodes" (nmodes g) ;;
             freqs <- attr "omegas" (omegas g) ;;
             arr <- fill_Pn_arr (length modes) freqs T' nmax' ;;
             Ok (Some (map Z.of_nat (range nmax')), Some arr, Some [])
           else Ok (n_list self, Pn_arr self, samp_n_list self)) ;;
  let qs0 := if is_wigner then Some [] else samp_q_list self in
  acc <~ for_eachM (range n_geoms')
           (fun _ => trajectory self g method' random_rotate' sig wigner_sample_max' T'
                                table levels)
           (mk_pool [] [] []
                    (match ns0 with Some l => l | None => [] end)
                    (match qs0 with Some l => l | None => [] end)) ;;
  ret (mk_starting_conditions g (multi_channel self) (channel_list self)
         (channel_p_list self) (Some method') (Some n_geoms') (Some random_rotate')
         (Some T') (Some wigner_sample_max') (Some nmax') sig levels table
         (match ns0 with Some _ => Some (pool_n acc) | None => None end)
         (match qs0 with Some _ => Some (pool_q acc) | None => None end)
         (Some (pool_y0 acc)) (Some (pool_charges acc)) (Some (pool_masses acc))
         (Some [])).

(** ** class CE_sim *)

Record CE_sim : Type := mk_CE_sim {
  sim_starting_conditions : starting_conditions;
  timebins : option (list R);
  tmin : option R;
  tmax : option R;
  n_t_steps : option nat;
  sim_counter : option nat
}.

(** [CE_sim(starting_conditions)] *)
Definition CE_sim_init (sc : starting_conditions) : CE_sim :=
  mk_CE_sim sc None None None None None.

(** [np.linspace(start, stop, num)] *)
Definition linspace (start stop : R) (num : Z) : outcome (list R) :=
  if (num <? 0)%Z then Raise ValueError
  else
    match Z.to_nat num with
    | O => Ok []
    | S O => Ok [start]
    | S div =>
      let step := (stop - start) / INR div in
      Ok (map (fun i => INR i * step + start) (range div) ++ [stop])
    end.

(** [np.min] and [np.max] of a 1-D array; an empty array raises. *)
Definition np_min (a : list R) : outcome R :=
  match a with
  | [] => Raise ValueError
  | x :: l => Ok (fold_left Rmin l x)
  end.
Definition np_max (a : list R) : outcome R :=
  match a with
  | [] => Raise ValueError
  | x :: l => Ok (fold_left Rmax l x)
  end.

(** [set_timebins(timebins)] *)
Definition set_timebins (self : CE_sim) (times : list R) : outcome CE_sim :=
  lo <- np_min times ;;
  hi <- np_max times ;;
  Ok (mk_CE_sim (sim_starting_conditions self) (Some times) (Some lo) (Some hi)
                (Some (length times)) (sim_counter self)).

(** [np.concatenate]: an empty list of arrays raises. *)
Definition np_concatenate (arrays : list (list R)) : outcome (list R) :=
  match arrays with
  | [] => Raise ValueError
  | _ => Ok (concat arrays)
  end.

(** [make_timebins(t_range_list, n_step_list)] *)
Definition make_timebins (self : CE_sim) (t_range_list : list (R * R))
           (n_step_list : list Z) : outcome CE_sim :=
  tsteps_list <- map_outcome (fun rn => linspace (fst (fst rn)) (snd (fst rn)) (snd rn))
                             (combine t_range_list n_step_list) ;;
  tsteps_full <- np_concatenate tsteps_list ;;
  set_timebins self tsteps_full.

(** Atom [n]'s position in the state vector:
    [np.array([y[3*n], y[3*n+1], y[3*n+2]])]. *)
Definition position (y : list R) (n : nat) : outcome vec3 :=
  a <- get y (3 * n) ;;
  b <- get y (3 * n + 1) ;;
  c <- get y (3 * n + 2) ;;
  Ok (a, b, c).

(** The inner loop [for k in range(n_atoms)] of [NewtonEquations]. *)
Definition total_force (charges y : list R) (n_atoms n : nat) : outcome vec3 :=
  for_each (range n_atoms) (fun k force =>
    if negb (k =? n)%nat then
      r1 <- position y n ;;
      r2 <- position y k ;;
      qn <- get charges n ;;
      qk <- get charges k ;;
      Ok (vadd force (CoulombForce r1 r2 qn qk))
    else Ok force) vzero.

(** The body of [NewtonEquations] once [charges] and [masses] are read. *)
Definition newton (charges masses y : list R) : outcome (list R) :=
  let n_atoms := (length y / 6)%nat in
  for_each (range n_atoms) (fun n dydt =>
    v0 <- get y (3 * n_atoms + 3 * n) ;;
    dydt <- set_item dydt (3 * n) v0 ;;
    v1 <- get y (3 * n_atoms + 3 * n + 1) ;;
    dydt <- set_item dydt (3 * n + 1) v1 ;;
    v2 <- get y (3 * n_atoms + 3 * n + 2) ;;
    dydt <- set_item dydt (3 * n + 2) v2 ;;
    force <- total_force charges y n_atoms n ;;
    m <- get masses n ;;
    let a := vdivs force m in
    dydt <- set_item dydt (3 * n_atoms + 3 * n) (vx a) ;;
    dydt <- set_item dydt (3 * n_atoms + 3 * n + 1) (vy a) ;;
    set_item dydt (3 * n_atoms + 3 * n + 2) (vz a))
    (repeat 0 (length y)).

(** [NewtonEquations(t, y)] *)
Definition NewtonEquations (self : CE_sim) (t : R) (y : list R) : outcome (list R) :=
  let sc := sim_starting_conditions self in
  all_charges <- attr "samp_charges_list" (samp_charges_list sc) ;;
  i <- attr "sim_counter" (sim_counter self) ;;
  charges <- get all_charges i ;;
  all_masses <- attr "samp_masses_list" (samp_masses_list sc) ;;
  masses <- get all_masses i ;;
  newton charges masses y.

(** * Specification-level definitions *)

(** The samples of one sub-range, as a list. *)
Definition linspace_samples (start stop : R) (num : nat) : list R :=
  match num with
  | O => []
  | S O => [start]
  | S div => map (fun i => INR i * ((stop - start) / INR div) + start) (seq 0 div) ++ [stop]
  end.

(** Consecutive sub-ranges, each running forward and none starting before
    the previous one ends. *)
Fixpoint ascending (lo : R) (ranges : list (R * R)) : Prop :=
  match ranges with
  | [] => True
  | (a, b) :: rest => lo <= a /\ a <= b /\ ascending b rest
  end.

(** A sampler to build examples on: one atom at the origin. *)
Definition example_geometry : geometry :=
  mk_geometry [(0, 0, 0)] [1] 1 None None None None None.
Definition example_sampler : starting_conditions := starting_conditions_init example_geometry.
Definition example_sim : CE_sim := CE_sim_init example_sampler.

(** Atom [i]'s position and velocity in a state vector for [N] atoms. *)
Definition pos (y : list R) (i : nat) : vec3 :=
  (nth (3 * i) y 0, nth (3 * i + 1) y 0, nth (3 * i + 2) y 0).
Definition vel (y : list R) (N i : nat) : vec3 :=
  (nth (3 * N + 3 * i) y 0, nth (3 * N + 3 * i + 1) y 0, nth (3 * N + 3 * i + 2) y 0).

Definition vsum (l : list vec3) : vec3 := fold_right vadd vzero l.

(** The force of atom [j] on atom [i]: [k q_i q_j (r_i - r_j) / |r_i - r_j|^3]. *)
Definition coulomb_term (charges y : list R) (i j : nat) : vec3 :=
  vscale (k * nth i charges 0 * nth j charges 0 / norm (vsub (pos y i) (pos y j)) ^ 3)
         (vsub (pos y i) (pos y j)).

(** The atoms other than [i]. *)
Definition others (N i : nat) : list nat := filter (fun j => negb (j =? i)%nat) (seq 0 N).

(** The sum over [j <> i] of the Coulomb terms, divided by [m_i]. *)
Definition acceleration (charges masses y : list R) (N i : nat) : vec3 :=
  vdivs (vsum (map (coulomb_term charges y i) (others N i))) (nth i masses 0).

Definition distinct_positions (y : list R) (N : nat) : Prop :=
  forall i j : nat, (i < N)%nat -> (j < N)%nat -> i <> j -> pos y i <> pos y j.

(** Total momentum [sum_i m_i v_i] of a state, and of a derivative
    [sum_i m_i a_i]. *)
Definition momentum (masses y : list R) (N : nat) : vec3 :=
  vsum (map (fun i => vscale (nth i masses 0) (vel y N i)) (seq 0 N)).

(** Entry-wise sum and scaling of state vectors. *)
Definition ladd (a b : list R) : list R := map (fun ab => fst ab + snd ab) (combine a b).
Definition lscale (c : R) (a : list R) : list R := map (Rmult c) a.

(** The integrator is SciPy's [solve_ivp], an explicit Runge-Kutta method:
    each step, and each value of its dense output, is the current state plus
    a weighted sum of evaluations of [NewtonEquations] at stage states.  The
    relation below allows any weights and any stage states (of the right
    length, with distinct positions), so it contains every step the
    integrator can take. *)
Inductive rk_increment (charges masses : list R) (N : nat) : list R -> Prop :=
| rk_none : rk_increment charges masses N (repeat 0 (6 * N))
| rk_stage (c : R) (w d inc : list R) :
    length w = (6 * N)%nat ->
    distinct_positions w N ->
    newton charges masses w = Ok d ->
    rk_increment charges masses N inc ->
    rk_increment charges masses N (ladd (lscale c d) inc).

Definition rk_step (charges masses : list R) (N : nat) (y y' : list R) : Prop :=
  length y = (6 * N)%nat /\
  exists inc, rk_increment charges masses N inc /\ y' = ladd y inc.

(** The states reached from [y] in any number of steps. *)
Inductive reaches (charges masses : list R) (N : nat) (y : list R) : list R -> Prop :=
| reaches_start : reaches charges masses N y y
| reaches_step (y1 y2 : list R) :
    reaches charges masses N y y1 ->
    rk_step charges masses N y1 y2 ->
    reaches charges masses N y y2.

(** Two charges at rest at [+d/2] and [-d/2] on the x axis. *)
Definition two_body_start (d : R) : list R :=
  [d / 2; 0; 0; - (d / 2); 0; 0; 0; 0; 0; 0; 0; 0].

(** A simulation whose sampler holds one trajectory of two unit charges of
    mass 1 amu, with the cursor on it. *)
Definition two_body_sampler : starting_conditions :=
  mk_starting_conditions (mk_geometry [(1 / 2, 0, 0); (- (1 / 2), 0, 0)] [1; 1] 2
                                      None None None None None)
    false None None None None None None None None None None None None None
    (Some [two_body_start 1e-10]) (Some [[e; e]]) (Some [[u; u]]) (Some []).
Definition two_body_sim : CE_sim :=
  mk_CE_sim two_body_sampler None None None None (Some 0%nat).

(** What [fill_y0] leaves in the state vector when it returns. *)
Definition y0_shape (N : nat) (positions : list vec3) (y0 : list R) : Prop :=
  length y0 = (6 * N)%nat /\
  (forall j : nat, (j < N)%nat ->
     exists r, nth_error positions j = Some r /\ pos y0 j = r) /\
  (forall i : nat, (3 * N <= i)%nat -> nth i y0 0 = 0).

(** The charge vector of a trajectory: the charges of one of the channels
    in multi-channel mode, one elementary charge per atom otherwise. *)
Definition charges_shape (self : starting_conditions) (N : nat) (charges : list R) : Prop :=
  if multi_channel self then
    exists chans ch, channel_list self = Some chans /\ In ch chans /\
                     charges = map (fun q => q * e) (Channel.charges ch)
  else charges = repeat (1 * e) N.

(** The invariant of the trajectory loop. *)
Definition pool_shape (self : starting_conditions) (g : geometry) (n : nat) (acc : pool)
  : Prop :=
  length (pool_y0 acc) = n /\ length (pool_charges acc) = n /\ length (pool_masses acc) = n /\
  Forall (fun y0 => exists positions, y0_shape (natoms g) positions y0) (pool_y0 acc) /\
  Forall (charges_shape self (natoms g)) (pool_charges acc) /\
  Forall (fun masses => masses = map (fun m => m * u) (atom_masses g)) (pool_masses acc).

(** A [sigma] the gaussian branch accepts: non-negative, one entry or one
    entry per atom. *)
Definition sigma_ok (g : geometry) (s : sigma_t) : Prop :=
  exists a, sigma_to_array s = SigmaArray a /\ Forall (fun x => 0 <= x) a /\
            (length a = 1%nat \/ length a = natoms g).

Definition draws_per_trajectory (N : nat) (rotate : bool) : nat :=
  (3 * N + (if rotate then 3 else 0))%nat.

(** A tape on which the rejection loop at its default parameters refuses
    [N] times in a row: [random_Q = random_P = -3] and threshold [1/2]. *)
Definition reject_tape (N : nat) : list R := concat (repeat [0; 0; 1 / 2] N).

(** A two-atom geometry carrying one mode and its frequency. *)
Definition wigner_geometry : geometry :=
  mk_geometry [(0, 0, 0); (1, 0, 0)] [1; 1] 2
              (Some [[(1, 0, 0); (-1, 0, 0)]]) (Some [[(1, 0, 0); (-1, 0, 0)]])
              (Some [1000]) None None.
Definition wigner_sampler : starting_conditions := starting_conditions_init wigner_geometry.

(** The table [Pn_arr] for two modes at 1000 and 2000 wavenumbers, 300 K,
    two levels. *)
Definition two_mode_table : list (list R) :=
  [[calc_Pn 1000 300 0; calc_Pn 1000 300 1]; [calc_Pn 2000 300 0; calc_Pn 2000 300 1]].

(** [hbar omega / (kb T)] for a mode of wavenumber [omega_cm]. *)
Definition level_spacing (omega_cm temp : R) : R :=
  hbar * (omega_cm * c_cm_s * 2 * PI) / (kb * temp).

(** A draw that falls exactly on the ground-state weight of the first mode. *)
Definition telling_draw : R := 1 / (1 + exp (- level_spacing 1000 300)).

(** * The rest of class CE_sim: running the simulations and collecting output *)

(** [l[i]] for a signed index: a negative [i] counts from the end. *)
Definition get_signed {A : Type} (l : list A) (i : Z) : outcome A :=
  if (0 <=? i)%Z then get l (Z.to_nat i)
  else if (0 <=? i + Z.of_nat (length l))%Z then get l (Z.to_nat (i + Z.of_nat (length l)))
  else Raise IndexError.

(** The result of the ODE solver as far as the program reads it: the array
    [solution.y], one row per state entry, one column per evaluation time. *)
Record solution : Type := mk_solution {
  sol_y : list (list R)
}.

(** [solution.y[row, col]] *)
Definition sol_entry (sol : solution) (row : nat) (col : Z) : outcome R :=
  r <- get (sol_y sol) row ;;
  get_signed r col.

(** The attributes of a [CE_sim] object that hold results.  They are kept
    beside the record [CE_sim] and threaded with it. *)
Record sim_outputs : Type := mk_sim_outputs {
  output_list : option (list (list (list R)));
  save_all : option bool;
  solution_list : option (list solution);
  output_arr : option (list (list R));
  output_df : option (list string * list (list R))
}.

(** The result attributes of a freshly constructed [CE_sim]. *)
Definition no_outputs : sim_outputs := mk_sim_outputs None None None None None.

(** One row of [output_array] in [store_output]. *)
Definition output_row (self : CE_sim) (sol : solution) (charges masses : list R)
           (n_atoms counter i : nat) : outcome (list R) :=
  n_t <- attr "n_t_steps" (n_t_steps self) ;;
  v0 <- sol_entry sol ((n_atoms + i) * 3) (Z.of_nat n_t - 1) ;;
  v1 <- sol_entry sol ((n_atoms + i) * 3 + 1) (Z.of_nat n_t - 1) ;;
  v2 <- sol_entry sol ((n_atoms + i) * 3 + 2) (Z.of_nat n_t - 1) ;;
  q <- get charges i ;;
  m <- get masses i ;;
  Ok [v0; v1; v2; q; m; INR counter].

(** [store_output(solution)] *)
Definition store_output (self : CE_sim) (outs : sim_outputs) (sol : solution)
  : outcome sim_outputs :=
  let sc := sim_starting_conditions self in
  all_charges <- attr "samp_charges_list" (samp_charges_list sc) ;;
  counter <- attr "sim_counter" (sim_counter self) ;;
  charges <- get all_charges counter ;;
  all_masses <- attr "samp_masses_list" (samp_masses_list sc) ;;
  masses <- get all_masses counter ;;
  let n_atoms := length charges in
  output_array <- map_outcome (output_row self sol charges masses n_atoms counter)
                              (range n_atoms) ;;
  old <- attr "output_list" (output_list outs) ;;
  Ok (mk_sim_outputs (Some (old ++ [output_array])) (save_all outs) (solution_list outs)
                     (output_arr outs) (output_df outs)).

(** [np.vstack]: an empty list of arrays raises. *)
Definition np_vstack (arrays : list (list (list R))) : outcome (list (list R)) :=
  match arrays with
  | [] => Raise ValueError
  | _ => Ok (concat arrays)
  end.

(** [output_list_to_arr] *)
Definition output_list_to_arr (outs : sim_outputs) : outcome sim_outputs :=
  l <- attr "output_list" (output_list outs) ;;
  arr <- np_vstack l ;;
  Ok (mk_sim_outputs (output_list outs) (save_all outs) (solution_list outs)
                     (Some arr) (output_df outs)).

(** The column names of the output table. *)
Definition output_columns : list string :=
  ["vx"; "vy"; "vz"; "charge"; "mass"; "sim_counter"]%string.

(** [pd.DataFrame(arr, columns=names)]: the table, or [ValueError] when a
    row of [arr] does not have one entry per name. *)
Definition DataFrame (arr : list (list R)) (names : list string)
  : outcome (list string * list (list R)) :=
  if forallb (fun row => (length row =? length names)%nat) arr then Ok (names, arr)
  else Raise ValueError.

(** [output_list_to_df]: the table is built from [output_arr]; only when that
    fails (the attribute is unset, or the array is refused) is
    [output_arr] rebuilt from [output_list]. *)
Definition output_list_to_df (outs : sim_outputs) : outcome sim_outputs :=
  let table_of (o : sim_outputs) :=
    arr <- attr "output_arr" (output_arr o) ;;
    df <- DataFrame arr output_columns ;;
    Ok (mk_sim_outputs (output_list o) (save_all o) (solution_list o) (output_arr o)
                       (Some df)) in
  match table_of outs with
  | Ok outs' => Ok outs'
  | _ =>
    outs <- output_list_to_arr outs ;;
    table_of outs
  end.

(** The cursor of a simulation set to [i]. *)
Definition with_counter (self : CE_sim) (i : nat) : CE_sim :=
  mk_CE_sim (sim_starting_conditions self) (timebins self) (tmin self) (tmax self)
            (n_t_steps self) (Some i).

Section RunSims.

(** [scipy.integrate.solve_ivp(fun, [0, t_end], y0, t_eval=times)], SciPy's
    adaptive Runge-Kutta integrator, is not part of this program: it is a
    parameter, and what is proved about [run_sims] holds for every
    integrator. *)
Variable solve_ivp :
  (R -> list R -> outcome (list R)) -> R -> list R -> list R -> outcome solution.

(** The body of the loop of [run_sims] for one starting vector.  [n_print],
    the interval of the progress messages, is positive. *)
Definition run_one (save : bool) (y0 : list R) (st : CE_sim * sim_outputs)
  : outcome (CE_sim * sim_outputs) :=
  let '(self, outs) := st in
  t_end <- attr "tmax" (tmax self) ;;
  times <- attr "timebins" (timebins self) ;;
  sol <- solve_ivp (NewtonEquations self) t_end y0 times ;;
  outs <- (if save then
             sols <- attr "solution_list" (solution_list outs) ;;
             Ok (mk_sim_outputs (output_list outs) (save_all outs) (Some (sols ++ [sol]))
                                (output_arr outs) (output_df outs))
           else Ok outs) ;;
  outs <- store_output self outs sol ;;
  counter <- attr "sim_counter" (sim_counter self) ;;
  Ok (with_counter self (counter + 1), outs).

(** [run_sims(n_print, save_all)] *)
Definition run_sims (self : CE_sim) (outs : sim_outputs) (n_print : positive) (save : bool)
  : outcome (CE_sim * sim_outputs) :=
  let outs := mk_sim_outputs (Some []) (Some save)
                             (if save then Some [] else solution_list outs)
                             (output_arr outs) (output_df outs) in
  let self := with_counter self 0 in
  y0s <- attr "samp_y0_list" (samp_y0_list (sim_starting_conditions self)) ;;
  for_each y0s (run_one save) (self, outs).

End RunSims.

(** * Further specification-level definitions *)

(** [sum_i m_i r_i] over the atoms that [zip(coords, masses)] pairs up, and
    the sum of their masses. *)
Definition weighted_sum (coords : list vec3) (masses : list R) : vec3 :=
  fold_left (fun acc rm => vadd acc (vmuls (fst rm) (snd rm))) (combine coords masses) vzero.
Definition paired_mass (coords : list vec3) (masses : list R) : R :=
  fold_left (fun acc rm => acc + snd rm) (combine coords masses) 0.

(** The Boltzmann factor [exp(-hbar omega / kb T)] between successive levels. *)
Definition boltzmann_factor (omega_cm temp : R) : R := exp (- level_spacing omega_cm temp).

(** The number of samples [zip(t_range_list, n_step_list)] asks for. *)
Definition requested_samples (ranges : list (R * R)) (counts : list Z) : nat :=
  list_sum (map (fun rn => Z.to_nat (snd rn)) (combine ranges counts)).

(** What one call of [store_output] adds: an array with a row per entry of
    the charge vector, holding the velocity of that atom at the last
    evaluation time, its charge, its mass and the trajectory index. *)
Definition output_of (sol : solution) (charges masses : list R) (counter n_t : nat)
           (arr : list (list R)) : Prop :=
  length arr = length charges /\
  forall i : nat, (i < length charges)%nat ->
    exists r0 r1 r2 v0 v1 v2 m,
      nth_error arr i = Some [v0; v1; v2; nth i charges 0; m; INR counter] /\
      nth_error masses i = Some m /\
      nth_error (sol_y sol) ((length charges + i) * 3) = Some r0 /\
      nth_error r0 (n_t - 1) = Some v0 /\
      nth_error (sol_y sol) ((length charges + i) * 3 + 1) = Some r1 /\
      nth_error r1 (n_t - 1) = Some v1 /\
      nth_error (sol_y sol) ((length charges + i) * 3 + 2) = Some r2 /\
      nth_error r2 (n_t - 1) = Some v2.

(** The part of [output_of] that does not look at the solution: a row per
    charge, six entries per row. *)
Definition output_shape (charges : list R) (arr : list (list R)) : Prop :=
  length arr = length charges /\ Forall (fun row => length row = 6%nat) arr.

(** The output array of trajectory [i] of a run: built by [store_output] from
    the solver's answer for the [i]-th starting vector, integrated in the
    force field of the [i]-th charges and masses. *)
Definition trajectory_output
           (solve_ivp : (R -> list R -> outcome (list R)) -> R -> list R -> list R ->
                        outcome solution)
           (self : CE_sim) (n_t i : nat) (arr : list (list R)) : Prop :=
  let sc := sim_starting_conditions self in
  exists y0s all_charges all_masses t_end times y0 charges masses sol,
    samp_y0_list sc = Some y0s /\ nth_error y0s i = Some y0 /\
    samp_charges_list sc = Some all_charges /\ nth_error all_charges i = Some charges /\
    samp_masses_list sc = Some all_masses /\ nth_error all_masses i = Some masses /\
    tmax self = Some t_end /\ timebins self = Some times /\
    solve_ivp (NewtonEquations (with_counter self i)) t_end y0 times = Ok sol /\
    output_of sol charges masses i n_t arr.

(** What a run leaves behind: the cursor past the last trajectory and one
    output array per starting vector, in order. *)
Definition run_outputs
           (solve_ivp : (R -> list R -> outcome (list R)) -> R -> list R -> list R ->
                        outcome solution)
           (self : CE_sim) (n_t : nat) (self' : CE_sim) (outs' : sim_outputs) : Prop :=
  exists y0s arrs,
    samp_y0_list (sim_starting_conditions self) = Some y0s /\
    self' = with_counter self (length y0s) /\
    output_list outs' = Some arrs /\ length arrs = length y0s /\
    forall i : nat, (i < length y0s)%nat ->
      exists arr, nth_error arrs i = Some arr /\ trajectory_output solve_ivp self n_t i arr.

(** An integrator that holds the state fixed: every evaluation time sees
    [y0]. *)
Definition constant_solver (f : R -> list R -> outcome (list R)) (t_end : R)
           (y0 times : list R) : outcome solution :=
  Ok (mk_solution (map (fun v => map (fun _ => v) times) y0)).

(** The two-body simulation with the evaluation times [0, 1]. *)
Definition two_body_timed : CE_sim :=
  mk_CE_sim two_body_sampler (Some [0; 1]) (Some 0) (Some 1) (Some 2%nat) (Some 0%nat).

(** The result attributes after an earlier run that left a one-row array. *)
Definition earlier_outputs : sim_outputs :=
  mk_sim_outputs (Some [[[1; 2; 3; 4; 5; 0]]]) (Some false) None (Some [[1; 2; 3; 4; 5; 0]]) None.

(** A simulation whose sampler holds an empty ensemble, as
    [generate_pool(0, ...)] leaves it. *)
Definition empty_ensemble_sim : CE_sim :=
  mk_CE_sim
    (mk_starting_conditions (mk_geometry [(1 / 2, 0, 0); (- (1 / 2), 0, 0)] [1; 1] 2
                                         None None None None None)
       false None None None None None None None None None None None None None
       (Some []) (Some []) (Some []) (Some []))
    (Some [0; 1]) (Some 0) (Some 1) (Some 2%nat) None.
(** * Verification *)

(** ** Lists, indexing and loops *)

Lemma get_nth {A : Type} (l : list A) (i : nat) (d : A) :
  (i < length l)%nat -> get l i = Ok (nth i l d).
Proof.
  intros H. unfold get. rewrite (nth_error_nth' l d H). reflexivity.
Qed.

Lemma get_Ok {A : Type} (l : list A) (i : nat) (x : A) :
  get l i = Ok x -> nth_error l i = Some x.
Proof.
  unfold get. destruct (nth_error l i); intros H; inversion H; reflexivity.
Qed.

Lemma length_upd {A : Type} (l : list A) (i : nat) (x : A) : length (upd l i x) = length l.
Proof.
  revert i. induction l as [|a l IH]; intros [|i]; simpl; auto.
Qed.

Lemma nth_upd_eq {A : Type} (l : list A) (i : nat) (x d : A) :
  (i < length l)%nat -> nth i (upd l i x) d = x.
Proof.
  revert i. induction l as [|a l IH]; intros [|i] H; simpl in *; try lia; auto.
  apply IH. lia.
Qed.

Lemma nth_upd_neq {A : Type} (l : list A) (i j : nat) (x d : A) :
  i <> j -> nth j (upd l i x) d = nth j l d.
Proof.
  revert i j. induction l as [|a l IH]; intros [|i] [|j] H; simpl; auto; try lia.
Qed.

Lemma set_item_Ok {A : Type} (l : list A) (i : nat) (x : A) :
  (i < length l)%nat -> set_item l i x = Ok (upd l i x).
Proof.
  intros H. unfold set_item. apply Nat.ltb_lt in H. rewrite H. reflexivity.
Qed.

Lemma set_item_inv {A : Type} (l l' : list A) (i : nat) (x : A) :
  set_item l i x = Ok l' -> (i < length l)%nat /\ l' = upd l i x.
Proof.
  unfold set_item. destruct (Nat.ltb_spec i (length l)); intros E; inversion E. auto.
Qed.

Lemma bind_Ok {A B : Type} (m : outcome A) (f : A -> outcome B) (b : B) :
  bind m f = Ok b -> exists a, m = Ok a /\ f a = Ok b.
Proof.
  destruct m; simpl; intros H; try discriminate. eauto.
Qed.

Lemma bindM_Ok {A B : Type} (m : M A) (f : A -> M B) (tape : list R) (r : B * list R) :
  bindM m f tape = Ok r -> exists a tape', m tape = Ok (a, tape') /\ f a tape' = Ok r.
Proof.
  unfold bindM. destruct (m tape) as [[a tape']| |]; intros H; try discriminate. eauto.
Qed.

Lemma lift_Ok {A : Type} (m : outcome A) (tape : list R) (r : A * list R) :
  lift m tape = Ok r -> m = Ok (fst r) /\ snd r = tape.
Proof.
  unfold lift. destruct m; intros H; inversion H; auto.
Qed.

(** A loop over [range N] that maintains an invariant runs to completion. *)
Lemma for_each_seq_inv {S : Type} (body : nat -> S -> outcome S) (Inv : nat -> S -> Prop) :
  forall len start s,
    Inv start s ->
    (forall n s, (start <= n < start + len)%nat -> Inv n s ->
                 exists s', body n s = Ok s' /\ Inv (Datatypes.S n) s') ->
    exists s', for_each (seq start len) body s = Ok s' /\ Inv (start + len)%nat s'.
Proof.
  induction len as [|len IH]; intros start s H0 Hstep; simpl.
  - exists s. rewrite Nat.add_0_r. auto.
  - destruct (Hstep start s) as [s1 [E1 H1]]; [lia | assumption |].
    rewrite E1. simpl.
    destruct (IH (Datatypes.S start) s1 H1) as [s2 [E2 H2]].
    + intros n s' Hn. apply Hstep. lia.
    + exists s2. split; [exact E2|]. replace (start + Datatypes.S len)%nat
        with (Datatypes.S start + len)%nat by lia. exact H2.
Qed.

Lemma for_each_range_inv {S : Type} (body : nat -> S -> outcome S) (Inv : nat -> S -> Prop)
      (N : nat) (s : S) :
  Inv 0%nat s ->
  (forall n s, (n < N)%nat -> Inv n s -> exists s', body n s = Ok s' /\ Inv (Datatypes.S n) s') ->
  exists s', for_each (range N) body s = Ok s' /\ Inv N s'.
Proof.
  intros H0 Hstep. unfold range.
  destruct (for_each_seq_inv body Inv N 0 s H0) as [s' [E H]].
  - intros n s0 Hn. apply Hstep. lia.
  - exists s'. auto.
Qed.

(** ** Rotation matrices *)

Lemma pair3_eq {A B C : Type} (a a' : A) (b b' : B) (c c' : C) :
  a = a' -> b = b' -> c = c' -> (a, b, c) = (a', b', c').
Proof. intros; subst; reflexivity. Qed.

Ltac mat_unfold :=
  cbv [orthogonal rotate_all mat_mul mat_vec transpose msub outer eye3 vdot vsub vadd
       vscale row1 row2 row3 vx vy vz det fst snd] in *.

Ltac mat_ext := repeat apply pair3_eq.

Ltac destruct_mat m :=
  let a := fresh m in let b := fresh m in let c := fresh m in
  let d := fresh m in let e := fresh m in let f := fresh m in
  let g := fresh m in let h := fresh m in let i := fresh m in
  destruct m as [[[[a b] c] [[d e] f]] [[g h] i]].

Lemma mat_mul_assoc (a b c : mat3) : mat_mul (mat_mul a b) c = mat_mul a (mat_mul b c).
Proof. destruct_mat a. destruct_mat b. destruct_mat c. mat_unfold. mat_ext; ring. Qed.

Lemma transpose_mul (a b : mat3) :
  transpose (mat_mul a b) = mat_mul (transpose b) (transpose a).
Proof. destruct_mat a. destruct_mat b. mat_unfold. mat_ext; ring. Qed.

Lemma mat_mul_eye_l (a : mat3) : mat_mul eye3 a = a.
Proof. destruct_mat a. mat_unfold. mat_ext; ring. Qed.

Lemma det_mul (a b : mat3) : det (mat_mul a b) = det a * det b.
Proof. destruct_mat a. destruct_mat b. mat_unfold. ring. Qed.

Lemma orthogonal_mul (a b : mat3) : orthogonal a -> orthogonal b -> orthogonal (mat_mul a b).
Proof.
  intros [Ha1 Ha2] [Hb1 Hb2]. split; rewrite transpose_mul.
  - rewrite mat_mul_assoc, <- (mat_mul_assoc b), Hb1, mat_mul_eye_l. exact Ha1.
  - rewrite mat_mul_assoc, <- (mat_mul_assoc (transpose a)), Ha2, mat_mul_eye_l. exact Hb2.
Qed.

(** Closes [l = r] when [l - r] is the multiple [m] of the two sides of [E]. *)
Ltac by_multiple E m :=
  apply Rminus_diag_uniq;
  match goal with
  | |- ?l = 0 =>
    match type of E with
    | ?p = ?q => replace l with (m * (p - q)) by ring; rewrite E; ring
    end
  end.

(** [V V^T - I] for a vector of squared length 2 is a rotation. *)
Lemma reflection_orthogonal (a b c : R) :
  a * a + b * b + c * c = 2 ->
  orthogonal (msub (outer (a, b, c) (a, b, c)) eye3) /\
  det (msub (outer (a, b, c) (a, b, c)) eye3) = 1.
Proof.
  intros E. mat_unfold. repeat split.
  - mat_ext;
      first [ by_multiple E (a*a) | by_multiple E (a*b) | by_multiple E (a*c)
            | by_multiple E (b*b) | by_multiple E (b*c) | by_multiple E (c*c) ].
  - mat_ext;
      first [ by_multiple E (a*a) | by_multiple E (a*b) | by_multiple E (a*c)
            | by_multiple E (b*b) | by_multiple E (b*c) | by_multiple E (c*c) ].
  - by_multiple E 1.
Qed.

Lemma planar_rotation_orthogonal (ct st : R) :
  st * st + ct * ct = 1 ->
  orthogonal ((ct, st, 0), (- st, ct, 0), (0, 0, 1)) /\
  det ((ct, st, 0), (- st, ct, 0), (0, 0, 1)) = 1.
Proof.
  intros E. mat_unfold. repeat split.
  - mat_ext; first [ by_multiple E 1 | ring ].
  - mat_ext; first [ by_multiple E 1 | ring ].
  - by_multiple E 1.
Qed.

Lemma sin_cos_sq (x : R) : sin x * sin x + cos x * cos x = 1.
Proof. generalize (sin2_cos2 x). unfold Rsqr. tauto. Qed.

Lemma RandRotationMatrix_rotation (t p z : R) :
  0 <= z <= 1 ->
  orthogonal (RandRotationMatrix 1 (t, p, z)) /\ det (RandRotationMatrix 1 (t, p, z)) = 1.
Proof.
  intros [Hz0 Hz1].
  unfold RandRotationMatrix.
  set (th := t * 2 * 1 * PI). set (ph := p * 2 * PI). set (zz := z * 2 * 1).
  assert (Hr : sqrt zz * sqrt zz = zz) by (apply sqrt_sqrt; subst zz; lra).
  assert (Hw : sqrt (2 - zz) * sqrt (2 - zz) = 2 - zz) by (apply sqrt_sqrt; subst zz; lra).
  assert (HV : (sin ph * sqrt zz) * (sin ph * sqrt zz) + (cos ph * sqrt zz) * (cos ph * sqrt zz)
               + sqrt (2 - zz) * sqrt (2 - zz) = 2).
  { rewrite Hw.
    replace (sin ph * sqrt zz * (sin ph * sqrt zz) + cos ph * sqrt zz * (cos ph * sqrt zz))
      with ((sin ph * sin ph + cos ph * cos ph) * (sqrt zz * sqrt zz)) by ring.
    rewrite sin_cos_sq, Hr. ring. }
  destruct (reflection_orthogonal _ _ _ HV) as [Ho Hd].
  destruct (planar_rotation_orthogonal (cos th) (sin th) (sin_cos_sq th)) as [Ho' Hd'].
  split.
  - apply orthogonal_mul; assumption.
  - rewrite det_mul, Hd, Hd'. ring.
Qed.

Lemma mat_vec_sub (m : mat3) (a b : vec3) :
  vsub (mat_vec m a) (mat_vec m b) = mat_vec m (vsub a b).
Proof.
  destruct_mat m. destruct a as [[a1 a2] a3]. destruct b as [[b1 b2] b3].
  mat_unfold. mat_ext; ring.
Qed.

Lemma orthogonal_norm (m : mat3) (v : vec3) : orthogonal m -> norm (mat_vec m v) = norm v.
Proof.
  intros [_ H]. unfold norm. f_equal.
  destruct m as [[[[m1 m2] m3] [[m4 m5] m6]] [[m7 m8] m9]].
  destruct v as [[a b] c].
  mat_unfold. injection H as E1 E2 E3 E4 E5 E6 E7 E8 E9.
  replace ((m1 * a + m2 * b + m3 * c) * (m1 * a + m2 * b + m3 * c) +
           (m4 * a + m5 * b + m6 * c) * (m4 * a + m5 * b + m6 * c) +
           (m7 * a + m8 * b + m9 * c) * (m7 * a + m8 * b + m9 * c))
    with ((m1 * m1 + m4 * m4 + m7 * m7) * (a * a) + (m1 * m2 + m4 * m5 + m7 * m8) * (a * b)
          + (m1 * m3 + m4 * m6 + m7 * m9) * (a * c) + (m2 * m1 + m5 * m4 + m8 * m7) * (b * a)
          + (m2 * m2 + m5 * m5 + m8 * m8) * (b * b) + (m2 * m3 + m5 * m6 + m8 * m9) * (b * c)
          + (m3 * m1 + m6 * m4 + m9 * m7) * (c * a) + (m3 * m2 + m6 * m5 + m9 * m8) * (c * b)
          + (m3 * m3 + m6 * m6 + m9 * m9) * (c * c)) by ring.
  rewrite E1, E2, E3, E4, E5, E6, E7, E8, E9. ring.
Qed.

Lemma orthogonal_dist (m : mat3) (a b : vec3) :
  orthogonal m -> dist (mat_vec m a) (mat_vec m b) = dist a b.
Proof.
  intros H. unfold dist. rewrite mat_vec_sub. apply orthogonal_norm. exact H.
Qed.

(** C8: every matrix of the generator (three inputs in [0,1], deflection 1)
    is orthogonal with determinant 1; [random_rotation] draws three numbers
    and returns every position multiplied by the generator's matrix for
    exactly those numbers, the same matrix for every atom, so the distance
    between any two atoms is the same before and after the rotation step. *)
Theorem random_rotation_preserves_distances :
  (forall t p z : R, 0 <= t <= 1 -> 0 <= p <= 1 -> 0 <= z <= 1 ->
     orthogonal (RandRotationMatrix 1 (t, p, z)) /\ det (RandRotationMatrix 1 (t, p, z)) = 1) /\
  (forall (r_list : list vec3) (x1 x2 x3 : R) (tape : list R),
     0 <= x1 <= 1 -> 0 <= x2 <= 1 -> 0 <= x3 <= 1 ->
     let rm := RandRotationMatrix 1 (x1, x2, x3) in
     let r_list_rot := map (mat_vec rm) r_list in
     random_rotation r_list (x1 :: x2 :: x3 :: tape) = Ok (r_list_rot, tape) /\
     length r_list_rot = length r_list /\
     (forall i : nat, (i < length r_list)%nat ->
        nth i r_list_rot vzero = mat_vec rm (nth i r_list vzero)) /\
     forall i j : nat,
       dist (nth i r_list_rot vzero) (nth j r_list_rot vzero)
       = dist (nth i r_list vzero) (nth j r_list vzero)).
Proof.
  split.
  - intros t p z _ _ Hz. apply RandRotationMatrix_rotation. exact Hz.
  - intros r_list x1 x2 x3 tape H1 H2 H3 rm r_list_rot.
    destruct (RandRotationMatrix_rotation x1 x2 x3) as [Ho Hd]; [lra|].
    fold rm in Ho, Hd.
    assert (Hz : mat_vec rm vzero = vzero).
    { generalize rm. intros m. destruct_mat m. unfold vzero. mat_unfold. mat_ext; ring. }
    split; [|split; [|split]].
    + assert (E : random_rotation r_list (x1 :: x2 :: x3 :: tape)
                  = Ok (rotate_all (RandRotationMatrix 1 (0 + (1 - 0) * x1, 0 + (1 - 0) * x2,
                                                          0 + (1 - 0) * x3)) r_list, tape))
        by reflexivity.
      rewrite E. unfold rotate_all, r_list_rot, rm.
      replace (0 + (1 - 0) * x1) with x1 by ring.
      replace (0 + (1 - 0) * x2) with x2 by ring.
      replace (0 + (1 - 0) * x3) with x3 by ring.
      reflexivity.
    + apply length_map.
    + intros i _. unfold r_list_rot. rewrite <- Hz at 1. apply map_nth.
    + intros i j. unfold r_list_rot. rewrite <- Hz at 1 2. rewrite !map_nth.
      apply orthogonal_dist. exact Ho.
Qed.

Lemma random_rotation_preserves_distances_witness :
  let rm := RandRotationMatrix 1 (0, 1 / 2, 1) in
  let r_list_rot := map (mat_vec rm) [(1, 0, 0); (0, 2, 0)] in
  random_rotation [(1, 0, 0); (0, 2, 0)] [0; 1 / 2; 1] = Ok (r_list_rot, []) /\
  length r_list_rot = length [(1, 0, 0); (0, 2, 0)] /\
  (forall i : nat, (i < length [(1, 0, 0); (0, 2, 0)])%nat ->
     nth i r_list_rot vzero = mat_vec rm (nth i [(1, 0, 0); (0, 2, 0)] vzero)) /\
  forall i j : nat,
    dist (nth i r_list_rot vzero) (nth j r_list_rot vzero)
    = dist (nth i [(1, 0, 0); (0, 2, 0)] vzero) (nth j [(1, 0, 0); (0, 2, 0)] vzero).
Proof.
  apply (proj2 random_rotation_preserves_distances [(1, 0, 0); (0, 2, 0)] 0 (1 / 2) 1 []); lra.
Defined.

(** ** The Wigner function *)

Lemma laguerre_0 (x : R) : laguerre 0 x = 1.
Proof. unfold laguerre, C. simpl. field. Qed.

Lemma laguerre_1 (x : R) : laguerre 1 x = 1 - x.
Proof. unfold laguerre, C. simpl. field. Qed.

Lemma laguerre_2 (x : R) : laguerre 2 x = 1 - 2 * x + x ^ 2 / 2.
Proof. unfold laguerre, C. simpl. field. Qed.

Lemma laguerre_3 (x : R) : laguerre 3 x = 1 - 3 * x + 3 * x ^ 2 / 2 - x ^ 3 / 6.
Proof. unfold laguerre, C. simpl. field. Qed.

(** C4: [calc_W(P, Q, n)] is [exp(-Q^2) exp(-P^2)] for [n = 0] and
    [(-1)^n L_n(2(P^2+Q^2)) exp(-(P^2+Q^2))] for [n > 0]. *)
Theorem calc_W_value (P Q : R) (n : Z) :
  (n = 0%Z -> calc_W P Q n = exp (- Q ^ 2) * exp (- P ^ 2)) /\
  ((0 < n)%Z ->
   calc_W P Q n
   = (-1) ^ Z.to_nat n * laguerre (Z.to_nat n) (2 * (P ^ 2 + Q ^ 2)) * exp (- (P ^ 2 + Q ^ 2))).
Proof.
  unfold calc_W. split; intros H.
  - subst n. reflexivity.
  - apply Z.ltb_lt in H. rewrite H. f_equal. f_equal. field.
Qed.

Lemma calc_W_value_witness :
  calc_W 1 2 0 = exp (- 2 ^ 2) * exp (- 1 ^ 2) /\
  calc_W 1 2 3
  = (-1) ^ Z.to_nat 3 * laguerre (Z.to_nat 3) (2 * (1 ^ 2 + 2 ^ 2)) * exp (- (1 ^ 2 + 2 ^ 2)).
Proof.
  split.
  - apply (proj1 (calc_W_value 1 2 0)). reflexivity.
  - apply (proj2 (calc_W_value 1 2 3)). reflexivity.
Defined.

(** ** Evaluation times *)

Lemma map_outcome_Ok_length {A B : Type} (f : A -> outcome B) (l : list A) (bs : list B) :
  map_outcome f l = Ok bs -> length bs = length l.
Proof.
  revert bs. induction l as [|a l IH]; simpl; intros bs H.
  - inversion H. reflexivity.
  - apply bind_Ok in H. destruct H as [b [_ H]].
    apply bind_Ok in H. destruct H as [bs' [E H]]. inversion H. simpl. f_equal. auto.
Qed.

Lemma map_outcome_Forall2 {A B : Type} (f : A -> outcome B) (l : list A) (bs : list B) :
  map_outcome f l = Ok bs <-> Forall2 (fun a b => f a = Ok b) l bs.
Proof.
  revert bs. induction l as [|a l IH]; simpl; intros bs; split; intros H.
  - inversion H. constructor.
  - inversion H. reflexivity.
  - apply bind_Ok in H. destruct H as [b [Eb H]].
    apply bind_Ok in H. destruct H as [bs' [E H]]. inversion H. constructor; auto.
    apply IH. exact E.
  - inversion H as [|a' b l' bs' Eb Hl]; subst. rewrite Eb. simpl.
    apply IH in Hl. rewrite Hl. reflexivity.
Qed.

Lemma linspace_Ok (start stop : R) (num : Z) :
  (0 <= num)%Z -> linspace start stop num = Ok (linspace_samples start stop (Z.to_nat num)).
Proof.
  intros H. unfold linspace, linspace_samples, range.
  destruct (Z.ltb_spec num 0); [lia|].
  destruct (Z.to_nat num) as [|[|d]]; reflexivity.
Qed.

Lemma length_linspace_samples (start stop : R) (num : nat) :
  length (linspace_samples start stop num) = num.
Proof.
  destruct num as [|[|d]]; simpl; auto.
  rewrite length_app, length_map, length_seq. simpl. lia.
Qed.

Lemma linspace_samples_bounds (start stop : R) (num : nat) :
  start <= stop ->
  Forall (fun x => start <= x <= stop) (linspace_samples start stop num).
Proof.
  intros Hle. destruct num as [|[|d]]; unfold linspace_samples; lazy beta iota.
  - constructor.
  - constructor; [lra | constructor].
  - assert (Hd : 0 < INR (S d)) by (apply lt_0_INR; lia).
    assert (Hs : 0 <= (stop - start) / INR (S d)).
    { apply Rmult_le_pos; [lra|]. left. apply Rinv_0_lt_compat. exact Hd. }
    apply Forall_app. split; [|constructor; [lra | constructor]].
    apply Forall_forall. intros x Hx. apply in_map_iff in Hx.
    destruct Hx as [i [Hx Hi]]. apply in_seq in Hi. subst x.
    assert (Hi' : 0 <= INR i <= INR (S d)).
    { split; [apply pos_INR | apply le_INR; lia]. }
    split.
    + assert (0 <= INR i * ((stop - start) / INR (S d))) by (apply Rmult_le_pos; tauto).
      lra.
    + assert (INR i * ((stop - start) / INR (S d)) <= INR (S d) * ((stop - start) / INR (S d)))
        by (apply Rmult_le_compat_r; tauto).
      replace (INR (S d) * ((stop - start) / INR (S d))) with (stop - start) in H
        by (field; lra).
      lra.
Qed.

Lemma StronglySorted_map_seq (f : nat -> R) :
  (forall i j : nat, (i <= j)%nat -> f i <= f j) ->
  forall len start, StronglySorted Rle (map f (seq start len)).
Proof.
  intros Hf. induction len as [|len IH]; intros start; simpl; constructor.
  - apply IH.
  - apply Forall_forall. intros x Hx. apply in_map_iff in Hx.
    destruct Hx as [i [Hx Hi]]. apply in_seq in Hi. subst x. apply Hf. lia.
Qed.

Lemma StronglySorted_app (l1 l2 : list R) :
  StronglySorted Rle l1 -> StronglySorted Rle l2 ->
  (forall x y, In x l1 -> In y l2 -> x <= y) ->
  StronglySorted Rle (l1 ++ l2).
Proof.
  intros H1 H2 H. induction H1 as [|a l1 Hl1 IH Ha]; simpl; [exact H2|].
  constructor.
  - apply IH. intros x y Hx Hy. apply H; [right; exact Hx | exact Hy].
  - apply Forall_app. split; [exact Ha|].
    apply Forall_forall. intros y Hy. apply H; [left; reflexivity | exact Hy].
Qed.

Lemma linspace_samples_sorted (start stop : R) (num : nat) :
  start <= stop -> StronglySorted Rle (linspace_samples start stop num).
Proof.
  intros Hle.
  pose proof (linspace_samples_bounds start stop num Hle) as Hb.
  destruct num as [|[|d]]; unfold linspace_samples in *; lazy beta iota in *.
  - constructor.
  - constructor; constructor.
  - assert (Hd : 0 < INR (S d)) by (apply lt_0_INR; lia).
    assert (Hs : 0 <= (stop - start) / INR (S d)).
    { apply Rmult_le_pos; [lra|]. left. apply Rinv_0_lt_compat. exact Hd. }
    apply Forall_app in Hb. destruct Hb as [Hb _].
    apply StronglySorted_app.
    + apply StronglySorted_map_seq. intros i j Hij.
      apply Rplus_le_compat_r. apply Rmult_le_compat_r; [exact Hs | apply le_INR; exact Hij].
    + constructor; constructor.
    + intros x y Hx [Hy|[]]. subst y.
      rewrite Forall_forall in Hb. apply Hb in Hx. tauto.
Qed.

Lemma ascending_weaken (lo lo' : R) (ranges : list (R * R)) :
  lo' <= lo -> ascending lo ranges -> ascending lo' ranges.
Proof.
  destruct ranges as [|[a b] rest]; simpl; [tauto|]. intros H [H1 H2]. split; [lra | exact H2].
Qed.

Lemma concat_linspace_sorted (ranges : list (R * R)) :
  forall (counts : list nat) (lo : R),
    ascending lo ranges ->
    let times := concat (map (fun rn => linspace_samples (fst (fst rn)) (snd (fst rn)) (snd rn))
                             (combine ranges counts)) in
    StronglySorted Rle times /\ Forall (fun x => lo <= x) times.
Proof.
  induction ranges as [|[a b] rest IH]; intros counts lo Hasc; simpl.
  - split; constructor.
  - destruct counts as [|n counts]; simpl; [split; constructor|].
    destruct Hasc as [Hlo [Hab Hrest]].
    destruct (IH counts b Hrest) as [Hs Hb].
    pose proof (linspace_samples_bounds a b n Hab) as Hbd.
    split.
    + apply StronglySorted_app; [apply linspace_samples_sorted; exact Hab | exact Hs |].
      intros x y Hx Hy. rewrite Forall_forall in Hbd, Hb.
      apply Hbd in Hx. apply Hb in Hy. lra.
    + apply Forall_app. split.
      * eapply Forall_impl; [|exact Hbd]. simpl. intros x Hx. lra.
      * eapply Forall_impl; [|exact Hb]. simpl. intros x Hx. lra.
Qed.

Lemma fold_left_Rmin_spec (l : list R) (x : R) :
  In (fold_left Rmin l x) (x :: l) /\ Forall (fun y => fold_left Rmin l x <= y) (x :: l).
Proof.
  revert x. induction l as [|a l IH]; intros x; simpl.
  - split; [left; reflexivity | constructor; [lra | constructor]].
  - destruct (IH (Rmin x a)) as [Hin Hall]. split.
    + destruct Hin as [Hin|Hin]; [|right; right; exact Hin].
      rewrite <- Hin. unfold Rmin. destruct (Rle_dec x a); [left | right; left]; reflexivity.
    + inversion Hall as [|? ? H1 H2]; subst.
      pose proof (Rmin_l x a). pose proof (Rmin_r x a).
      constructor; [lra|]. constructor; [lra | exact H2].
Qed.

Lemma fold_left_Rmax_spec (l : list R) (x : R) :
  In (fold_left Rmax l x) (x :: l) /\ Forall (fun y => y <= fold_left Rmax l x) (x :: l).
Proof.
  revert x. induction l as [|a l IH]; intros x; simpl.
  - split; [left; reflexivity | constructor; [lra | constructor]].
  - destruct (IH (Rmax x a)) as [Hin Hall]. split.
    + destruct Hin as [Hin|Hin]; [|right; right; exact Hin].
      rewrite <- Hin. unfold Rmax. destruct (Rle_dec x a); [right; left | left]; reflexivity.
    + inversion Hall as [|? ? H1 H2]; subst.
      pose proof (Rmax_l x a). pose proof (Rmax_r x a).
      constructor; [lra|]. constructor; [lra | exact H2].
Qed.


Lemma make_timebins_run (self : CE_sim) (ranges : list (R * R)) (counts : list Z) :
  Forall (fun n => (0 <= n)%Z) counts ->
  map_outcome (fun rn => linspace (fst (fst rn)) (snd (fst rn)) (snd rn)) (combine ranges counts)
  = Ok (map (fun rn => linspace_samples (fst (fst rn)) (snd (fst rn)) (Z.to_nat (snd rn)))
            (combine ranges counts)).
Proof.
  intros Hc. apply map_outcome_Forall2.
  revert counts Hc. induction ranges as [|r ranges IH]; intros counts Hc; simpl; [constructor|].
  destruct counts as [|n counts]; simpl; [constructor|].
  inversion Hc; subst. constructor; [|apply IH; assumption].
  simpl. apply linspace_Ok. assumption.
Qed.

Lemma combine_map_to_nat (ranges : list (R * R)) (counts : list Z) :
  map (fun rn : R * R * Z => linspace_samples (fst (fst rn)) (snd (fst rn)) (Z.to_nat (snd rn)))
      (combine ranges counts)
  = map (fun rn : R * R * nat => linspace_samples (fst (fst rn)) (snd (fst rn)) (snd rn))
        (combine ranges (map Z.to_nat counts)).
Proof.
  revert counts. induction ranges as [|r ranges IH]; intros [|n counts]; simpl; auto.
  f_equal. apply IH.
Qed.

Lemma make_timebins_Ok (self : CE_sim) (ranges : list (R * R)) (counts : list Z)
      (x : R) (l : list R) :
  Forall (fun n => (0 <= n)%Z) counts ->
  concat (map (fun rn => linspace_samples (fst (fst rn)) (snd (fst rn)) (Z.to_nat (snd rn)))
              (combine ranges counts)) = x :: l ->
  make_timebins self ranges counts
  = Ok (mk_CE_sim (sim_starting_conditions self) (Some (x :: l)) (Some (fold_left Rmin l x))
                  (Some (fold_left Rmax l x)) (Some (length (x :: l))) (sim_counter self)).
Proof.
  intros Hc E. unfold make_timebins. rewrite (make_timebins_run self ranges counts Hc).
  cbn [bind]. unfold np_concatenate.
  destruct (map (fun rn : R * R * Z =>
                   linspace_samples (fst (fst rn)) (snd (fst rn)) (Z.to_nat (snd rn)))
                (combine ranges counts)) as [|t0 ts] eqn:E0.
  - simpl in E. discriminate.
  - unfold bind. change (t0 ++ concat ts) with (concat (t0 :: ts)) in E. rewrite E. reflexivity.
Qed.

(** C6, as the code has it: when the counts are non-negative and at least
    one sample is requested, [make_timebins] stores the concatenation of the
    per-range [linspace] sequences with its minimum, maximum and length; the
    stored sequence is non-decreasing when the ranges are ascending (each
    runs forward and none starts before the previous one ends).  On
    [[(0,1),(1,5)]], [[3,5]] it stores the 8 samples 0, 1/2, 1, 1, 2, 3, 4, 5,
    with minimum 0 and maximum 5. *)
Theorem make_timebins_spec :
  (forall (self : CE_sim) (ranges : list (R * R)) (counts : list Z),
     let tsteps := map (fun rn => linspace_samples (fst (fst rn)) (snd (fst rn))
                                                   (Z.to_nat (snd rn)))
                       (combine ranges counts) in
     let times := concat tsteps in
     Forall (fun n => (0 <= n)%Z) counts ->
     times <> [] ->
     exists lo hi : R,
       make_timebins self ranges counts
       = Ok (mk_CE_sim (sim_starting_conditions self) (Some times) (Some lo) (Some hi)
                       (Some (length times)) (sim_counter self)) /\
       Forall2 (fun rn ts => linspace (fst (fst rn)) (snd (fst rn)) (snd rn) = Ok ts)
               (combine ranges counts) tsteps /\
       In lo times /\ Forall (fun x => lo <= x) times /\
       In hi times /\ Forall (fun x => x <= hi) times /\
       ((exists lo0, ascending lo0 ranges) -> Sorted Rle times)) /\
  (forall self : CE_sim,
     make_timebins self [(0, 1); (1, 5)] [3%Z; 5%Z]
     = Ok (mk_CE_sim (sim_starting_conditions self) (Some [0; 1 / 2; 1; 1; 2; 3; 4; 5])
                     (Some 0) (Some 5) (Some 8%nat) (sim_counter self)) /\
     Sorted Rle [0; 1 / 2; 1; 1; 2; 3; 4; 5]).
Proof.
  split.
  - intros self ranges counts tsteps times Hc Hne.
    pose proof (make_timebins_run self ranges counts Hc) as Hrun. fold tsteps in Hrun.
    assert (Hts : tsteps <> []).
    { intros E. apply Hne. unfold times. rewrite E. reflexivity. }
    destruct times as [|x l] eqn:Et; [congruence|].
    exists (fold_left Rmin l x), (fold_left Rmax l x).
    destruct (fold_left_Rmin_spec l x) as [Hmin1 Hmin2].
    destruct (fold_left_Rmax_spec l x) as [Hmax1 Hmax2].
    repeat split; try assumption.
    + apply make_timebins_Ok; assumption.
    + apply map_outcome_Forall2. exact Hrun.
    + intros [lo0 Hasc]. apply StronglySorted_Sorted.
      rewrite <- Et. unfold times, tsteps. rewrite combine_map_to_nat.
      apply (concat_linspace_sorted ranges (map Z.to_nat counts) lo0 Hasc).
  - intros self.
    assert (E : concat (map (fun rn : R * R * Z =>
                               linspace_samples (fst (fst rn)) (snd (fst rn)) (Z.to_nat (snd rn)))
                            (combine [(0, 1); (1, 5)] [3%Z; 5%Z]))
                = [0; 1 / 2; 1; 1; 2; 3; 4; 5]).
    { cbv [combine map concat app linspace_samples fst snd seq Z.to_nat Pos.to_nat
           Pos.iter_op Init.Nat.add INR].
      repeat (apply (f_equal2 (@cons R)); [try reflexivity; field|]). reflexivity. }
    split.
    + rewrite (make_timebins_Ok self [(0, 1); (1, 5)] [3%Z; 5%Z] 0 [1 / 2; 1; 1; 2; 3; 4; 5])
        by (try exact E; repeat constructor; lia).
      simpl. repeat f_equal.
      * unfold Rmin. repeat (destruct (Rle_dec _ _); try lra).
      * unfold Rmax. repeat (destruct (Rle_dec _ _); try lra).
    + repeat constructor; lra.
Qed.

Lemma make_timebins_spec_witness :
  exists lo hi : R,
    make_timebins example_sim [(0, 1)] [2%Z]
    = Ok (mk_CE_sim (sim_starting_conditions example_sim)
            (Some (concat (map (fun rn => linspace_samples (fst (fst rn)) (snd (fst rn))
                                                           (Z.to_nat (snd rn)))
                               (combine [(0, 1)] [2%Z]))))
            (Some lo) (Some hi)
            (Some (length (concat (map (fun rn => linspace_samples (fst (fst rn)) (snd (fst rn))
                                                                   (Z.to_nat (snd rn)))
                                       (combine [(0, 1)] [2%Z])))))
            (sim_counter example_sim)) /\
    ((exists lo0, ascending lo0 [(0, 1)]) ->
     Sorted Rle (concat (map (fun rn => linspace_samples (fst (fst rn)) (snd (fst rn))
                                                         (Z.to_nat (snd rn)))
                             (combine [(0, 1)] [2%Z])))).
Proof.
  destruct (proj1 make_timebins_spec example_sim [(0, 1)] [2%Z]) as [lo [hi H]].
  - repeat constructor. lia.
  - simpl. discriminate.
  - exists lo, hi. split; [apply H | apply H].
Defined.

(** C6 as stated fails: the sub-ranges are stored in the order given, so two
    overlapping windows, each running forward, give a sequence that steps
    back where the second one starts. *)
Lemma make_timebins_unsorted :
  exists sim' times,
    make_timebins example_sim [(0, 2); (1, 3)] [3%Z; 3%Z] = Ok sim' /\
    timebins sim' = Some times /\
    ~ Sorted Rle times.
Proof.
  eexists. eexists. split; [|split].
  - apply make_timebins_Ok; [repeat constructor; lia | reflexivity].
  - reflexivity.
  - intros Hs.
    inversion Hs as [|a0 l0 Hs1 _]; subst. inversion Hs1 as [|a1 l1 Hs2 _]; subst.
    inversion Hs2 as [|a2 l2 _ Hhd]; subst.
    inversion Hhd as [|b l' Hab]; subst. simpl in Hab. lra.
Qed.

(** ** The equations of motion *)

Lemma vec3_eq (a b : vec3) : vx a = vx b -> vy a = vy b -> vz a = vz b -> a = b.
Proof.
  destruct a as [[a1 a2] a3], b as [[b1 b2] b3]. unfold vx, vy, vz. simpl.
  intros; subst; reflexivity.
Qed.

Ltac vec_unfold :=
  cbv [vadd vsub vscale vmuls vdivs vzero vdot vx vy vz fst snd] in *.

Lemma vadd_assoc (a b c : vec3) : vadd (vadd a b) c = vadd a (vadd b c).
Proof. destruct a as [[? ?] ?], b as [[? ?] ?], c as [[? ?] ?]. vec_unfold. mat_ext; ring. Qed.

Lemma vadd_comm (a b : vec3) : vadd a b = vadd b a.
Proof. destruct a as [[? ?] ?], b as [[? ?] ?]. vec_unfold. mat_ext; ring. Qed.

Lemma vadd_zero_r (a : vec3) : vadd a vzero = a.
Proof. destruct a as [[? ?] ?]. vec_unfold. mat_ext; ring. Qed.

Lemma vadd_zero_l (a : vec3) : vadd vzero a = a.
Proof. destruct a as [[? ?] ?]. vec_unfold. mat_ext; ring. Qed.

Lemma vsum_app (l1 l2 : list vec3) : vsum (l1 ++ l2) = vadd (vsum l1) (vsum l2).
Proof.
  induction l1 as [|a l1 IH]; simpl.
  - symmetry. apply vadd_zero_l.
  - unfold vsum in *. simpl. rewrite IH. symmetry. apply vadd_assoc.
Qed.

Lemma CoulombForce_term (charges y : list R) (i j : nat) :
  CoulombForce (pos y i) (pos y j) (nth i charges 0) (nth j charges 0)
  = coulomb_term charges y i j.
Proof.
  unfold CoulombForce, coulomb_term.
  generalize (norm (vsub (pos y i) (pos y j))). intros d.
  destruct (vsub (pos y i) (pos y j)) as [[a b] c].
  vec_unfold. unfold Rdiv. mat_ext; ring.
Qed.

Lemma position_Ok (y : list R) (n : nat) :
  (3 * n + 2 < length y)%nat -> position y n = Ok (pos y n).
Proof.
  intros H. unfold position, pos.
  rewrite (get_nth y (3 * n) 0) by lia. cbn [bind].
  rewrite (get_nth y (3 * n + 1) 0) by lia. cbn [bind].
  rewrite (get_nth y (3 * n + 2) 0) by lia. reflexivity.
Qed.

Lemma others_snoc (k i : nat) :
  filter (fun j => negb (j =? i)%nat) (seq 0 (S k))
  = filter (fun j => negb (j =? i)%nat) (seq 0 k) ++ (if (k =? i)%nat then [] else [k]).
Proof.
  rewrite seq_S, filter_app. simpl. destruct (k =? i)%nat; reflexivity.
Qed.

Lemma total_force_Ok (charges y : list R) (N n : nat) :
  (6 * N <= length y)%nat -> length charges = N -> (n < N)%nat ->
  total_force charges y N n = Ok (vsum (map (coulomb_term charges y n) (others N n))).
Proof.
  intros Hy Hc Hn. unfold total_force, others.
  destruct (for_each_range_inv
              (fun k force =>
                 if negb (k =? n)%nat then
                   r1 <- position y n ;;
                   r2 <- position y k ;;
                   qn <- get charges n ;;
                   qk <- get charges k ;;
                   Ok (vadd force (CoulombForce r1 r2 qn qk))
                 else Ok force)
              (fun k force =>
                 force = vsum (map (coulomb_term charges y n)
                                   (filter (fun j => negb (j =? n)%nat) (seq 0 k))))
              N vzero) as [F [E HF]].
  - reflexivity.
  - intros k force Hk Hinv. rewrite others_snoc, map_app, vsum_app.
    destruct (k =? n)%nat eqn:Ekn; simpl negb; cbv iota.
    + exists force. split; [reflexivity|]. simpl. rewrite vadd_zero_r. exact Hinv.
    + rewrite (position_Ok y n) by lia. cbn [bind].
      rewrite (position_Ok y k) by lia. cbn [bind].
      rewrite (get_nth charges n 0) by lia. cbn [bind].
      rewrite (get_nth charges k 0) by lia. cbn [bind].
      eexists. split; [reflexivity|].
      rewrite CoulombForce_term, Hinv. simpl. rewrite vadd_zero_r. reflexivity.
  - rewrite E, HF. reflexivity.
Qed.

Ltac upd_lengths := rewrite ?length_upd; lia.

Lemma newton_Ok (charges masses y : list R) (N : nat) :
  length y = (6 * N)%nat -> length charges = N -> length masses = N ->
  exists dydt,
    newton charges masses y = Ok dydt /\
    length dydt = (6 * N)%nat /\
    forall i : nat, (i < N)%nat ->
      pos dydt i = vel y N i /\ vel dydt N i = acceleration charges masses y N i.
Proof.
  intros Hy Hc Hm. unfold newton.
  assert (HN : (length y / 6)%nat = N).
  { rewrite Hy, Nat.mul_comm. apply Nat.div_mul. lia. }
  rewrite HN.
  destruct (for_each_range_inv
              (fun n dydt =>
                 v0 <- get y (3 * N + 3 * n) ;;
                 dydt <- set_item dydt (3 * n) v0 ;;
                 v1 <- get y (3 * N + 3 * n + 1) ;;
                 dydt <- set_item dydt (3 * n + 1) v1 ;;
                 v2 <- get y (3 * N + 3 * n + 2) ;;
                 dydt <- set_item dydt (3 * n + 2) v2 ;;
                 force <- total_force charges y N n ;;
                 m <- get masses n ;;
                 let a := vdivs force m in
                 dydt <- set_item dydt (3 * N + 3 * n) (vx a) ;;
                 dydt <- set_item dydt (3 * N + 3 * n + 1) (vy a) ;;
                 set_item dydt (3 * N + 3 * n + 2) (vz a))
              (fun n dydt =>
                 length dydt = (6 * N)%nat /\
                 forall i : nat, (i < n)%nat ->
                   pos dydt i = vel y N i /\ vel dydt N i = acceleration charges masses y N i)
              N (repeat 0 (length y))) as [dydt [E [Hl Hd]]].
  - split; [rewrite repeat_length; exact Hy | intros i Hi; lia].
  - intros n dydt Hn [Hl Hprev].
    rewrite (get_nth y (3 * N + 3 * n) 0) by lia. cbn [bind].
    rewrite set_item_Ok by upd_lengths. cbn [bind].
    rewrite (get_nth y (3 * N + 3 * n + 1) 0) by lia. cbn [bind].
    rewrite set_item_Ok by upd_lengths. cbn [bind].
    rewrite (get_nth y (3 * N + 3 * n + 2) 0) by lia. cbn [bind].
    rewrite set_item_Ok by upd_lengths. cbn [bind].
    rewrite (total_force_Ok charges y N n) by lia. cbn [bind].
    rewrite (get_nth masses n 0) by lia. cbn [bind]. cbv zeta.
    rewrite set_item_Ok by upd_lengths. cbn [bind].
    rewrite set_item_Ok by upd_lengths. cbn [bind].
    rewrite set_item_Ok by upd_lengths.
    eexists. split; [reflexivity|]. split; [upd_lengths|].
    intros i Hi.
    destruct (Nat.eq_dec i n) as [->|Hne].
    + unfold pos, vel, acceleration. split; apply vec3_eq; unfold vx, vy, vz; simpl fst; simpl snd;
        repeat (rewrite nth_upd_neq by lia); rewrite nth_upd_eq by upd_lengths; reflexivity.
    + destruct (Hprev i) as [H1 H2]; [lia|]. rewrite <- H1, <- H2.
      unfold pos, vel. split; apply vec3_eq; unfold vx, vy, vz; simpl fst; simpl snd;
        repeat (rewrite nth_upd_neq by lia); reflexivity.
  - exists dydt. auto.
Qed.

Lemma others_spec (N i j : nat) : In j (others N i) <-> (j < N)%nat /\ j <> i.
Proof.
  unfold others. rewrite filter_In, in_seq, negb_true_iff, Nat.eqb_neq. lia.
Qed.

(** C3: for a state of length [6 N] with pairwise distinct positions, the
    derivative has length [6 N], its first half is the velocity half of the
    state, and the acceleration of atom [i] is the sum over the atoms
    [j <> i] of [k q_i q_j (r_i - r_j) / |r_i - r_j|^3], divided by [m_i]. *)
Theorem NewtonEquations_spec (self : CE_sim) (t : R) (y : list R) (N : nat)
        (all_charges all_masses : list (list R)) (counter : nat) (charges masses : list R) :
  samp_charges_list (sim_starting_conditions self) = Some all_charges ->
  samp_masses_list (sim_starting_conditions self) = Some all_masses ->
  sim_counter self = Some counter ->
  nth_error all_charges counter = Some charges ->
  nth_error all_masses counter = Some masses ->
  length charges = N -> length masses = N ->
  length y = (6 * N)%nat ->
  distinct_positions y N ->
  exists dydt : list R,
    NewtonEquations self t y = Ok dydt /\
    length dydt = (6 * N)%nat /\
    (forall idx : nat, (idx < 3 * N)%nat -> nth idx dydt 0 = nth (3 * N + idx) y 0) /\
    (forall i : nat, (i < N)%nat ->
       vel dydt N i
       = vdivs (vsum (map (fun j =>
                             vscale (k * nth i charges 0 * nth j charges 0
                                     / norm (vsub (pos y i) (pos y j)) ^ 3)
                                    (vsub (pos y i) (pos y j)))
                          (others N i)))
               (nth i masses 0)) /\
    (forall i j : nat, In j (others N i) <-> (j < N)%nat /\ j <> i).
Proof.
  intros Hc Hm Hs Hci Hmi Hlc Hlm Hy _.
  destruct (newton_Ok charges masses y N Hy Hlc Hlm) as [dydt [E [Hl Hd]]].
  exists dydt. split; [|split; [exact Hl | split; [|split]]].
  - unfold NewtonEquations. rewrite Hc, Hm, Hs. cbn [attr bind].
    unfold get. rewrite Hci, Hmi. cbn [bind]. exact E.
  - intros idx Hidx.
    pose proof (Nat.div_mod_eq idx 3) as Hq.
    pose proof (Nat.mod_upper_bound idx 3 ltac:(lia)) as Hr.
    remember (idx / 3)%nat as q eqn:Eq. remember (idx mod 3)%nat as r eqn:Er.
    destruct (Hd q) as [H _]; [lia|].
    pose proof (f_equal vx H) as H0. pose proof (f_equal vy H) as H1.
    pose proof (f_equal vz H) as H2.
    cbv [pos vel vx vy vz fst snd] in H0, H1, H2.
    destruct r as [|[|[|r]]]; try lia.
    + replace idx with (3 * q)%nat by lia. rewrite H0. f_equal.
    + replace idx with (3 * q + 1)%nat by lia. rewrite H1. f_equal. lia.
    + replace idx with (3 * q + 2)%nat by lia. rewrite H2. f_equal. lia.
  - intros i Hi. destruct (Hd i Hi) as [_ H]. exact H.
  - intros i j. apply others_spec.
Qed.

Lemma two_body_distinct (d : R) : d <> 0 -> distinct_positions (two_body_start d) 2.
Proof.
  intros Hd i j Hi Hj Hij E.
  destruct i as [|[|i]], j as [|[|j]]; try lia;
    unfold pos, two_body_start in E; simpl in E; injection E as E; lra.
Qed.

Lemma NewtonEquations_spec_witness :
  exists dydt : list R,
    NewtonEquations two_body_sim 0 (two_body_start 1) = Ok dydt /\
    length dydt = (6 * 2)%nat /\
    (forall idx : nat, (idx < 3 * 2)%nat ->
       nth idx dydt 0 = nth (3 * 2 + idx) (two_body_start 1) 0) /\
    (forall i : nat, (i < 2)%nat ->
       vel dydt 2 i
       = vdivs (vsum (map (fun j =>
                             vscale (k * nth i [e; e] 0 * nth j [e; e] 0
                                     / norm (vsub (pos (two_body_start 1) i)
                                                  (pos (two_body_start 1) j)) ^ 3)
                                    (vsub (pos (two_body_start 1) i) (pos (two_body_start 1) j)))
                          (others 2 i)))
               (nth i [u; u] 0)) /\
    (forall i j : nat, In j (others 2 i) <-> (j < 2)%nat /\ j <> i).
Proof.
  apply (NewtonEquations_spec two_body_sim 0 (two_body_start 1) 2 [[e; e]] [[u; u]] 0%nat
                              [e; e] [u; u]); try reflexivity.
  apply two_body_distinct. lra.
Defined.

(** ** Momentum *)

Lemma norm_vsub_sym (a b : vec3) : norm (vsub a b) = norm (vsub b a).
Proof.
  destruct a as [[a1 a2] a3], b as [[b1 b2] b3]. unfold norm. vec_unfold. f_equal. ring.
Qed.

Lemma coulomb_term_antisym (charges y : list R) (i j : nat) :
  vadd (coulomb_term charges y i j) (coulomb_term charges y j i) = vzero.
Proof.
  unfold coulomb_term. rewrite (norm_vsub_sym (pos y j) (pos y i)).
  generalize (norm (vsub (pos y i) (pos y j))). intros d.
  destruct (pos y i) as [[a1 a2] a3], (pos y j) as [[b1 b2] b3].
  vec_unfold. unfold Rdiv. mat_ext; ring.
Qed.

Lemma vsum_map_vadd {A : Type} (g h : A -> vec3) (l : list A) :
  vsum (map (fun i => vadd (g i) (h i)) l) = vadd (vsum (map g l)) (vsum (map h l)).
Proof.
  induction l as [|a l IH]; simpl.
  - symmetry. apply vadd_zero_l.
  - unfold vsum in *. simpl. rewrite IH.
    destruct (g a) as [[? ?] ?], (h a) as [[? ?] ?].
    destruct (fold_right vadd vzero (map g l)) as [[? ?] ?].
    destruct (fold_right vadd vzero (map h l)) as [[? ?] ?].
    vec_unfold. mat_ext; ring.
Qed.

Lemma vsum_map_zero {A : Type} (g : A -> vec3) (l : list A) :
  (forall a, In a l -> g a = vzero) -> vsum (map g l) = vzero.
Proof.
  induction l as [|a l IH]; simpl; intros H; [reflexivity|].
  unfold vsum in *. simpl. rewrite H by (left; reflexivity). rewrite IH.
  - apply vadd_zero_l.
  - intros b Hb. apply H. right. exact Hb.
Qed.

Lemma vsum_map_ext {A : Type} (g h : A -> vec3) (l : list A) :
  (forall a, In a l -> g a = h a) -> vsum (map g l) = vsum (map h l).
Proof.
  intros H. f_equal. apply map_ext_in. exact H.
Qed.

Lemma others_self (N : nat) : others N N = seq 0 N.
Proof.
  unfold others. apply forallb_filter_id. apply forallb_forall.
  intros j Hj. apply in_seq in Hj. apply negb_true_iff, Nat.eqb_neq. lia.
Qed.

(** Pairwise opposite terms cancel in the double sum over [i] and [j <> i]. *)
Lemma antisymmetric_double_sum (f : nat -> nat -> vec3) :
  (forall i j, vadd (f i j) (f j i) = vzero) ->
  forall N, vsum (map (fun i => vsum (map (f i) (others N i))) (seq 0 N)) = vzero.
Proof.
  intros Hf. induction N as [|N IH]; [reflexivity|].
  rewrite seq_S, map_app, vsum_app. simpl map.
  rewrite (vsum_map_ext _ (fun i => vadd (vsum (map (f i) (others N i))) (f i N))).
  - rewrite vsum_map_vadd, IH, vadd_zero_l.
    unfold others at 1. rewrite others_snoc, Nat.eqb_refl, app_nil_r.
    fold (others N N). rewrite others_self.
    replace (vsum [vsum (map (f N) (seq 0 N))]) with (vsum (map (f N) (seq 0 N)))
      by (unfold vsum; simpl; symmetry; apply vadd_zero_r).
    rewrite <- vsum_map_vadd. apply vsum_map_zero. intros i _. apply Hf.
  - intros i Hi. apply in_seq in Hi. unfold others. rewrite others_snoc.
    assert (E : (N =? i)%nat = false) by (apply Nat.eqb_neq; lia). rewrite E.
    rewrite map_app, vsum_app. f_equal. unfold vsum. simpl. apply vadd_zero_r.
Qed.

Lemma momentum_of_derivative (charges masses y dydt : list R) (N : nat) :
  Forall (fun m => m <> 0) masses -> length masses = N ->
  (forall i : nat, (i < N)%nat -> vel dydt N i = acceleration charges masses y N i) ->
  momentum masses dydt N = vzero.
Proof.
  intros Hm Hl Hd. unfold momentum.
  rewrite (vsum_map_ext _ (fun i => vsum (map (coulomb_term charges y i) (others N i)))).
  - apply antisymmetric_double_sum. intros i j. apply coulomb_term_antisym.
  - intros i Hi. apply in_seq in Hi. rewrite Hd by lia. unfold acceleration.
    assert (Hmi : nth i masses 0 <> 0).
    { rewrite Forall_forall in Hm. apply Hm. apply nth_In. lia. }
    destruct (vsum (map (coulomb_term charges y i) (others N i))) as [[a b] c].
    vec_unfold. mat_ext; field; exact Hmi.
Qed.

Lemma nth_ladd (a b : list R) (i : nat) :
  length a = length b -> (i < length a)%nat ->
  nth i (ladd a b) 0 = nth i a 0 + nth i b 0.
Proof.
  revert b i. induction a as [|x a IH]; intros [|z b] [|i] Hl Hi; simpl in *;
    try lia; try reflexivity.
  apply IH; lia.
Qed.

Lemma length_ladd (a b : list R) : length a = length b -> length (ladd a b) = length a.
Proof.
  intros H. unfold ladd. rewrite length_map, length_combine. lia.
Qed.

Lemma nth_lscale (c : R) (a : list R) (i : nat) : nth i (lscale c a) 0 = c * nth i a 0.
Proof.
  unfold lscale. rewrite <- (Rmult_0_r c) at 1. apply map_nth.
Qed.

Lemma momentum_ladd (masses a b : list R) (N : nat) :
  length a = (6 * N)%nat -> length b = (6 * N)%nat ->
  momentum masses (ladd a b) N = vadd (momentum masses a N) (momentum masses b N).
Proof.
  intros Ha Hb. unfold momentum. rewrite <- vsum_map_vadd. apply vsum_map_ext.
  intros i Hi. apply in_seq in Hi. unfold vel.
  rewrite !nth_ladd by lia. vec_unfold. mat_ext; ring.
Qed.

Lemma momentum_lscale (masses a : list R) (N : nat) (c : R) :
  momentum masses (lscale c a) N = vscale c (momentum masses a N).
Proof.
  unfold momentum. induction (seq 0 N) as [|i l IH]; simpl.
  - vec_unfold. mat_ext; ring.
  - unfold vsum in *. simpl. rewrite IH. unfold vel. rewrite !nth_lscale.
    destruct (fold_right vadd vzero
                (map (fun i0 => vscale (nth i0 masses 0) (vel a N i0)) l)) as [[? ?] ?].
    vec_unfold. mat_ext; ring.
Qed.

Lemma momentum_zeros (masses : list R) (N n : nat) : momentum masses (repeat 0 n) N = vzero.
Proof.
  unfold momentum. apply vsum_map_zero. intros i _. unfold vel.
  assert (H : forall j, nth j (repeat 0 n) 0 = 0).
  { intros j. destruct (Nat.lt_ge_cases j n) as [Hj|Hj].
    - apply nth_repeat_lt. exact Hj.
    - apply nth_overflow. rewrite repeat_length. exact Hj. }
  rewrite !H. vec_unfold. mat_ext; ring.
Qed.

Section Conservation.
Variables (charges masses : list R) (N : nat).
Hypothesis masses_nonzero : Forall (fun m => m <> 0) masses.
Hypothesis masses_length : length masses = N.
Hypothesis charges_length : length charges = N.

Lemma rk_increment_momentum (inc : list R) :
  rk_increment charges masses N inc ->
  length inc = (6 * N)%nat /\ momentum masses inc N = vzero.
Proof.
  intros H. induction H as [|c w d inc Hw Hdist Hd Hinc [IHl IHm]].
  - split; [apply repeat_length | apply momentum_zeros].
  - destruct (newton_Ok charges masses w N Hw charges_length masses_length)
      as [d' [E [Hl Hacc]]].
    rewrite Hd in E. injection E as <-.
    assert (Hls : length (lscale c d) = (6 * N)%nat)
      by (unfold lscale; rewrite length_map; exact Hl).
    split.
    + rewrite length_ladd; lia.
    + rewrite momentum_ladd by lia. rewrite momentum_lscale, IHm.
      rewrite (momentum_of_derivative charges masses w d N masses_nonzero masses_length).
      * vec_unfold. mat_ext; ring.
      * intros i Hi. apply Hacc. exact Hi.
Qed.

Lemma rk_step_momentum (y y' : list R) :
  rk_step charges masses N y y' ->
  length y' = (6 * N)%nat /\ momentum masses y' N = momentum masses y N.
Proof.
  intros [Hy [inc [Hinc ->]]].
  destruct (rk_increment_momentum inc Hinc) as [Hl Hz].
  split.
  - rewrite length_ladd; lia.
  - rewrite momentum_ladd by lia. rewrite Hz. apply vadd_zero_r.
Qed.

Lemma reaches_momentum (y y' : list R) :
  reaches charges masses N y y' -> momentum masses y' N = momentum masses y N.
Proof.
  intros H. induction H as [|y1 y2 H IH Hstep]; [reflexivity|].
  destruct (rk_step_momentum y1 y2 Hstep) as [_ E].
  rewrite E. exact IH.
Qed.

End Conservation.

(** C5: the accelerations returned for any state with distinct positions
    satisfy [sum_i m_i a_i = 0]; hence total momentum is the same in every
    state reached by the integrator's steps; and two equal charges of equal
    mass released at rest at [+d/2] and [-d/2] on one axis always have equal
    and opposite velocities and zero total momentum. *)
Theorem momentum_conserved :
  (forall (charges masses y : list R) (N : nat),
     length y = (6 * N)%nat -> length charges = N -> length masses = N ->
     Forall (fun m => m <> 0) masses ->
     distinct_positions y N ->
     exists dydt : list R,
       newton charges masses y = Ok dydt /\ momentum masses dydt N = vzero) /\
  (forall (charges masses y y' : list R) (N : nat),
     length charges = N -> length masses = N ->
     Forall (fun m => m <> 0) masses ->
     reaches charges masses N y y' ->
     momentum masses y' N = momentum masses y N) /\
  (forall (d q m : R) (y' : list R),
     d <> 0 -> m <> 0 ->
     reaches [q; q] [m; m] 2 (two_body_start d) y' ->
     vel y' 2 0 = vscale (-1) (vel y' 2 1) /\ momentum [m; m] y' 2 = vzero).
Proof.
  split; [|split].
  - intros charges masses y N Hy Hlc Hlm Hm _.
    destruct (newton_Ok charges masses y N Hy Hlc Hlm) as [dydt [E [Hl Hacc]]].
    exists dydt. split; [exact E|].
    apply (momentum_of_derivative charges masses y dydt N Hm Hlm).
    intros i Hi. apply Hacc. exact Hi.
  - intros charges masses y y' N Hlc Hlm Hm H.
    apply (reaches_momentum charges masses N Hm Hlm Hlc y y'). exact H.
  - intros d q m y' _ Hm H.
    assert (Hmom : momentum [m; m] y' 2 = vzero).
    { rewrite (reaches_momentum [q; q] [m; m] 2 ltac:(repeat constructor; assumption)
                                eq_refl eq_refl (two_body_start d) y' H).
      unfold momentum, two_body_start, vel, vsum. simpl. vec_unfold. mat_ext; ring. }
    split; [|exact Hmom].
    unfold momentum, vsum in Hmom. simpl in Hmom.
    destruct (vel y' 2 0) as [[a1 a2] a3], (vel y' 2 1) as [[b1 b2] b3].
    vec_unfold. injection Hmom as H1 H2 H3.
    mat_ext; apply (Rmult_eq_reg_l m); try assumption; lra.
Qed.

(** An explicit Euler step of size [h] from the two-body start is a step of
    the relation. *)
Lemma euler_step_reaches (h : R) :
  exists d : list R,
    newton [e; e] [u; u] (two_body_start 1) = Ok d /\
    reaches [e; e] [u; u] 2 (two_body_start 1)
            (ladd (two_body_start 1) (ladd (lscale h d) (repeat 0 (6 * 2)))).
Proof.
  destruct (newton_Ok [e; e] [u; u] (two_body_start 1) 2) as [d [E _]]; try reflexivity.
  exists d. split; [exact E|].
  eapply reaches_step; [apply reaches_start|].
  split; [reflexivity|]. eexists. split; [|reflexivity].
  apply (rk_stage [e; e] [u; u] 2 h (two_body_start 1) d);
    [reflexivity | apply two_body_distinct; lra | exact E | apply rk_none].
Qed.

Lemma momentum_conserved_witness :
  (exists dydt : list R,
     newton [e; e] [u; u] (two_body_start 1) = Ok dydt /\ momentum [u; u] dydt 2 = vzero) /\
  (exists d : list R,
     newton [e; e] [u; u] (two_body_start 1) = Ok d /\
     let y' := ladd (two_body_start 1) (ladd (lscale 1 d) (repeat 0 (6 * 2))) in
     vel y' 2 0 = vscale (-1) (vel y' 2 1) /\ momentum [u; u] y' 2 = vzero).
Proof.
  assert (Hu : u <> 0) by (unfold u; lra).
  split.
  - apply (proj1 momentum_conserved [e; e] [u; u] (two_body_start 1) 2%nat); try reflexivity.
    + repeat constructor; exact Hu.
    + apply two_body_distinct. lra.
  - destruct (euler_step_reaches 1) as [d [E Hr]]. exists d. split; [exact E|].
    apply (proj2 (proj2 momentum_conserved) 1 e u _); [lra | exact Hu | exact Hr].
Defined.

(** ** Validation of the normal modes *)

Lemma n_atoms_unbound : global_name "n_atoms" = Raise (NameError "n_atoms").
Proof. reflexivity. Qed.

Lemma mode_dot_raises (mode1 mode2 : list vec3) :
  mode_dot mode1 mode2 = Raise (NameError "n_atoms").
Proof. unfold mode_dot. rewrite n_atoms_unbound. reflexivity. Qed.

Lemma dot_matrix_raises (nmodes2 : list (list vec3)) :
  nmodes2 <> [] ->
  map_outcome (fun mode1 => map_outcome (fun mode2 => mode_dot mode1 mode2) nmodes2) nmodes2
  = Raise (NameError "n_atoms").
Proof.
  intros H. destruct nmodes2 as [|m l]; [congruence|].
  cbn [map_outcome]. rewrite mode_dot_raises. reflexivity.
Qed.

Lemma map_outcome_nonempty {A B : Type} (f : A -> outcome B) (l : list A) (bs : list B) :
  map_outcome f l = Ok bs -> l <> [] -> bs <> [].
Proof.
  intros H Hl E. apply map_outcome_Ok_length in H. subst bs. destruct l; simpl in H; congruence.
Qed.

Lemma check_normal_modes_never_returns (self : geometry) (threshold : R) (make_fig : bool)
      (r : geometry * mode_report) :
  check_normal_modes self threshold make_fig <> Ok r.
Proof.
  unfold check_normal_modes. destruct (nmodes self) as [modes|]; cbn [attr bind]; [|discriminate].
  destruct (map_outcome _ modes) as [normed| |] eqn:E; cbn [bind]; try discriminate.
  destruct modes as [|m modes].
  - simpl in E. injection E as <-. simpl. destruct make_fig; simpl; discriminate.
  - assert (Hn : map snd normed <> []).
    { apply map_outcome_nonempty in E; [|discriminate].
      destruct normed; [congruence | simpl; discriminate]. }
    rewrite (dot_matrix_raises _ Hn). simpl. discriminate.
Qed.

Lemma mode_norm_Ok (self : geometry) (mode : list vec3) :
  (natoms self <= length mode)%nat -> (natoms self <= length (atom_masses self))%nat ->
  exists x, mode_norm self mode = Ok x.
Proof.
  intros H1 H2. unfold mode_norm.
  destruct (for_each_range_inv
              (fun i norm =>
                 row <- get mode i ;;
                 m <- get (atom_masses self) i ;;
                 Ok (norm + vx row ^ 2 * m + vy row ^ 2 * m + vz row ^ 2 * m))
              (fun _ _ => True) (natoms self) 0) as [s [E _]]; [exact I | |].
  - intros n s Hn _. rewrite (get_nth mode n vzero) by lia. cbn [bind].
    rewrite (get_nth (atom_masses self) n 0) by lia. cbn [bind]. eauto.
  - rewrite E. cbn [bind]. eauto.
Qed.

Lemma reweight_mode_Ok (self : geometry) (mode : list vec3) (x : R) :
  (natoms self <= length mode)%nat -> (natoms self <= length (atom_masses self))%nat ->
  exists mode_new, reweight_mode self mode x = Ok mode_new.
Proof.
  intros H1 H2. unfold reweight_mode.
  destruct (for_each_range_inv
              (fun i mode_new =>
                 row <- get mode i ;;
                 m <- get (atom_masses self) i ;;
                 set_item mode_new i (vdivs (vmuls row (sqrt m)) x))
              (fun _ mode_new => length mode_new = length mode) (natoms self)
              (repeat vzero (length mode))) as [s [E _]].
  - apply repeat_length.
  - intros n s Hn Hl. rewrite (get_nth mode n vzero) by lia. cbn [bind].
    rewrite (get_nth (atom_masses self) n 0) by lia. cbn [bind].
    rewrite set_item_Ok by lia. eexists. split; [reflexivity|]. rewrite length_upd. exact Hl.
  - eauto.
Qed.

Lemma map_outcome_total {A B : Type} (f : A -> outcome B) (l : list A) :
  Forall (fun a => exists b, f a = Ok b) l -> exists bs, map_outcome f l = Ok bs.
Proof.
  induction 1 as [|a l [b Hb] _ [bs IH]]; simpl.
  - eauto.
  - rewrite Hb, IH. simpl. eauto.
Qed.

Lemma check_normal_modes_NameError (self : geometry) (threshold : R) (make_fig : bool)
      (modes : list (list vec3)) :
  nmodes self = Some modes -> modes <> [] ->
  Forall (fun mode => natoms self <= length mode)%nat modes ->
  (natoms self <= length (atom_masses self))%nat ->
  check_normal_modes self threshold make_fig = Raise (NameError "n_atoms").
Proof.
  intros Hm Hne Hshape Hmass.
  unfold check_normal_modes. rewrite Hm. cbn [attr bind].
  destruct (map_outcome_total
              (fun mode => norm <- mode_norm self mode ;;
                           mode_new <- reweight_mode self mode norm ;;
                           Ok (norm, mode_new)) modes) as [normed E].
  { eapply Forall_impl; [|exact Hshape]. cbv beta. intros mode Hl.
    destruct (mode_norm_Ok self mode Hl Hmass) as [x Ex]. rewrite Ex. cbn [bind].
    destruct (reweight_mode_Ok self mode x Hl Hmass) as [mn En]. rewrite En. cbn [bind].
    eauto. }
  rewrite E. cbn [bind].
  rewrite dot_matrix_raises; [reflexivity|].
  apply map_outcome_nonempty in E; [|exact Hne].
  destruct normed; [congruence | simpl; discriminate].
Qed.

(** C1 fails on the code: the loop that fills the dot-product matrix reads
    the name [n_atoms], which is bound nowhere.  A call on well-shaped,
    non-empty modes raises [NameError]; no call returns, so the re-weighted
    modes are never stored, and constructing a geometry with modes fails. *)
Theorem check_normal_modes_raises :
  (forall (self : geometry) (threshold : R) (make_fig : bool) (modes : list (list vec3)),
     nmodes self = Some modes -> modes <> [] ->
     Forall (fun mode => natoms self <= length mode)%nat modes ->
     (natoms self <= length (atom_masses self))%nat ->
     check_normal_modes self threshold make_fig = Raise (NameError "n_atoms")) /\
  (forall (self : geometry) (threshold : R) (make_fig : bool) (r : geometry * mode_report),
     check_normal_modes self threshold make_fig <> Ok r) /\
  (forall (coords : list vec3) (masses : list R) (modes : list (list vec3)) (freqs : list R)
          (g : geometry),
     modes_any modes = true -> geometry_init coords masses modes freqs <> Ok g) /\
  geometry_init [(0, 0, 0)] [1] [[(1, 0, 0)]] [] = Raise (NameError "n_atoms").
Proof.
  split; [|split; [|split]].
  - apply check_normal_modes_NameError.
  - apply check_normal_modes_never_returns.
  - intros coords masses modes freqs g Hany. unfold geometry_init. rewrite Hany.
    destruct (check_normal_modes _ 0.05 true) as [[g' rep]| |] eqn:E; cbn [bind];
      try discriminate.
    exfalso. exact (check_normal_modes_never_returns _ _ _ _ E).
  - unfold geometry_init.
    assert (Hany : modes_any [[(1, 0, 0)]] = true).
    { unfold modes_any, vany, nonzero, vx. simpl.
      destruct (Req_dec_T 1 0); [lra | reflexivity]. }
    rewrite Hany. cbv zeta.
    rewrite (check_normal_modes_NameError _ 0.05 true [[(1, 0, 0)]]).
    + reflexivity.
    + reflexivity.
    + discriminate.
    + repeat constructor.
    + simpl. lia.
Qed.

Lemma check_normal_modes_raises_witness :
  check_normal_modes (mk_geometry [(0, 0, 0)] [1] 1 (Some [[(1, 0, 0)]]) None None None None)
                     0.05 true
  = Raise (NameError "n_atoms").
Proof.
  apply (proj1 check_normal_modes_raises _ 0.05 true [[(1, 0, 0)]]).
  - reflexivity.
  - discriminate.
  - repeat constructor.
  - simpl. lia.
Defined.

(** ** The pool of starting conditions *)

Lemma ret_Ok {A : Type} (a : A) (tape : list R) (r : A * list R) :
  ret a tape = Ok r -> r = (a, tape).
Proof. unfold ret. intros H. injection H as <-. reflexivity. Qed.

Lemma for_each_seq_Ok_inv {S : Type} (body : nat -> S -> outcome S) (Inv : nat -> S -> Prop) :
  forall len start s s',
    Inv start s ->
    (forall n s s', (start <= n < start + len)%nat -> Inv n s -> body n s = Ok s' ->
                    Inv (Datatypes.S n) s') ->
    for_each (seq start len) body s = Ok s' -> Inv (start + len)%nat s'.
Proof.
  induction len as [|len IH]; intros start s s' H0 Hstep E; simpl in E.
  - injection E as <-. rewrite Nat.add_0_r. exact H0.
  - apply bind_Ok in E. destruct E as [s1 [E1 E]].
    replace (start + Datatypes.S len)%nat with (Datatypes.S start + len)%nat by lia.
    apply (IH (Datatypes.S start) s1 s'); [|intros n s2 s3 Hn; apply Hstep; lia | exact E].
    apply (Hstep start s s1); [lia | exact H0 | exact E1].
Qed.

Lemma for_eachM_Ok_inv {A S : Type} (body : A -> S -> M S) (Inv : nat -> S -> Prop) :
  (forall a k s tape s' tape',
      Inv k s -> body a s tape = Ok (s', tape') -> Inv (Datatypes.S k) s') ->
  forall l k s tape s' tape',
    Inv k s -> for_eachM l body s tape = Ok (s', tape') -> Inv (k + length l)%nat s'.
Proof.
  intros Hstep. induction l as [|a l IH]; intros k s tape s' tape' H0 E; simpl in E.
  - apply ret_Ok in E. injection E as <- <-. simpl. rewrite Nat.add_0_r. exact H0.
  - apply bindM_Ok in E. destruct E as [s1 [tape1 [E1 E]]].
    simpl. replace (k + Datatypes.S (length l))%nat with (Datatypes.S k + length l)%nat by lia.
    apply (IH (Datatypes.S k) s1 tape1 s' tape'); [|exact E].
    apply (Hstep a k s tape s1 tape1); assumption.
Qed.

Lemma nth_repeat_zero (n i : nat) : nth i (repeat 0 n) 0 = 0.
Proof.
  destruct (Nat.lt_ge_cases i n) as [Hi|Hi].
  - apply nth_repeat_lt. exact Hi.
  - apply nth_overflow. rewrite repeat_length. exact Hi.
Qed.

Lemma fill_y0_shape (g : geometry) (r_list_rot : list vec3) (y0 : list R) :
  fill_y0 g r_list_rot = Ok y0 -> y0_shape (natoms g) r_list_rot y0.
Proof.
  intros E. unfold fill_y0, range in E.
  apply (for_each_seq_Ok_inv _
           (fun n y0 =>
              length y0 = (6 * natoms g)%nat /\
              (forall j : nat, (j < n)%nat ->
                 exists r, nth_error r_list_rot j = Some r /\ pos y0 j = r) /\
              (forall i : nat, (3 * n <= i)%nat -> nth i y0 0 = 0))) in E.
  - exact E.
  - split; [rewrite repeat_length; lia|]. split; [intros j Hj; lia|].
    intros i _. apply nth_repeat_zero.
  - clear E y0. intros n y0 y0' Hn [Hl [Hprev Hzero]] E.
    apply bind_Ok in E. destruct E as [r [Er E]]. apply get_Ok in Er.
    apply bind_Ok in E. destruct E as [y1 [E1 E]]. apply set_item_inv in E1.
    destruct E1 as [L1 ->].
    apply bind_Ok in E. destruct E as [y2 [E2 E]]. apply set_item_inv in E2.
    destruct E2 as [L2 ->].
    apply set_item_inv in E. destruct E as [L3 ->].
    split; [upd_lengths|]. split.
    + intros j Hj. destruct (Nat.eq_dec j n) as [->|Hne].
      * exists r. split; [exact Er|]. unfold pos. apply vec3_eq; unfold vx, vy, vz;
          simpl fst; simpl snd; repeat (rewrite nth_upd_neq by lia);
          rewrite nth_upd_eq by upd_lengths; reflexivity.
      * destruct (Hprev j) as [r' [Hr' Hp]]; [lia|]. exists r'. split; [exact Hr'|].
        rewrite <- Hp. unfold pos. apply vec3_eq; unfold vx, vy, vz; simpl fst; simpl snd;
          repeat (rewrite nth_upd_neq by lia); reflexivity.
    + intros i Hi. repeat (rewrite nth_upd_neq by lia). apply Hzero. lia.
Qed.

Lemma random_choice_In {A : Type} (a : list A) (p : list R) (tape : list R) (x : A)
      (tape' : list R) :
  random_choice a p tape = Ok (x, tape') -> In x a.
Proof.
  unfold random_choice. destruct a as [|a0 a]; [discriminate|].
  destruct (negb _); [discriminate|].
  destruct (existsb _ p); [discriminate|].
  destruct (Rltb _ _); [discriminate|].
  intros E. apply bindM_Ok in E. destruct E as [y [tape1 [_ E]]].
  apply lift_Ok in E. destruct E as [E _]. simpl in E.
  apply get_Ok in E. eapply nth_error_In. exact E.
Qed.

Lemma charges_and_masses_shape (self : starting_conditions) (g : geometry) (tape : list R)
      (charges masses : list R) (tape' : list R) :
  charges_and_masses self g tape = Ok (charges, masses, tape') ->
  charges_shape self (natoms g) charges /\ masses = map (fun m => m * u) (atom_masses g).
Proof.
  unfold charges_and_masses, charges_shape. destruct (multi_channel self).
  - intros E. apply bindM_Ok in E. destruct E as [chans [t1 [E1 E]]].
    apply lift_Ok in E1. destruct E1 as [E1 _]. simpl in E1.
    apply bindM_Ok in E. destruct E as [ps [t2 [E2 E]]].
    apply bindM_Ok in E. destruct E as [ch [t3 [E3 E]]].
    apply ret_Ok in E. injection E as -> -> ->.
    apply random_choice_In in E3. split; [|reflexivity].
    exists chans, ch. split; [|split; [exact E3 | reflexivity]].
    destruct (channel_list self); simpl in E1; [injection E1 as ->; reflexivity | discriminate].
  - intros E. apply ret_Ok in E. injection E as -> -> ->. split; [|reflexivity].
    rewrite map_repeat. reflexivity.
Qed.

Lemma trajectory_shape (self : starting_conditions) (g : geometry) (meth : string)
      (rotate : bool) (sig : option sigma_t) (sample_max temp : R)
      (table : option (list (list R))) (levels : option (list Z))
      (n : nat) (acc : pool) (tape : list R) (acc' : pool) (tape' : list R) :
  pool_shape self g n acc ->
  trajectory self g meth rotate sig sample_max temp table levels acc tape = Ok (acc', tape') ->
  pool_shape self g (S n) acc'.
Proof.
  intros [H1 [H2 [H3 [H4 [H5 H6]]]]] E. unfold trajectory in E.
  apply bindM_Ok in E. destruct E as [[charges masses] [t1 [Ecm E]]].
  apply charges_and_masses_shape in Ecm. destruct Ecm as [Hc Hm].
  apply bindM_Ok in E. destruct E as [[[r_list ns] qs] [t2 [_ E]]].
  apply bindM_Ok in E. destruct E as [r_list_rot [t3 [_ E]]].
  apply bindM_Ok in E. destruct E as [y0 [t4 [Ey E]]].
  apply lift_Ok in Ey. destruct Ey as [Ey _]. simpl in Ey. apply fill_y0_shape in Ey.
  apply ret_Ok in E. injection E as -> ->. unfold pool_shape. simpl.
  rewrite !length_app. simpl. repeat split; try lia.
  - apply Forall_app. split; [exact H4|]. constructor; [|constructor]. eauto.
  - apply Forall_app. split; [exact H5|]. constructor; [exact Hc | constructor].
  - apply Forall_app. split; [exact H6|]. constructor; [exact Hm | constructor].
Qed.

Lemma com_geometry_Ok (g : geometry) :
  exists c,
    com_geometry g
    = Ok (mk_geometry (atom_coords g) (atom_masses g) (natoms g) (nmodes g)
                      (nmodes_weighted g) (omegas g) (Some c)
                      (Some (map (fun r => vsub r c) (atom_coords g)))).
Proof.
  unfold com_geometry, find_com.
  destruct (fold_left _ _ _) as [mass_product mass_sum]. simpl. eauto.
Qed.

(** What [generate_pool] leaves in the sampler whenever it returns. *)
Lemma generate_pool_shape (self : starting_conditions) (n : nat) (meth : string)
      (rotate : bool) (sig : sigma_t) (sample_max temp : R) (n_max : nat)
      (tape : list R) (self' : starting_conditions) (tape' : list R) :
  generate_pool self n meth rotate sig sample_max temp n_max tape = Ok (self', tape') ->
  exists y0s cs ms,
    samp_y0_list self' = Some y0s /\ samp_charges_list self' = Some cs /\
    samp_masses_list self' = Some ms /\ samp_channel_list self' = Some [] /\
    multi_channel self' = multi_channel self /\ channel_list self' = channel_list self /\
    natoms (eq_geometry self') = natoms (eq_geometry self) /\
    atom_masses (eq_geometry self') = atom_masses (eq_geometry self) /\
    pool_shape self (eq_geometry self') n (mk_pool y0s cs ms [] []).
Proof.
  intros E. unfold generate_pool in E.
  apply bindM_Ok in E. destruct E as [_u [t1 [_ E]]].
  apply bindM_Ok in E. destruct E as [g [t2 [Eg E]]].
  apply lift_Ok in Eg. destruct Eg as [Eg _]. simpl in Eg.
  destruct (com_geometry_Ok (eq_geometry self)) as [c Ec]. rewrite Ec in Eg.
  injection Eg as Eg.
  apply bindM_Ok in E. destruct E as [[[levels table] ns0] [t3 [_ E]]].
  apply bindM_Ok in E. destruct E as [acc [t4 [Eacc E]]].
  apply ret_Ok in E. injection E as -> ->.
  apply (for_eachM_Ok_inv _ (fun k acc => pool_shape self g k acc)
           (fun a k s tp s' tp' Hinv Hb =>
              trajectory_shape self g meth rotate _ sample_max temp table levels
                               k s tp s' tp' Hinv Hb)
           (range n) 0%nat) in Eacc.
  - unfold range in Eacc. rewrite length_seq in Eacc. simpl in Eacc.
    exists (pool_y0 acc), (pool_charges acc), (pool_masses acc). simpl.
    repeat split; try reflexivity; try (rewrite <- Eg; reflexivity);
      destruct Eacc as [H1 [H2 [H3 [H4 [H5 H6]]]]]; assumption.
  - unfold pool_shape. simpl. repeat split; constructor.
Qed.

(** *** Gaussian sampling always returns, given enough draws *)

Lemma for_eachM_total {A S : Type} (body : A -> S -> M S) (Inv : nat -> S -> Prop)
      (cost : nat) :
  forall (l : list A) (k : nat) (s : S) (tape : list R),
    Inv k s ->
    (cost * length l <= length tape)%nat ->
    (forall a k' s tape, In a l -> Inv k' s -> (cost <= length tape)%nat ->
       exists s' tape', body a s tape = Ok (s', tape') /\ Inv (Datatypes.S k') s' /\
                        (length tape' + cost = length tape)%nat) ->
    exists s' tape', for_eachM l body s tape = Ok (s', tape') /\
                     Inv (k + length l)%nat s' /\
                     (length tape' + cost * length l = length tape)%nat.
Proof.
  induction l as [|a l IH]; intros k s tape H0 Hlen Hstep; simpl.
  - exists s, tape. unfold ret. rewrite Nat.add_0_r. repeat split; [exact H0 | lia].
  - simpl in Hlen.
    destruct (Hstep a k s tape) as [s1 [tape1 [E1 [H1 L1]]]];
      [left; reflexivity | exact H0 | lia |].
    destruct (IH (Datatypes.S k) s1 tape1 H1) as [s2 [tape2 [E2 [H2 L2]]]]; [lia | |].
    + intros b k' s' tp Hb. apply Hstep. right. exact Hb.
    + exists s2, tape2. unfold bindM. rewrite E1. split; [exact E2|].
      split; [|lia]. replace (k + Datatypes.S (length l))%nat
        with (Datatypes.S k + length l)%nat by lia. exact H2.
Qed.

Lemma draw_Ok (tape : list R) :
  (1 <= length tape)%nat ->
  exists x tape', draw tape = Ok (x, tape') /\ (length tape' + 1 = length tape)%nat.
Proof.
  destruct tape as [|x tape]; simpl; intros H; [lia|]. exists x, tape. split; [reflexivity | lia].
Qed.

Lemma normal_Ok (loc scale : R) (tape : list R) :
  0 <= scale -> (1 <= length tape)%nat ->
  exists x tape', normal loc scale tape = Ok (x, tape') /\
                  (length tape' + 1 = length tape)%nat.
Proof.
  intros Hs Hl. unfold normal. destruct (Rlt_dec scale 0); [lra|].
  destruct (draw_Ok tape Hl) as [x [tape' [E L]]].
  exists (loc + scale * x), tape'. unfold bindM. rewrite E. split; [reflexivity | exact L].
Qed.

Lemma uniform_Ok (low high : R) (tape : list R) :
  (1 <= length tape)%nat ->
  exists x tape', uniform low high tape = Ok (x, tape') /\
                  (length tape' + 1 = length tape)%nat.
Proof.
  intros Hl. unfold uniform. destruct (draw_Ok tape Hl) as [x [tape' [E L]]].
  exists (low + (high - low) * x), tape'. unfold bindM. rewrite E. split; [reflexivity | exact L].
Qed.

Lemma blur_sigma_of_Ok (g : geometry) (s : sigma_t) (n : nat) :
  sigma_ok g s -> (n < natoms g)%nat ->
  exists x, blur_sigma_of g (sigma_to_array s) n = Ok x /\ 0 <= x.
Proof.
  intros [a [Ea [Hpos Hlen]]] Hn. rewrite Ea. unfold blur_sigma_of, sigma_shape0. cbn [bind].
  rewrite Forall_forall in Hpos.
  destruct (Nat.eqb_spec (length a) 1) as [H1|H1].
  - exists (nth 0 a 0). split; [apply get_nth; lia | apply Hpos, nth_In; lia].
  - destruct Hlen as [Hlen|Hlen]; [lia|]. rewrite Hlen, Nat.eqb_refl.
    exists (nth n a 0). split; [apply get_nth; lia | apply Hpos, nth_In; lia].
Qed.

Lemma gaussian_positions_Ok (g : geometry) (s : sigma_t) (coords : list vec3) (tape : list R) :
  atom_coords_com g = Some coords -> length coords = natoms g ->
  sigma_ok g s ->
  (3 * natoms g <= length tape)%nat ->
  exists r_list tape',
    gaussian_positions g (Some (sigma_to_array s)) tape = Ok (r_list, tape') /\
    length r_list = natoms g /\ (length tape' + 3 * natoms g = length tape)%nat.
Proof.
  intros Hc Hl Hs Ht. unfold gaussian_positions. rewrite Hc.
  unfold bindM at 1. cbn [attr lift].
  destruct (for_eachM_total
              (fun n r_list =>
                 s0 <~ lift (attr "sigma" (Some (sigma_to_array s))) ;;
                 blur_sigma <~ lift (blur_sigma_of g s0 n) ;;
                 c <~ lift (get coords n) ;;
                 dx <~ normal 0 blur_sigma ;;
                 dy <~ normal 0 blur_sigma ;;
                 dz <~ normal 0 blur_sigma ;;
                 ret (r_list ++ [((vx c + dx) * 1e-10, (vy c + dy) * 1e-10,
                                  (vz c + dz) * 1e-10)]))
              (fun k r_list => length r_list = k) 3 (range (natoms g)) 0%nat [] tape)
    as [r_list [tape' [E [Hr Hlen]]]].
  - reflexivity.
  - unfold range. rewrite length_seq. exact Ht.
  - intros n k r_list tp Hn Hk Htp. apply in_seq in Hn.
    unfold bindM at 1. cbn [attr lift].
    destruct (blur_sigma_of_Ok g s n Hs) as [b [Eb Hb]]; [lia|].
    unfold bindM at 1. rewrite Eb. cbn [lift].
    unfold bindM at 1. rewrite (get_nth coords n vzero) by lia. cbn [lift].
    destruct (normal_Ok 0 b tp Hb) as [dx [t1 [E1 L1]]]; [lia|].
    unfold bindM at 1. rewrite E1.
    destruct (normal_Ok 0 b t1 Hb) as [dy [t2 [E2 L2]]]; [lia|].
    unfold bindM at 1. rewrite E2.
    destruct (normal_Ok 0 b t2 Hb) as [dz [t3 [E3 L3]]]; [lia|].
    unfold bindM at 1. rewrite E3.
    eexists. exists t3. unfold ret. split; [reflexivity|].
    split; [rewrite length_app; simpl; lia | lia].
  - unfold range in Hr, Hlen. rewrite length_seq in Hr, Hlen.
    exists r_list, tape'. split; [exact E|]. split; [exact Hr | lia].
Qed.

Lemma random_rotation_Ok (r_list : list vec3) (tape : list R) :
  (3 <= length tape)%nat ->
  exists r_list_rot tape',
    random_rotation r_list tape = Ok (r_list_rot, tape') /\
    length r_list_rot = length r_list /\ (length tape' + 3 = length tape)%nat.
Proof.
  intros H. destruct tape as [|x1 [|x2 [|x3 tape]]]; simpl in H; try lia.
  exists (rotate_all (RandRotationMatrix 1 (0 + (1 - 0) * x1, 0 + (1 - 0) * x2,
                                            0 + (1 - 0) * x3)) r_list), tape.
  split; [reflexivity|].
  split; [unfold rotate_all; apply length_map | simpl; lia].
Qed.

Lemma fill_y0_Ok (g : geometry) (r_list_rot : list vec3) :
  (natoms g <= length r_list_rot)%nat -> exists y0, fill_y0 g r_list_rot = Ok y0.
Proof.
  intros H. unfold fill_y0.
  destruct (for_each_range_inv
              (fun n y0 =>
                 r <- get r_list_rot n ;;
                 y0 <- set_item y0 (3 * n) (vx r) ;;
                 y0 <- set_item y0 (3 * n + 1) (vy r) ;;
                 set_item y0 (3 * n + 2) (vz r))
              (fun _ y0 => length y0 = (natoms g * 6)%nat) (natoms g)
              (repeat 0 (natoms g * 6))) as [y0 [E _]].
  - apply repeat_length.
  - intros n y0 Hn Hl. rewrite (get_nth r_list_rot n vzero) by lia. cbn [bind].
    rewrite set_item_Ok by upd_lengths. cbn [bind].
    rewrite set_item_Ok by upd_lengths. cbn [bind].
    rewrite set_item_Ok by upd_lengths. eexists. split; [reflexivity | upd_lengths].
  - eauto.
Qed.

Lemma trajectory_gaussian_Ok (self : starting_conditions) (g : geometry) (rotate : bool)
      (s : sigma_t) (sample_max temp : R) (table : option (list (list R)))
      (levels : option (list Z)) (coords : list vec3) (acc : pool) (tape : list R) :
  multi_channel self = false ->
  atom_coords_com g = Some coords -> length coords = natoms g ->
  sigma_ok g s ->
  (draws_per_trajectory (natoms g) rotate <= length tape)%nat ->
  exists acc' tape',
    trajectory self g "gaussian" rotate (Some (sigma_to_array s)) sample_max temp table levels
               acc tape = Ok (acc', tape') /\
    (length tape' + draws_per_trajectory (natoms g) rotate = length tape)%nat.
Proof.
  intros Hmc Hc Hl Hs Ht. unfold draws_per_trajectory in *. unfold trajectory.
  unfold charges_and_masses. rewrite Hmc.
  unfold bindM at 1. unfold ret at 1.
  change (String.eqb "gaussian" "gaussian") with true. cbv iota.
  destruct (gaussian_positions_Ok g s coords tape Hc Hl Hs) as [r_list [t1 [E1 [Hr L1]]]];
    [lia|].
  unfold bindM at 1. unfold bindM at 1. rewrite E1. unfold ret at 1.
  destruct rotate.
  - destruct (random_rotation_Ok r_list t1) as [rr [t2 [E2 [Hrr L2]]]]; [lia|].
    unfold bindM at 1. rewrite E2.
    destruct (fill_y0_Ok g rr) as [y0 Ey]; [lia|].
    unfold bindM at 1. rewrite Ey. cbn [lift]. unfold ret.
    eexists. exists t2. split; [reflexivity | lia].
  - unfold bindM at 1. unfold ret at 1.
    destruct (fill_y0_Ok g r_list) as [y0 Ey]; [lia|].
    unfold bindM at 1. rewrite Ey. cbn [lift]. unfold ret.
    eexists. exists t1. split; [reflexivity | lia].
Qed.

(** In gaussian mode, without channels, with an acceptable [sigma],
    [generate_pool] returns as soon as the tape holds the draws it needs. *)
Lemma generate_pool_gaussian_Ok (self : starting_conditions) (n : nat) (rotate : bool)
      (s : sigma_t) (sample_max temp : R) (n_max : nat) (tape : list R) :
  multi_channel self = false ->
  natoms (eq_geometry self) = length (atom_coords (eq_geometry self)) ->
  sigma_ok (eq_geometry self) s ->
  (n * draws_per_trajectory (natoms (eq_geometry self)) rotate <= length tape)%nat ->
  exists self' tape',
    generate_pool self n "gaussian" rotate s sample_max temp n_max tape = Ok (self', tape').
Proof.
  intros Hmc Hn Hs Ht. unfold generate_pool.
  change (String.eqb "gaussian" "wigner") with false.
  change (String.eqb "gaussian" "gaussian") with true. cbv iota.
  unfold bindM at 1. cbn [lift].
  destruct (com_geometry_Ok (eq_geometry self)) as [c Ec].
  unfold bindM at 1. rewrite Ec. cbn [lift].
  set (g := mk_geometry _ _ _ _ _ _ _ _).
  cbn [andb]. unfold bindM at 1. cbn [lift].
  destruct (for_eachM_total
              (fun _ : nat =>
                 trajectory self g "gaussian" rotate (Some (sigma_to_array s)) sample_max temp
                            (Pn_arr self) (n_list self))
              (fun _ _ => True) (draws_per_trajectory (natoms g) rotate) (range n) 0%nat
              (mk_pool [] [] []
                       (match samp_n_list self with Some l => l | None => [] end)
                       (match samp_q_list self with Some l => l | None => [] end)) tape)
    as [acc [tape' [E _]]].
  - exact I.
  - unfold range. rewrite length_seq. subst g. simpl. lia.
  - intros a k acc tp _ _ Htp.
    destruct (trajectory_gaussian_Ok self g rotate s sample_max temp (Pn_arr self)
                (n_list self) (map (fun r => vsub r c) (atom_coords (eq_geometry self)))
                acc tp) as [acc' [tp' [E L]]]; try assumption.
    + reflexivity.
    + subst g. simpl. rewrite length_map. symmetry. exact Hn.
    + exists acc', tp'. split; [exact E|]. split; [exact I | exact L].
  - unfold bindM at 1. rewrite E. unfold ret. eauto.
Qed.

Lemma Forall_eq_repeat {A : Type} (a : A) (l : list A) :
  Forall (fun x => x = a) l -> l = repeat a (length l).
Proof.
  induction 1 as [|x l Hx _ IH]; simpl; [reflexivity|]. rewrite Hx, <- IH. reflexivity.
Qed.

(** C2 fails on the code in one respect.  Whenever [generate_pool] returns,
    the sampler holds [n_geoms] state vectors of length [6 natoms] with
    zeros in the velocity half (the first half is filled, atom by atom, from
    the sampled positions), [n_geoms] charge vectors in Coulombs and
    [n_geoms] mass vectors in kilograms; but [samp_channel_list] is the
    empty list it was reset to: no channel is recorded for any trajectory. *)
Theorem generate_pool_ensemble (self : starting_conditions) (n : nat) (meth : string)
        (rotate : bool) (sig : sigma_t) (sample_max temp : R) (n_max : nat)
        (tape : list R) (self' : starting_conditions) (tape' : list R) :
  generate_pool self n meth rotate sig sample_max temp n_max tape = Ok (self', tape') ->
  let N := natoms (eq_geometry self) in
  exists y0s cs ms : list (list R),
    samp_y0_list self' = Some y0s /\ length y0s = n /\
    samp_charges_list self' = Some cs /\ length cs = n /\
    samp_masses_list self' = Some ms /\ length ms = n /\
    Forall (fun y0 =>
              length y0 = (6 * N)%nat /\
              (forall i : nat, (3 * N <= i < 6 * N)%nat -> nth i y0 0 = 0)) y0s /\
    Forall (charges_shape self N) cs /\
    Forall (fun masses => masses = map (fun m => m * u) (atom_masses (eq_geometry self))) ms /\
    (forall (g : geometry) (r_list_rot : list vec3) (y0 : list R),
        fill_y0 g r_list_rot = Ok y0 ->
        forall j : nat, (j < natoms g)%nat -> nth_error r_list_rot j = Some (pos y0 j)) /\
    samp_channel_list self' = Some [].
Proof.
  intros E N. apply generate_pool_shape in E.
  destruct E as [y0s [cs [ms [E1 [E2 [E3 [E4 [_ [_ [HN [HM Hp]]]]]]]]]]].
  destruct Hp as [L1 [L2 [L3 [F1 [F2 F3]]]]]. simpl in *.
  rewrite HN in F1, F2. rewrite HM in F3. fold N in F1, F2.
  exists y0s, cs, ms. repeat split; try assumption.
  - eapply Forall_impl; [|exact F1]. cbv beta.
    intros y0 [positions [Hl [Hpos Hz]]]. split; [exact Hl|].
    intros i Hi. apply Hz. lia.
  - intros g r_list_rot y0 Ey j Hj. apply fill_y0_shape in Ey.
    destruct Ey as [_ [Hpos _]]. destruct (Hpos j Hj) as [r [Hr Hp]].
    rewrite Hp. exact Hr.
Qed.

Lemma example_sampler_runs :
  exists self' tape',
    generate_pool example_sampler 1 "gaussian" false (SigmaNumber 0) 3 0 5 [0; 0; 0]
    = Ok (self', tape').
Proof.
  apply generate_pool_gaussian_Ok.
  - reflexivity.
  - reflexivity.
  - exists [0]. split; [reflexivity|]. split; [repeat constructor; lra | left; reflexivity].
  - simpl. lia.
Qed.

Lemma generate_pool_ensemble_witness :
  exists self' : starting_conditions,
    (exists y0s, samp_y0_list self' = Some y0s /\ length y0s = 1%nat) /\
    samp_channel_list self' = Some [].
Proof.
  destruct example_sampler_runs as [self' [tape' E]].
  exists self'.
  destruct (generate_pool_ensemble _ _ _ _ _ _ _ _ _ _ _ E)
    as [y0s [cs [ms [H1 [H2 [_ [_ [_ [_ [_ [_ [_ [_ H]]]]]]]]]]]]].
  split; [exists y0s; split; assumption | exact H].
Defined.

(** ** Channel lists whose probabilities do not sum to 1 *)

Lemma set_channel_list_bad (self : starting_conditions) (channels : list Channel.ce_channel) :
  0.001 < Rabs (Rsum (map Channel.p channels) - 1) ->
  set_channel_list self channels = (self, ["Channel probabilities don't sum to 1!"%string]).
Proof.
  intros H. unfold set_channel_list, Rltb.
  destruct (Rlt_dec 0.001 (Rabs (Rsum (map Channel.p channels) - 1))); [reflexivity|].
  contradiction.
Qed.

Lemma unit_charges (self self' : starting_conditions) (n : nat) (meth : string)
      (rotate : bool) (sig : sigma_t) (sample_max temp : R) (n_max : nat)
      (tape tape' : list R) :
  multi_channel self = false ->
  generate_pool self n meth rotate sig sample_max temp n_max tape = Ok (self', tape') ->
  samp_charges_list self' = Some (repeat (repeat e (natoms (eq_geometry self))) n).
Proof.
  intros Hmc E. apply generate_pool_shape in E.
  destruct E as [y0s [cs [ms [_ [E2 [_ [_ [_ [_ [HN [_ Hp]]]]]]]]]]].
  destruct Hp as [_ [L2 [_ [_ [F2 _]]]]]. simpl in *.
  rewrite E2. f_equal. rewrite <- L2.
  apply Forall_eq_repeat. eapply Forall_impl; [|exact F2]. cbv beta.
  intros c Hc. unfold charges_shape in Hc. rewrite Hmc, HN, Rmult_1_l in Hc. exact Hc.
Qed.

(** C9: a channel list whose probabilities are off 1 by more than 1e-3 is
    answered with the warning and nothing else: the call returns, the
    sampler is unchanged; if it was not in multi-channel mode it still is
    not (and a fresh sampler stores no channel list), and every pool
    generated afterwards gives every atom of every trajectory the charge
    [e]; such a pool is generated without failure in gaussian mode. *)
Theorem set_channel_list_rejects (self : starting_conditions)
        (channels : list Channel.ce_channel) :
  0.001 < Rabs (Rsum (map Channel.p channels) - 1) ->
  multi_channel self = false ->
  let after := fst (set_channel_list self channels) in
  set_channel_list self channels = (self, ["Channel probabilities don't sum to 1!"%string]) /\
  after = self /\
  multi_channel after = false /\
  (forall g, self = starting_conditions_init g ->
             channel_list after = None /\ channel_p_list after = None) /\
  (forall n meth rotate sig sample_max temp n_max tape self' tape',
     generate_pool after n meth rotate sig sample_max temp n_max tape = Ok (self', tape') ->
     samp_charges_list self' = Some (repeat (repeat e (natoms (eq_geometry self))) n)) /\
  (forall n rotate sig sample_max temp n_max tape,
     natoms (eq_geometry self) = length (atom_coords (eq_geometry self)) ->
     sigma_ok (eq_geometry self) sig ->
     (n * draws_per_trajectory (natoms (eq_geometry self)) rotate <= length tape)%nat ->
     exists self' tape',
       generate_pool after n "gaussian" rotate sig sample_max temp n_max tape
       = Ok (self', tape') /\
       samp_charges_list self' = Some (repeat (repeat e (natoms (eq_geometry self))) n)).
Proof.
  intros Hbad Hmc after. unfold after. rewrite (set_channel_list_bad self channels Hbad).
  simpl fst. repeat split; try assumption.
  - subst self. reflexivity.
  - subst self. reflexivity.
  - intros n meth rotate sig sample_max temp n_max tape self' tape' E.
    eapply unit_charges; eassumption.
  - intros n rotate sig sample_max temp n_max tape Hn Hs Ht.
    destruct (generate_pool_gaussian_Ok self n rotate sig sample_max temp n_max tape
                Hmc Hn Hs Ht) as [self' [tape' E]].
    exists self', tape'. split; [exact E|]. eapply unit_charges; eassumption.
Qed.

Lemma set_channel_list_rejects_witness :
  set_channel_list example_sampler [Channel.mk [1] (1 / 2) "a"; Channel.mk [2] (1 / 4) "b"]
  = (example_sampler, ["Channel probabilities don't sum to 1!"%string]) /\
  exists self' tape',
    generate_pool
      (fst (set_channel_list example_sampler
              [Channel.mk [1] (1 / 2) "a"; Channel.mk [2] (1 / 4) "b"]))
      2 "gaussian" true (SigmaNumber (1 / 10)) 3 0 5 [0; 0; 0; 0; 0; 0; 0; 0; 0; 0; 0; 0]
    = Ok (self', tape') /\
    samp_charges_list self' = Some (repeat (repeat e (natoms (eq_geometry example_sampler))) 2).
Proof.
  assert (Hbad : 0.001 < Rabs (Rsum (map Channel.p
                   [Channel.mk [1] (1 / 2) "a"; Channel.mk [2] (1 / 4) "b"]) - 1)).
  { unfold Rsum. simpl. rewrite Rabs_left; lra. }
  destruct (set_channel_list_rejects example_sampler
              [Channel.mk [1] (1 / 2) "a"; Channel.mk [2] (1 / 4) "b"] Hbad eq_refl)
    as [H1 [_ [_ [_ [_ H6]]]]].
  split; [exact H1|].
  apply H6.
  - reflexivity.
  - exists [1 / 10]. split; [reflexivity|]. split; [repeat constructor; lra | left; reflexivity].
  - simpl. lia.
Defined.

(** ** The rejection loop *)

Lemma list_ind3 (P : list R -> Prop) :
  P [] -> (forall a, P [a]) -> (forall a b, P [a; b]) ->
  (forall a b c l, P l -> P (a :: b :: c :: l)) ->
  forall l, P l.
Proof.
  intros H0 H1 H2 H3.
  assert (H : forall l, P l /\ (forall a, P (a :: l)) /\ (forall a b, P (a :: b :: l))).
  { induction l as [|x l [IH0 [IH1 IH2]]].
    - auto.
    - split; [apply IH1|]. split; [intros a; apply IH2|]. intros a b. apply H3. exact IH0. }
  intros l. apply H.
Qed.

Lemma calc_W_1 (P Q : R) :
  calc_W P Q 1 = - (1 - 2 * (P ^ 2 + Q ^ 2)) * exp (- (2 * (P ^ 2 + Q ^ 2)) / 2).
Proof.
  unfold calc_W. change (0 <? 1)%Z with true. cbv iota zeta.
  change (Z.to_nat 1) with 1%nat. rewrite laguerre_1. simpl pow. ring.
Qed.

(** In a box of half-width at most 1/2 the Wigner function of level 1 is
    nowhere positive: no threshold in [0,1] lies below it. *)
Lemma level_1_rejected (sample_max xq xp xt : R) :
  0 <= sample_max <= 1 / 2 -> 0 <= xq <= 1 -> 0 <= xp <= 1 -> 0 <= xt ->
  ~ 0 + (1 - 0) * xt
    < calc_W (- sample_max + (sample_max - - sample_max) * xp)
             (- sample_max + (sample_max - - sample_max) * xq) 1.
Proof.
  intros Hs Hq Hp Ht. rewrite calc_W_1.
  set (P := - sample_max + (sample_max - - sample_max) * xp).
  set (Q := - sample_max + (sample_max - - sample_max) * xq).
  assert (Hbox : forall x, 0 <= x <= 1 ->
            (- sample_max + (sample_max - - sample_max) * x) ^ 2 <= 1 / 4).
  { intros x Hx.
    assert (0 <= sample_max * x) by (apply Rmult_le_pos; lra).
    assert (sample_max * x <= sample_max * 1) by (apply Rmult_le_compat_l; lra).
    assert (Hb : - (1 / 2) <= - sample_max + (sample_max - - sample_max) * x <= 1 / 2) by lra.
    generalize dependent (- sample_max + (sample_max - - sample_max) * x). intros y Hy.
    simpl. nra. }
  assert (HP : P ^ 2 <= 1 / 4) by (apply Hbox; exact Hp).
  assert (HQ : Q ^ 2 <= 1 / 4) by (apply Hbox; exact Hq).
  pose proof (exp_pos (- (2 * (P ^ 2 + Q ^ 2)) / 2)) as He.
  assert (0 <= (1 - 2 * (P ^ 2 + Q ^ 2)) * exp (- (2 * (P ^ 2 + Q ^ 2)) / 2)).
  { apply Rmult_le_pos; lra. }
  lra.
Qed.

Lemma wigner_loop_level_1 (sample_max : R) :
  0 <= sample_max <= 1 / 2 ->
  forall tape : list R,
    Forall (fun x => 0 <= x <= 1) tape ->
    wigner_loop sample_max 1 tape = Starved /\
    (3 * wigner_attempts sample_max 1 tape <= length tape
     < 3 * wigner_attempts sample_max 1 tape + 3)%nat.
Proof.
  intros Hs. induction tape as [| a | a b | xq xp xt tape IH] using list_ind3; intros Ht.
  - simpl. split; [reflexivity | lia].
  - simpl. split; [reflexivity | lia].
  - simpl. split; [reflexivity | lia].
  - inversion Ht as [|? ? Hq Ht1]; subst. inversion Ht1 as [|? ? Hp Ht2]; subst.
    inversion Ht2 as [|? ? Hx Ht3]; subst.
    destruct (IH Ht3) as [E L].
    cbn [wigner_loop wigner_attempts].
    destruct (Rlt_dec _ _) as [Hlt|_].
    + exfalso. revert Hlt. apply level_1_rejected; tauto.
    + split; [exact E | simpl length; lia].
Qed.

Lemma exp_minus_9 : exp (- (-3) ^ 2) < 1 / 10.
Proof.
  replace (- (-3) ^ 2) with (Ropp 9) by ring. rewrite exp_Ropp.
  pose proof (exp_ineq1 9 ltac:(lra)) as H.
  apply (Rmult_lt_reg_r (exp 9)); [apply exp_pos|].
  rewrite Rinv_l by (apply Rgt_not_eq, exp_pos). lra.
Qed.

Lemma default_corner_rejected :
  ~ 0 + (1 - 0) * (1 / 2) < calc_W (- 3 + (3 - - 3) * 0) (- 3 + (3 - - 3) * 0) 0.
Proof.
  unfold calc_W. change (0 <? 0)%Z with false. cbv iota.
  replace (- 3 + (3 - - 3) * 0) with (-3) by ring.
  pose proof exp_minus_9 as H. pose proof (exp_pos (- (-3) ^ 2)) as Hp.
  assert (exp (- (-3) ^ 2) * exp (- (-3) ^ 2) < 1 / 2) by nra.
  lra.
Qed.

Lemma wigner_loop_reject_tape (N : nat) (rest : list R) :
  wigner_loop 3 0 (reject_tape N ++ rest) = wigner_loop 3 0 rest /\
  wigner_attempts 3 0 (reject_tape N ++ rest) = (N + wigner_attempts 3 0 rest)%nat.
Proof.
  induction N as [|N [IH1 IH2]]; [split; reflexivity|].
  unfold reject_tape in *. cbn [repeat concat app].
  cbn [wigner_loop wigner_attempts].
  destruct (Rlt_dec _ _) as [Hlt|_].
  - exfalso. exact (default_corner_rejected Hlt).
  - rewrite IH1, IH2. split; reflexivity.
Qed.

Lemma reject_tape_range (N : nat) : Forall (fun x => 0 <= x < 1) (reject_tape N).
Proof.
  induction N as [|N IH]; [constructor|].
  unfold reject_tape in *. simpl. repeat (constructor; [lra|]). exact IH.
Qed.

Lemma length_reject_tape (N : nat) : length (reject_tape N) = (3 * N)%nat.
Proof.
  induction N as [|N IH]; [reflexivity|].
  unfold reject_tape in *. simpl. rewrite IH. lia.
Qed.

Lemma nonzero_true (x : R) : x <> 0 -> nonzero x = true.
Proof. intros H. unfold nonzero. destruct (Req_dec_T x 0); [contradiction | reflexivity]. Qed.

Lemma bindM_Ok_eq {A B : Type} (m : M A) (f : A -> M B) (tape tape' : list R) (a : A) :
  m tape = Ok (a, tape') -> bindM m f tape = f a tape'.
Proof. intros E. unfold bindM. rewrite E. reflexivity. Qed.

Lemma bindM_Starved {A B : Type} (m : M A) (f : A -> M B) (tape : list R) :
  m tape = Starved -> bindM m f tape = Starved.
Proof. intros E. unfold bindM. rewrite E. reflexivity. Qed.

Lemma choose_level_cold (temp : R) (table : option (list (list R)))
      (levels : option (list Z)) (mode_counter : nat) (tape : list R) :
  temp <= 0 -> choose_level temp table levels mode_counter tape = Ok (0%Z, tape).
Proof.
  intros H. unfold choose_level. destruct (Rlt_dec 0 temp); [lra | reflexivity].
Qed.

Lemma wigner_mode_starved (g : geometry) (temp sample_max : R)
      (table : option (list (list R))) (levels : option (list Z)) (mode_counter : nat)
      (mo : list vec3 * R) (acc : wigner_acc) (tape : list R) :
  temp <= 0 -> wigner_loop sample_max 0 tape = Starved ->
  wigner_mode g temp sample_max table levels mode_counter mo acc tape = Starved.
Proof.
  intros HT E. unfold wigner_mode. destruct mo as [nmode omega].
  rewrite (bindM_Ok_eq _ _ tape tape 0%Z) by (apply choose_level_cold; exact HT).
  apply bindM_Starved. exact E.
Qed.

Lemma wigner_positions_starved (g : geometry) (temp sample_max : R)
      (table : option (list (list R))) (levels : option (list Z)) (ns : list Z)
      (qs : list R) (coords : list vec3) (mode : list vec3) (modes : list (list vec3))
      (omega : R) (freqs : list R) (tape : list R) :
  atom_coords_com g = Some coords ->
  nmodes_weighted g = Some (mode :: modes) ->
  omegas g = Some (omega :: freqs) ->
  temp <= 0 -> wigner_loop sample_max 0 tape = Starved ->
  wigner_positions g temp sample_max table levels ns qs tape = Starved.
Proof.
  intros Hc Hw Ho HT E. unfold wigner_positions. rewrite Hc, Hw, Ho.
  rewrite (bindM_Ok_eq _ _ tape tape coords) by reflexivity.
  rewrite (bindM_Ok_eq _ _ tape tape (mode :: modes)) by reflexivity.
  rewrite (bindM_Ok_eq _ _ tape tape (omega :: freqs)) by reflexivity.
  apply bindM_Starved. cbn [combine for_eachM].
  apply bindM_Starved. apply wigner_mode_starved; assumption.
Qed.

Lemma trajectory_wigner_starved (self : starting_conditions) (g : geometry) (rotate : bool)
      (sig : option sigma_t) (temp sample_max : R)
      (table : option (list (list R))) (levels : option (list Z)) (acc : pool)
      (coords : list vec3) (mode : list vec3) (modes : list (list vec3))
      (omega : R) (freqs : list R) (tape : list R) :
  multi_channel self = false ->
  atom_coords_com g = Some coords ->
  nmodes_weighted g = Some (mode :: modes) ->
  omegas g = Some (omega :: freqs) ->
  temp <= 0 -> wigner_loop sample_max 0 tape = Starved ->
  trajectory self g "wigner" rotate sig sample_max temp table levels acc tape = Starved.
Proof.
  intros Hmc Hc Hw Ho HT E. unfold trajectory, charges_and_masses. rewrite Hmc.
  erewrite bindM_Ok_eq by reflexivity.
  change (String.eqb "wigner" "gaussian") with false.
  change (String.eqb "wigner" "wigner") with true. cbv iota.
  apply bindM_Starved. eapply wigner_positions_starved; eassumption.
Qed.

Lemma wigner_pool_starved (N : nat) :
  generate_pool wigner_sampler 1 "wigner" false (SigmaNumber (1 / 10)) 3 0 5 (reject_tape N)
  = Starved.
Proof.
  unfold generate_pool.
  change (String.eqb "wigner" "wigner") with true.
  change (String.eqb "wigner" "gaussian") with false. cbv iota.
  assert (Hpre : wigner_preconditions (eq_geometry wigner_sampler) = Ok tt).
  { unfold wigner_preconditions.
    cbn [eq_geometry wigner_sampler starting_conditions_init wigner_geometry nmodes omegas
         attr bind].
    unfold modes_any, reals_any. cbn [existsb]. unfold vany at 1. unfold vx at 1.
    cbn [fst snd]. rewrite !(nonzero_true 1) by lra. cbn [orb].
    rewrite (nonzero_true 1000) by lra. reflexivity. }
  rewrite Hpre. erewrite bindM_Ok_eq by reflexivity.
  destruct (com_geometry_Ok (eq_geometry wigner_sampler)) as [c Ec].
  rewrite Ec. erewrite bindM_Ok_eq by reflexivity.
  destruct (Rlt_dec 0 0) as [H|_]; [lra|]. cbn [andb].
  erewrite bindM_Ok_eq by reflexivity.
  apply bindM_Starved. cbn [range seq for_eachM]. apply bindM_Starved.
  destruct (wigner_loop_reject_tape N []) as [E _]. rewrite app_nil_r in E.
  eapply trajectory_wigner_starved; try reflexivity; try exact E; lra.
Qed.

(** C10: the rejection loop has no cap on its attempts.  With the selected
    level 1 and a sampling box of half-width at most 1/2 no draw is ever
    accepted, however long the tape; and at the default parameters there
    are draws, all in range, on which the loop, and [generate_pool] in
    wigner mode with it, is still running after any given number of
    attempts. *)
Theorem wigner_loop_unbounded :
  (forall (sample_max : R) (tape : list R),
     0 <= sample_max <= 1 / 2 ->
     Forall (fun x => 0 <= x <= 1) tape ->
     wigner_loop sample_max 1 tape = Starved /\
     (3 * wigner_attempts sample_max 1 tape <= length tape
      < 3 * wigner_attempts sample_max 1 tape + 3)%nat) /\
  (forall N : nat,
     exists tape : list R,
       Forall (fun x => 0 <= x < 1) tape /\
       wigner_attempts 3 0 tape = N /\
       wigner_loop 3 0 tape = Starved /\
       generate_pool wigner_sampler 1 "wigner" false (SigmaNumber (1 / 10)) 3 0 5 tape
       = Starved).
Proof.
  split.
  - intros sample_max tape Hs Ht. apply wigner_loop_level_1; assumption.
  - intros N. exists (reject_tape N).
    destruct (wigner_loop_reject_tape N []) as [E1 E2]. rewrite app_nil_r in E1, E2.
    split; [apply reject_tape_range|]. split; [rewrite E2; simpl; lia|].
    split; [rewrite E1; reflexivity | apply wigner_pool_starved].
Qed.

Lemma wigner_loop_unbounded_witness :
  wigner_loop (1 / 2) 1 [0; 1; 1 / 2; 1 / 3; 1 / 4; 1 / 5; 1] = Starved /\
  (3 * wigner_attempts (1 / 2) 1 [0; 1; 1 / 2; 1 / 3; 1 / 4; 1 / 5; 1]%R
   <= length [0; 1; 1 / 2; 1 / 3; 1 / 4; 1 / 5; 1]%R
   < 3 * wigner_attempts (1 / 2) 1 [0; 1; 1 / 2; 1 / 3; 1 / 4; 1 / 5; 1]%R + 3)%nat.
Proof.
  apply (proj1 wigner_loop_unbounded).
  - lra.
  - repeat (constructor; [lra|]). constructor.
Defined.

(** ** Choice of the vibrational level *)

Lemma wigner_mode_row0 (g : geometry) (temp sample_max : R) (row0 : list R)
      (rest rest' : list (list R)) (levels : option (list Z)) (mo : list vec3 * R)
      (acc : wigner_acc) (tape : list R) :
  wigner_mode g temp sample_max (Some (row0 :: rest)) levels 0 mo acc tape
  = wigner_mode g temp sample_max (Some (row0 :: rest')) levels 0 mo acc tape.
Proof. reflexivity. Qed.

Lemma for_eachM_ext {A S : Type} (body body' : A -> S -> M S) (l : list A) :
  (forall a s tape, body a s tape = body' a s tape) ->
  forall s tape, for_eachM l body s tape = for_eachM l body' s tape.
Proof.
  intros H. induction l as [|a l IH]; intros s tape; simpl; [reflexivity|].
  unfold bindM. rewrite H. destruct (body' a s tape) as [[s1 t1]| |]; auto.
Qed.

Lemma bindM_ext {A B : Type} (m : M A) (f f' : A -> M B) (tape : list R) :
  (forall a tape', f a tape' = f' a tape') -> bindM m f tape = bindM m f' tape.
Proof.
  intros H. unfold bindM. destruct (m tape) as [[a t]| |]; auto.
Qed.

Lemma bindM_cong {A B : Type} (m m' : M A) (f : A -> M B) (tape : list R) :
  m tape = m' tape -> bindM m f tape = bindM m' f tape.
Proof. intros H. unfold bindM. rewrite H. reflexivity. Qed.

Lemma wigner_positions_row0 (g : geometry) (temp sample_max : R) (row0 : list R)
      (rest rest' : list (list R)) (levels : option (list Z)) (ns : list Z) (qs : list R)
      (tape : list R) :
  wigner_positions g temp sample_max (Some (row0 :: rest)) levels ns qs tape
  = wigner_positions g temp sample_max (Some (row0 :: rest')) levels ns qs tape.
Proof.
  unfold wigner_positions. cbv zeta.
  apply bindM_ext. intros coords t1.
  apply bindM_ext. intros weighted t2.
  apply bindM_ext. intros freqs t3.
  apply bindM_cong. apply for_eachM_ext.
  intros mo acc tp. apply wigner_mode_row0.
Qed.

Lemma Rltb_false (x y : R) : ~ x < y -> Rltb x y = false.
Proof. intros H. unfold Rltb. destruct (Rlt_dec x y); [contradiction | reflexivity]. Qed.

Lemma Rleb_true (x y : R) : x <= y -> Rleb x y = true.
Proof. intros H. unfold Rleb. destruct (Rle_dec x y); [reflexivity | contradiction]. Qed.

Lemma Rleb_false (x y : R) : ~ x <= y -> Rleb x y = false.
Proof. intros H. unfold Rleb. destruct (Rle_dec x y); [contradiction | reflexivity]. Qed.

(** [np.random.choice] between two levels whose weights are in the ratio
    [1 : r]. *)
Lemma random_choice_two_levels (P0 r x : R) (tape : list R) :
  0 < P0 -> 0 < r -> 0 <= x < 1 ->
  random_choice [0%Z; 1%Z] (map (fun y => y / Rsum [P0; P0 * r]) [P0; P0 * r]) (x :: tape)
  = Ok ((if Rlt_dec x (1 / (1 + r)) then 0%Z else 1%Z), tape).
Proof.
  intros HP Hr Hx. unfold random_choice. cbn [map length Nat.eqb negb].
  unfold Rsum. cbn [fold_left].
  set (S := 0 + P0 + P0 * r).
  assert (HS : 0 < S) by (subst S; nra).
  assert (Hp0 : 0 < P0 / S) by (apply Rdiv_lt_0_compat; assumption).
  assert (Hp1 : 0 < P0 * r / S) by (apply Rdiv_lt_0_compat; [nra | assumption]).
  assert (Hsum : 0 + P0 / S + P0 * r / S = 1) by (subst S; field; nra).
  cbn [existsb]. rewrite !Rltb_false by lra. cbn [orb].
  rewrite Rltb_false.
  2:{ rewrite Hsum. replace (1 - 1) with 0 by ring. rewrite Rabs_R0.
      unfold choice_atol. intros H.
      assert (0 < / 2 ^ 26) by (apply Rinv_0_lt_compat; apply pow_lt; lra). lra. }
  unfold cumsum. cbn [cumsum_from last map].
  unfold bindM, draw, searchsorted_right. cbn [filter].
  rewrite Hsum.
  rewrite (Rleb_false (1 / 1) x) by lra.
  assert (Hw : (0 + P0 / S) / 1 = 1 / (1 + r)) by (subst S; field; nra).
  rewrite Hw.
  destruct (Rlt_dec x (1 / (1 + r))) as [Hlt|Hge].
  - rewrite Rleb_false by lra. reflexivity.
  - rewrite Rleb_true by lra. reflexivity.
Qed.

Lemma level_spacing_pos (omega_cm temp : R) :
  0 < omega_cm -> 0 < temp -> 0 < level_spacing omega_cm temp.
Proof.
  intros Ho HT. unfold level_spacing.
  assert (0 < hbar) by (unfold hbar; lra).
  assert (0 < c_cm_s) by (unfold c_cm_s; lra).
  assert (0 < kb) by (unfold kb; lra).
  pose proof PI_RGT_0.
  assert (0 < omega_cm * c_cm_s) by (apply Rmult_lt_0_compat; assumption).
  apply Rdiv_lt_0_compat.
  - apply Rmult_lt_0_compat; [assumption|].
    apply Rmult_lt_0_compat; [lra | assumption].
  - apply Rmult_lt_0_compat; assumption.
Qed.

Lemma calc_Pn_pos (omega_cm temp : R) (n : Z) :
  0 < omega_cm -> 0 < temp -> 0 < calc_Pn omega_cm temp n.
Proof.
  intros Ho HT. unfold calc_Pn. destruct (Rlt_dec 0 temp); [|contradiction].
  unfold calc_canonical_partition.
  pose proof (level_spacing_pos omega_cm temp Ho HT) as Ha. unfold level_spacing in Ha.
  apply Rdiv_lt_0_compat; [apply exp_pos|].
  apply Rdiv_lt_0_compat; [apply exp_pos|].
  assert (exp (- (hbar * (omega_cm * c_cm_s * 2 * PI)) / (kb * temp)) < 1).
  { rewrite <- exp_0. apply exp_increasing.
    replace (- (hbar * (omega_cm * c_cm_s * 2 * PI)) / (kb * temp))
      with (- (hbar * (omega_cm * c_cm_s * 2 * PI) / (kb * temp)))
      by (unfold Rdiv; ring).
    lra. }
  lra.
Qed.

Lemma calc_Pn_ratio (omega_cm temp : R) :
  0 < temp ->
  calc_Pn omega_cm temp 1 = calc_Pn omega_cm temp 0 * exp (- level_spacing omega_cm temp).
Proof.
  intros HT. unfold calc_Pn, calc_vib_energy, level_spacing.
  destruct (Rlt_dec 0 temp); [|contradiction].
  assert (0 < kb) by (unfold kb; lra).
  replace (- (hbar * (omega_cm * c_cm_s * 2 * PI) * (1 + 1 / 2)) / (kb * temp))
    with (- (hbar * (omega_cm * c_cm_s * 2 * PI) * (0 + 1 / 2)) / (kb * temp)
          + - (hbar * (omega_cm * c_cm_s * 2 * PI) / (kb * temp)))
    by (field; nra).
  rewrite exp_plus. unfold Rdiv. ring.
Qed.

Lemma two_mode_table_filled : fill_Pn_arr 2 [1000; 2000] 300 2 = Ok two_mode_table.
Proof. reflexivity. Qed.

Lemma telling_draw_range : 0 <= telling_draw < 1.
Proof.
  unfold telling_draw. pose proof (exp_pos (- level_spacing 1000 300)) as H.
  split.
  - apply Rlt_le. apply Rdiv_lt_0_compat; lra.
  - apply (Rmult_lt_reg_r (1 + exp (- level_spacing 1000 300))); [lra|].
    unfold Rdiv. rewrite Rmult_assoc, Rinv_l by lra. lra.
Qed.

Lemma spacing_order : level_spacing 1000 300 < level_spacing 2000 300.
Proof.
  unfold level_spacing.
  assert (0 < hbar) by (unfold hbar; lra).
  assert (0 < c_cm_s) by (unfold c_cm_s; lra).
  assert (0 < kb) by (unfold kb; lra).
  pose proof PI_RGT_0.
  apply Rmult_lt_compat_r; [apply Rinv_0_lt_compat; lra|].
  apply Rmult_lt_compat_l; [lra|].
  apply Rmult_lt_compat_r; [lra|].
  apply Rmult_lt_compat_r; [lra|].
  apply Rmult_lt_compat_r; lra.
Qed.

(** C7 fails on the code for every mode but the first.  At [T <= 0] the
    level 0 is chosen without a draw.  At [T > 0] the table of Boltzmann
    weights has a row per mode, but [mode_counter] stays 0, so the level of
    every mode is drawn from the first row: the sampled positions do not
    depend on the other rows, and for two modes at 1000 and 2000
    wavenumbers at 300 K there is a draw on which the first row gives
    level 1 and the second mode's own row gives level 0. *)
Theorem vibrational_level_choice :
  (forall (temp : R) (table : option (list (list R))) (levels : option (list Z))
          (mode_counter : nat) (tape : list R),
     temp <= 0 -> choose_level temp table levels mode_counter tape = Ok (0%Z, tape)) /\
  (forall (g : geometry) (temp sample_max : R) (row0 : list R) (rest rest' : list (list R))
          (levels : option (list Z)) (ns : list Z) (qs : list R) (tape : list R),
     wigner_positions g temp sample_max (Some (row0 :: rest)) levels ns qs tape
     = wigner_positions g temp sample_max (Some (row0 :: rest')) levels ns qs tape) /\
  (fill_Pn_arr 2 [1000; 2000] 300 2 = Ok two_mode_table /\
   0 <= telling_draw < 1 /\
   choose_level 300 (Some two_mode_table) (Some [0%Z; 1%Z]) 0 [telling_draw] = Ok (1%Z, []) /\
   choose_level 300 (Some two_mode_table) (Some [0%Z; 1%Z]) 1 [telling_draw] = Ok (0%Z, [])).
Proof.
  split; [|split].
  - intros temp table levels mode_counter tape HT. apply choose_level_cold. exact HT.
  - intros. apply wigner_positions_row0.
  - split; [exact two_mode_table_filled|]. split; [exact telling_draw_range|].
    pose proof telling_draw_range as Hx.
    assert (H300 : 0 < 300) by lra.
    unfold choose_level. destruct (Rlt_dec 0 300) as [_|H]; [|lra].
    split.
    + erewrite bindM_Ok_eq by reflexivity.
      erewrite bindM_Ok_eq by reflexivity.
      erewrite bindM_Ok_eq by reflexivity.
      rewrite (calc_Pn_ratio 1000 300 H300).
      rewrite random_choice_two_levels;
        [| apply calc_Pn_pos; lra | apply exp_pos | exact Hx].
      destruct (Rlt_dec telling_draw (1 / (1 + exp (- level_spacing 1000 300)))) as [Hlt|_];
        [|reflexivity].
      unfold telling_draw in Hlt. lra.
    + erewrite bindM_Ok_eq by reflexivity.
      erewrite bindM_Ok_eq by reflexivity.
      erewrite bindM_Ok_eq by reflexivity.
      rewrite (calc_Pn_ratio 2000 300 H300).
      rewrite random_choice_two_levels;
        [| apply calc_Pn_pos; lra | apply exp_pos | exact Hx].
      destruct (Rlt_dec telling_draw (1 / (1 + exp (- level_spacing 2000 300)))) as [_|Hge];
        [reflexivity|].
      exfalso. apply Hge. unfold telling_draw.
      pose proof (exp_pos (- level_spacing 1000 300)).
      pose proof (exp_pos (- level_spacing 2000 300)).
      assert (exp (- level_spacing 2000 300) < exp (- level_spacing 1000 300)).
      { apply exp_increasing. pose proof spacing_order. lra. }
      unfold Rdiv. rewrite !Rmult_1_l. apply Rinv_lt_contravar; [nra | lra].
Qed.

Lemma vibrational_level_choice_witness :
  choose_level 0 None None 3 [1 / 2] = Ok (0%Z, [1 / 2]).
Proof.
  apply (proj1 vibrational_level_choice). lra.
Defined.

(** * Further properties of the code *)

(** ** Centre of mass *)

Lemma find_com_fold (l : list (vec3 * R)) (a : vec3) (b : R) :
  fold_left (fun acc rm => (vadd (fst acc) (vmuls (fst rm) (snd rm)), snd acc + snd rm)) l (a, b)
  = (fold_left (fun acc rm => vadd acc (vmuls (fst rm) (snd rm))) l a,
     fold_left (fun acc rm => acc + snd rm) l b).
Proof.
  revert a b. induction l as [|rm l IH]; intros a b; simpl; [reflexivity|]. apply IH.
Qed.

Lemma com_geometry_value (g : geometry) :
  com_geometry g
  = Ok (mk_geometry (atom_coords g) (atom_masses g) (natoms g) (nmodes g)
          (nmodes_weighted g) (omegas g)
          (Some (vdivs (weighted_sum (atom_coords g) (atom_masses g))
                       (paired_mass (atom_coords g) (atom_masses g))))
          (Some (map (fun r => vsub r (vdivs (weighted_sum (atom_coords g) (atom_masses g))
                                             (paired_mass (atom_coords g) (atom_masses g))))
                     (atom_coords g)))).
Proof.
  unfold com_geometry, find_com, weighted_sum, paired_mass.
  rewrite find_com_fold. reflexivity.
Qed.

Lemma weighted_sum_from (l : list (vec3 * R)) (a : vec3) :
  fold_left (fun acc rm => vadd acc (vmuls (fst rm) (snd rm))) l a
  = vadd a (fold_left (fun acc rm => vadd acc (vmuls (fst rm) (snd rm))) l vzero).
Proof.
  revert a. induction l as [|rm l IH]; intros a; simpl.
  - symmetry. apply vadd_zero_r.
  - rewrite IH. rewrite (IH (vadd vzero _)). rewrite vadd_zero_l. apply vadd_assoc.
Qed.

Lemma paired_mass_from (l : list (vec3 * R)) (b : R) :
  fold_left (fun acc rm => acc + snd rm) l b
  = b + fold_left (fun acc (rm : vec3 * R) => acc + snd rm) l 0.
Proof.
  revert b. induction l as [|rm l IH]; intros b; simpl; [ring|].
  rewrite IH. rewrite (IH (0 + _)). ring.
Qed.

(** Moving every atom by [t] moves the weighted sum by [M t]. *)
Lemma weighted_sum_shift (coords : list vec3) (masses : list R) (t : vec3) :
  weighted_sum (map (fun r => vadd r t) coords) masses
  = vadd (weighted_sum coords masses) (vmuls t (paired_mass coords masses)).
Proof.
  unfold weighted_sum, paired_mass. revert masses.
  induction coords as [|r coords IH]; intros [|m masses]; simpl;
    try (destruct t as [[? ?] ?]; vec_unfold; mat_ext; ring).
  rewrite weighted_sum_from, (weighted_sum_from _ (vadd vzero (vmuls r m))).
  rewrite (paired_mass_from _ (0 + m)). rewrite IH.
  destruct (fold_left _ (combine coords masses) vzero) as [[s1 s2] s3].
  generalize (fold_left (fun acc (rm : vec3 * R) => acc + snd rm) (combine coords masses) 0).
  intros M. destruct r as [[r1 r2] r3], t as [[t1 t2] t3]. vec_unfold. mat_ext; ring.
Qed.

Lemma paired_mass_map (f : vec3 -> vec3) (coords : list vec3) (masses : list R) :
  paired_mass (map f coords) masses = paired_mass coords masses.
Proof.
  unfold paired_mass. revert masses.
  induction coords as [|r coords IH]; intros [|m masses]; simpl; try reflexivity.
  rewrite paired_mass_from, (paired_mass_from (combine coords masses)). rewrite IH. reflexivity.
Qed.

Lemma vsub_as_vadd (r c : vec3) : vsub r c = vadd r (vscale (-1) c).
Proof. destruct r as [[? ?] ?], c as [[? ?] ?]. vec_unfold. mat_ext; ring. Qed.

(** X1: [com_geometry] always returns, and when the paired masses do not
    sum to zero the coordinates it stores are centred: their mass-weighted
    sum vanishes. *)
Theorem com_geometry_centred (g : geometry) :
  paired_mass (atom_coords g) (atom_masses g) <> 0 ->
  exists g' centred,
    com_geometry g = Ok g' /\
    atom_coords_com g' = Some centred /\
    length centred = length (atom_coords g) /\
    weighted_sum centred (atom_masses g) = vzero.
Proof.
  intros HM. rewrite com_geometry_value. eexists. eexists.
  split; [reflexivity|]. split; [reflexivity|]. split; [apply length_map|].
  rewrite (map_ext _ (fun r => vadd r (vscale (-1)
             (vdivs (weighted_sum (atom_coords g) (atom_masses g))
                    (paired_mass (atom_coords g) (atom_masses g))))))
    by (intros r; apply vsub_as_vadd).
  rewrite weighted_sum_shift.
  destruct (weighted_sum (atom_coords g) (atom_masses g)) as [[w1 w2] w3].
  vec_unfold. mat_ext; field; exact HM.
Qed.

Lemma com_geometry_centred_witness :
  exists g' centred,
    com_geometry (mk_geometry [(0, 0, 0); (3, 0, 0)] [1; 2] 2 None None None None None) = Ok g' /\
    atom_coords_com g' = Some centred /\
    length centred = 2%nat /\
    weighted_sum centred [1; 2] = vzero.
Proof.
  apply (com_geometry_centred
           (mk_geometry [(0, 0, 0); (3, 0, 0)] [1; 2] 2 None None None None None)).
  unfold paired_mass. simpl. lra.
Defined.

(** X2: the centred coordinates do not depend on where the molecule sits:
    moving every atom by the same vector leaves [atom_coords_com] as it
    was. *)
Theorem com_geometry_translation (g : geometry) (t : vec3) :
  paired_mass (atom_coords g) (atom_masses g) <> 0 ->
  exists g1 g2,
    com_geometry g = Ok g1 /\
    com_geometry (mk_geometry (map (fun r => vadd r t) (atom_coords g)) (atom_masses g)
                              (natoms g) (nmodes g) (nmodes_weighted g) (omegas g)
                              (com g) (atom_coords_com g)) = Ok g2 /\
    atom_coords_com g2 = atom_coords_com g1.
Proof.
  intros HM. rewrite !com_geometry_value. eexists. eexists.
  split; [reflexivity|]. split; [reflexivity|]. cbn [atom_coords atom_masses atom_coords_com].
  f_equal. rewrite map_map. apply map_ext. intros r.
  rewrite weighted_sum_shift, paired_mass_map.
  destruct (weighted_sum (atom_coords g) (atom_masses g)) as [[w1 w2] w3].
  destruct r as [[r1 r2] r3], t as [[t1 t2] t3].
  vec_unfold. mat_ext; field; exact HM.
Qed.

Lemma com_geometry_translation_witness :
  exists g1 g2,
    com_geometry (mk_geometry [(0, 0, 0); (3, 0, 0)] [1; 2] 2 None None None None None) = Ok g1 /\
    com_geometry (mk_geometry (map (fun r => vadd r (5, 6, 7)) [(0, 0, 0); (3, 0, 0)]) [1; 2] 2
                              None None None None None) = Ok g2 /\
    atom_coords_com g2 = atom_coords_com g1.
Proof.
  apply (com_geometry_translation
           (mk_geometry [(0, 0, 0); (3, 0, 0)] [1; 2] 2 None None None None None) (5, 6, 7)).
  unfold paired_mass. simpl. lra.
Defined.

(** ** The rotation generator at other deflections *)

Lemma RandRotationMatrix_any_deflection (d t p z : R) :
  0 <= d <= 1 -> 0 <= z <= 1 ->
  orthogonal (RandRotationMatrix d (t, p, z)) /\ det (RandRotationMatrix d (t, p, z)) = 1.
Proof.
  intros [Hd0 Hd1] [Hz0 Hz1].
  unfold RandRotationMatrix.
  set (th := t * 2 * d * PI). set (ph := p * 2 * PI). set (zz := z * 2 * d).
  assert (Hzz : 0 <= zz <= 2) by (subst zz; nra).
  assert (Hr : sqrt zz * sqrt zz = zz) by (apply sqrt_sqrt; lra).
  assert (Hw : sqrt (2 - zz) * sqrt (2 - zz) = 2 - zz) by (apply sqrt_sqrt; lra).
  assert (HV : (sin ph * sqrt zz) * (sin ph * sqrt zz) + (cos ph * sqrt zz) * (cos ph * sqrt zz)
               + sqrt (2 - zz) * sqrt (2 - zz) = 2).
  { rewrite Hw.
    replace (sin ph * sqrt zz * (sin ph * sqrt zz) + cos ph * sqrt zz * (cos ph * sqrt zz))
      with ((sin ph * sin ph + cos ph * cos ph) * (sqrt zz * sqrt zz)) by ring.
    rewrite sin_cos_sq, Hr. ring. }
  destruct (reflection_orthogonal _ _ _ HV) as [Ho Hdet].
  destruct (planar_rotation_orthogonal (cos th) (sin th) (sin_cos_sq th)) as [Ho' Hdet'].
  split.
  - apply orthogonal_mul; assumption.
  - rewrite det_mul, Hdet, Hdet'. ring.
Qed.

(** X3: for every deflection in [0,1], not only the default 1, the
    generated matrix is orthogonal with determinant 1. *)
Theorem RandRotationMatrix_deflection (d t p z : R) :
  0 <= d <= 1 -> 0 <= z <= 1 ->
  orthogonal (RandRotationMatrix d (t, p, z)) /\ det (RandRotationMatrix d (t, p, z)) = 1 /\
  forall a b : vec3,
    dist (mat_vec (RandRotationMatrix d (t, p, z)) a) (mat_vec (RandRotationMatrix d (t, p, z)) b)
    = dist a b.
Proof.
  intros Hd Hz. destruct (RandRotationMatrix_any_deflection d t p z Hd Hz) as [Ho Hdet].
  split; [exact Ho|]. split; [exact Hdet|].
  intros a b. apply orthogonal_dist. exact Ho.
Qed.

Lemma RandRotationMatrix_deflection_witness :
  orthogonal (RandRotationMatrix (1 / 3) (1 / 2, 1 / 4, 1)) /\
  det (RandRotationMatrix (1 / 3) (1 / 2, 1 / 4, 1)) = 1 /\
  forall a b : vec3,
    dist (mat_vec (RandRotationMatrix (1 / 3) (1 / 2, 1 / 4, 1)) a)
         (mat_vec (RandRotationMatrix (1 / 3) (1 / 2, 1 / 4, 1)) b)
    = dist a b.
Proof.
  apply RandRotationMatrix_deflection; lra.
Defined.

(** X4: deflection 0 does not give the identity.  Whatever the three
    random numbers, the matrix is [diag(-1, -1, 1)], a half turn about the
    z axis. *)
Theorem RandRotationMatrix_deflection_0 (t p z : R) :
  RandRotationMatrix 0 (t, p, z) = ((-1, 0, 0), (0, -1, 0), (0, 0, 1)) /\
  forall x y w : R, mat_vec (RandRotationMatrix 0 (t, p, z)) (x, y, w) = (- x, - y, w).
Proof.
  assert (E : RandRotationMatrix 0 (t, p, z) = ((-1, 0, 0), (0, -1, 0), (0, 0, 1))).
  { unfold RandRotationMatrix.
    replace (t * 2 * 0 * PI) with 0 by ring. replace (z * 2 * 0) with 0 by ring.
    rewrite sin_0, cos_0, sqrt_0. replace (2 - 0) with 2 by ring.
    assert (H2 : sqrt 2 * sqrt 2 = 2) by (apply sqrt_sqrt; lra).
    generalize dependent (sqrt 2). intros s Hs.
    mat_unfold. mat_ext; try ring; rewrite ?Rmult_0_l, ?Rmult_0_r; try lra;
      replace ((s * s - 1) * 1) with (s * s - 1) by ring; lra. }
  split; [exact E|]. intros x y w. rewrite E. mat_unfold. mat_ext; ring.
Qed.

(** ** Coulomb's law *)

Lemma norm_nonneg (v : vec3) : 0 <= norm v.
Proof. unfold norm. apply sqrt_pos. Qed.

Lemma norm_sq (v : vec3) : norm v * norm v = vx v * vx v + vy v * vy v + vz v * vz v.
Proof. unfold norm. apply sqrt_sqrt. nra. Qed.

Lemma norm_pos (a b : vec3) : a <> b -> 0 < norm (vsub a b).
Proof.
  intros Hne. destruct (Rle_lt_or_eq_dec 0 _ (norm_nonneg (vsub a b))) as [H|H]; [exact H|].
  exfalso. apply Hne.
  pose proof (norm_sq (vsub a b)) as Hs. rewrite <- H in Hs.
  destruct a as [[a1 a2] a3], b as [[b1 b2] b3]. vec_unfold.
  pose proof (Rle_0_sqr (a1 - b1)) as S1. pose proof (Rle_0_sqr (a2 - b2)) as S2.
  pose proof (Rle_0_sqr (a3 - b3)) as S3. unfold Rsqr in S1, S2, S3.
  assert (H1 : (a1 - b1) * (a1 - b1) = 0) by lra.
  assert (H2 : (a2 - b2) * (a2 - b2) = 0) by lra.
  assert (H3 : (a3 - b3) * (a3 - b3) = 0) by lra.
  apply Rmult_integral in H1, H2, H3.
  mat_ext; tauto || lra.
Qed.

Lemma norm_scaled (c : R) (v : vec3) : norm (vscale c v) = Rabs c * norm v.
Proof.
  unfold norm. destruct v as [[x y] z]. vec_unfold.
  replace (c * x * (c * x) + c * y * (c * y) + c * z * (c * z))
    with (Rsqr c * (x * x + y * y + z * z)) by (unfold Rsqr; ring).
  rewrite sqrt_mult; [|apply Rle_0_sqr | nra]. rewrite sqrt_Rsqr_abs. reflexivity.
Qed.

Lemma CoulombForce_scaled (r1 r2 : vec3) (q1 q2 : R) :
  CoulombForce r1 r2 q1 q2
  = vscale (k * q1 * q2 * (1 / norm (vsub r1 r2) ^ 3)) (vsub r1 r2).
Proof.
  unfold CoulombForce. generalize (norm (vsub r1 r2)). intros d.
  destruct (vsub r1 r2) as [[x y] z]. vec_unfold. mat_ext; ring.
Qed.

Lemma k_pos : 0 < k.
Proof. unfold k. lra. Qed.

(** X5: for charges at different places, the force of the second charge on
    the first is the opposite of the force of the first on the second. *)
Theorem CoulombForce_antisymmetric (r1 r2 : vec3) (q1 q2 : R) :
  r1 <> r2 ->
  CoulombForce r1 r2 q1 q2 = vscale (-1) (CoulombForce r2 r1 q2 q1).
Proof.
  intros _. rewrite !CoulombForce_scaled. rewrite (norm_vsub_sym r2 r1).
  generalize (norm (vsub r1 r2)). intros d.
  destruct r1 as [[a1 a2] a3], r2 as [[b1 b2] b3]. vec_unfold. mat_ext; ring.
Qed.

Lemma CoulombForce_antisymmetric_witness :
  CoulombForce (1, 0, 0) (0, 0, 0) e e = vscale (-1) (CoulombForce (0, 0, 0) (1, 0, 0) e e).
Proof.
  apply (CoulombForce_antisymmetric (1, 0, 0) (0, 0, 0) e e).
  intros H. injection H as H. lra.
Defined.

(** X6: for charges at different places the force has magnitude
    [k |q1 q2| / d^2], [d] the distance between them. *)
Theorem CoulombForce_inverse_square (r1 r2 : vec3) (q1 q2 : R) :
  r1 <> r2 ->
  norm (CoulombForce r1 r2 q1 q2) = k * Rabs (q1 * q2) / dist r1 r2 ^ 2.
Proof.
  intros Hne. pose proof (norm_pos r1 r2 Hne) as Hd. pose proof k_pos as Hk.
  rewrite CoulombForce_scaled, norm_scaled. unfold dist.
  set (d := norm (vsub r1 r2)) in *.
  assert (Hd3 : 0 < d ^ 3) by (apply pow_lt; exact Hd).
  replace (k * q1 * q2 * (1 / d ^ 3)) with (k * (q1 * q2) * / d ^ 3) by (field; lra).
  rewrite !Rabs_mult. rewrite (Rabs_right k) by lra.
  rewrite (Rabs_right (/ d ^ 3)) by (left; apply Rinv_0_lt_compat; exact Hd3).
  field. lra.
Qed.

Lemma CoulombForce_inverse_square_witness :
  norm (CoulombForce (1, 0, 0) (0, 0, 0) 2 3) = k * Rabs (2 * 3) / dist (1, 0, 0) (0, 0, 0) ^ 2.
Proof.
  apply CoulombForce_inverse_square. intros E. injection E as E. lra.
Defined.

(** X7: charges of the same sign repel and charges of opposite sign
    attract: the force on the first charge points away from the second when
    [q1 q2 > 0] and towards it when [q1 q2 < 0]. *)
Theorem CoulombForce_direction (r1 r2 : vec3) (q1 q2 : R) :
  r1 <> r2 ->
  (0 < q1 * q2 -> 0 < vdot (CoulombForce r1 r2 q1 q2) (vsub r1 r2)) /\
  (q1 * q2 < 0 -> vdot (CoulombForce r1 r2 q1 q2) (vsub r1 r2) < 0).
Proof.
  intros Hne. pose proof (norm_pos r1 r2 Hne) as Hd. pose proof k_pos as Hk.
  rewrite CoulombForce_scaled. pose proof (norm_sq (vsub r1 r2)) as Hs.
  set (d := norm (vsub r1 r2)) in *.
  assert (Hd3 : 0 < / d ^ 3) by (apply Rinv_0_lt_compat, pow_lt; exact Hd).
  assert (E : vdot (vscale (k * q1 * q2 * (1 / d ^ 3)) (vsub r1 r2)) (vsub r1 r2)
              = (k * / d ^ 3 * (d * d)) * (q1 * q2)).
  { rewrite Hs. destruct (vsub r1 r2) as [[x y] z]. vec_unfold. unfold Rdiv. ring. }
  rewrite E.
  assert (Hc : 0 < k * / d ^ 3 * (d * d)).
  { apply Rmult_lt_0_compat; [apply Rmult_lt_0_compat; assumption | nra]. }
  split; intros Hq.
  - apply Rmult_lt_0_compat; assumption.
  - rewrite <- (Rmult_0_r (k * / d ^ 3 * (d * d))).
    apply Rmult_lt_compat_l; assumption.
Qed.

Lemma CoulombForce_direction_witness :
  0 < vdot (CoulombForce (1, 0, 0) (0, 0, 0) e e) (vsub (1, 0, 0) (0, 0, 0)) /\
  vdot (CoulombForce (1, 0, 0) (0, 0, 0) e (- e)) (vsub (1, 0, 0) (0, 0, 0)) < 0.
Proof.
  assert (Hne : ((1, 0, 0) : vec3) <> (0, 0, 0)) by (intros E; injection E as E; lra).
  assert (He : 0 < e) by (unfold e; lra).
  split.
  - apply (proj1 (CoulombForce_direction (1, 0, 0) (0, 0, 0) e e Hne)). nra.
  - apply (proj2 (CoulombForce_direction (1, 0, 0) (0, 0, 0) e (- e) Hne)). nra.
Defined.

(** ** The Wigner function *)

Lemma exp_le_1 (x : R) : x <= 0 -> exp x <= 1.
Proof.
  intros H. destruct (Req_dec x 0) as [->|Hne]; [rewrite exp_0; lra|].
  rewrite <- exp_0. left. apply exp_increasing. lra.
Qed.

(** X8: for the ground state, and for any level that is not positive, the
    Wigner function lies in (0, 1] and is 1 at the origin: it can be
    compared with a uniform threshold as a probability. *)
Theorem calc_W_ground_range (P Q : R) (n : Z) :
  (n <= 0)%Z ->
  0 < calc_W P Q n <= 1 /\ calc_W 0 0 n = 1.
Proof.
  intros Hn. unfold calc_W.
  assert (E : (0 <? n)%Z = false) by (apply Z.ltb_ge; exact Hn). rewrite E.
  pose proof (exp_pos (- Q ^ 2)) as HQ. pose proof (exp_pos (- P ^ 2)) as HP.
  assert (HQ1 : exp (- Q ^ 2) <= 1) by (apply exp_le_1; nra).
  assert (HP1 : exp (- P ^ 2) <= 1) by (apply exp_le_1; nra).
  split; [split; nra|].
  replace (- 0 ^ 2) with 0 by ring. rewrite exp_0. ring.
Qed.

Lemma calc_W_ground_range_witness :
  0 < calc_W 1 2 (-3) <= 1 /\ calc_W 0 0 (-3) = 1.
Proof.
  apply calc_W_ground_range. lia.
Defined.

Lemma sum_f_R0_first (f : nat -> R) (n : nat) :
  (forall i : nat, f (S i) = 0) -> sum_f_R0 f n = f 0%nat.
Proof.
  intros H. induction n as [|n IH]; simpl; [reflexivity|]. rewrite IH, H. ring.
Qed.

Lemma laguerre_at_0 (n : nat) : laguerre n 0 = 1.
Proof.
  unfold laguerre. rewrite sum_f_R0_first.
  - unfold C. rewrite Nat.sub_0_r. simpl. field. apply INR_fact_neq_0.
  - intros i. simpl. ring.
Qed.

(** X9: for a level [n > 0] the Wigner function at the origin is [(-1)^n]:
    for an odd level it is -1 there, below every threshold. *)
Theorem calc_W_origin (n : Z) :
  (0 < n)%Z ->
  calc_W 0 0 n = (-1) ^ Z.to_nat n /\
  (Z.odd n = true -> calc_W 0 0 n = -1).
Proof.
  intros Hn.
  assert (E : calc_W 0 0 n = (-1) ^ Z.to_nat n).
  { unfold calc_W. apply Z.ltb_lt in Hn. rewrite Hn. cbv zeta.
    replace (2 * (0 ^ 2 + 0 ^ 2)) with 0 by ring.
    rewrite laguerre_at_0. replace (- 0 / 2) with 0 by field. rewrite exp_0. ring. }
  split; [exact E|]. intros Hodd. rewrite E.
  assert (Ho : Nat.odd (Z.to_nat n) = true).
  { rewrite <- (Z2Nat.id n) in Hodd by lia.
    rewrite <- Hodd. clear. generalize (Z.to_nat n). intros m.
    rewrite <- !Nat.negb_even, <- Z.negb_even. f_equal.
    induction m as [|m IH]; [reflexivity|].
    rewrite Nat.even_succ, Nat2Z.inj_succ, Z.even_succ.
    rewrite <- Nat.negb_even, <- Z.negb_even, IH. reflexivity. }
  apply Nat.odd_spec in Ho. destruct Ho as [m Hm]. rewrite Hm.
  replace (2 * m + 1)%nat with (S (2 * m)) by lia. apply pow_1_odd.
Qed.

Lemma calc_W_origin_witness :
  calc_W 0 0 3 = (-1) ^ Z.to_nat 3 /\ (Z.odd 3 = true -> calc_W 0 0 3 = -1).
Proof.
  apply calc_W_origin. lia.
Defined.

(** X10: the Wigner function depends on [P] and [Q] only through
    [P^2 + Q^2]. *)
Theorem calc_W_radial (P Q P' Q' : R) (n : Z) :
  P ^ 2 + Q ^ 2 = P' ^ 2 + Q' ^ 2 -> calc_W P Q n = calc_W P' Q' n.
Proof.
  intros H. unfold calc_W. destruct (0 <? n)%Z.
  - cbv zeta. rewrite H. reflexivity.
  - rewrite <- !exp_plus. f_equal. lra.
Qed.

Lemma calc_W_radial_witness : calc_W 3 4 2 = calc_W 5 0 2.
Proof.
  apply calc_W_radial. ring.
Defined.

(** ** Boltzmann populations *)

Lemma exp_nat_mult (x : R) (n : nat) : exp (INR n * x) = exp x ^ n.
Proof.
  induction n as [|n IH].
  - simpl. rewrite Rmult_0_l. apply exp_0.
  - rewrite S_INR. replace ((INR n + 1) * x) with (x + INR n * x) by ring.
    rewrite exp_plus, IH. reflexivity.
Qed.

Lemma boltzmann_factor_range (omega_cm temp : R) :
  0 < omega_cm -> 0 < temp -> 0 < boltzmann_factor omega_cm temp < 1.
Proof.
  intros Ho HT. unfold boltzmann_factor. split; [apply exp_pos|].
  rewrite <- exp_0. apply exp_increasing.
  pose proof (level_spacing_pos omega_cm temp Ho HT). lra.
Qed.

Lemma calc_Pn_geometric (omega_cm temp : R) (n : nat) :
  0 < omega_cm -> 0 < temp ->
  calc_Pn omega_cm temp (Z.of_nat n)
  = (1 - boltzmann_factor omega_cm temp) * boltzmann_factor omega_cm temp ^ n.
Proof.
  intros Ho HT. pose proof (boltzmann_factor_range omega_cm temp Ho HT) as Hq.
  unfold boltzmann_factor in *. rewrite <- exp_nat_mult.
  unfold calc_Pn, calc_canonical_partition, calc_vib_energy.
  destruct (Rlt_dec 0 temp); [|contradiction].
  assert (Hkb : 0 < kb) by (unfold kb; lra).
  rewrite <- INR_IZR_INZ.
  set (w := hbar * (omega_cm * c_cm_s * 2 * PI)).
  assert (Ea : level_spacing omega_cm temp = w / (kb * temp)) by reflexivity.
  rewrite Ea in *.
  replace (- (w * (INR n + 1 / 2)) / (kb * temp))
    with (- w / (2 * kb * temp) + INR n * - (w / (kb * temp))) by (field; nra).
  replace (- w / (kb * temp)) with (- (w / (kb * temp))) by (field; nra).
  rewrite exp_plus.
  pose proof (exp_pos (- w / (2 * kb * temp))) as Hh.
  generalize dependent (exp (- w / (2 * kb * temp))). intros h Hh.
  generalize (exp (INR n * - (w / (kb * temp)))). intros qn.
  generalize dependent (exp (- (w / (kb * temp)))). intros q Hq.
  field. split; lra.
Qed.

(** X11: at [T > 0] the populations of a mode of positive frequency form a
    geometric sequence: [calc_Pn(omega, T, n) = (1 - q) q^n] with
    [q = exp(-hbar omega / kb T)] strictly between 0 and 1; so every level
    has positive weight and each is less populated than the one below. *)
Theorem calc_Pn_geometric_sequence (omega_cm temp : R) (n : nat) :
  0 < omega_cm -> 0 < temp ->
  0 < boltzmann_factor omega_cm temp < 1 /\
  calc_Pn omega_cm temp (Z.of_nat n)
  = (1 - boltzmann_factor omega_cm temp) * boltzmann_factor omega_cm temp ^ n /\
  0 < calc_Pn omega_cm temp (Z.of_nat (S n)) < calc_Pn omega_cm temp (Z.of_nat n).
Proof.
  intros Ho HT. pose proof (boltzmann_factor_range omega_cm temp Ho HT) as Hq.
  split; [exact Hq|]. split; [apply calc_Pn_geometric; assumption|].
  rewrite !calc_Pn_geometric by assumption.
  set (q := boltzmann_factor omega_cm temp) in *.
  assert (Hn : 0 < q ^ n) by (apply pow_lt; lra).
  simpl pow. destruct Hq as [Hq0 Hq1].
  assert (Hb : 0 < (1 - q) * q ^ n) by (apply Rmult_lt_0_compat; lra).
  replace ((1 - q) * (q * q ^ n)) with (q * ((1 - q) * q ^ n)) by ring.
  split; [apply Rmult_lt_0_compat; assumption|].
  rewrite <- (Rmult_1_l ((1 - q) * q ^ n)) at 2.
  apply Rmult_lt_compat_r; assumption.
Qed.

Lemma calc_Pn_geometric_sequence_witness :
  0 < boltzmann_factor 1000 300 < 1 /\
  calc_Pn 1000 300 (Z.of_nat 2)
  = (1 - boltzmann_factor 1000 300) * boltzmann_factor 1000 300 ^ 2 /\
  0 < calc_Pn 1000 300 (Z.of_nat 3) < calc_Pn 1000 300 (Z.of_nat 2).
Proof.
  apply calc_Pn_geometric_sequence; lra.
Defined.

Lemma Rsum_snoc (l : list R) (x : R) : Rsum (l ++ [x]) = Rsum l + x.
Proof. unfold Rsum. rewrite fold_left_app. reflexivity. Qed.

Lemma Rsum_from (l : list R) (a : R) : fold_left Rplus l a = a + Rsum l.
Proof.
  unfold Rsum. revert a. induction l as [|x l IH]; intros a; simpl; [ring|].
  rewrite IH, (IH (0 + x)). ring.
Qed.

Lemma Rsum_scaled (l : list R) (s : R) : Rsum (map (fun x => x / s) l) = Rsum l / s.
Proof.
  induction l as [|x l IH]; simpl.
  - unfold Rsum. simpl. unfold Rdiv. ring.
  - unfold Rsum in *. simpl. rewrite Rsum_from, (Rsum_from l (0 + x)).
    unfold Rsum. rewrite IH. unfold Rdiv. ring.
Qed.

Lemma truncated_sum (omega_cm temp : R) (N : nat) :
  0 < omega_cm -> 0 < temp ->
  Rsum (map (fun n => calc_Pn omega_cm temp (Z.of_nat n)) (range N))
  = 1 - boltzmann_factor omega_cm temp ^ N.
Proof.
  intros Ho HT. unfold range. induction N as [|N IH].
  - unfold Rsum. simpl. ring.
  - rewrite seq_S, map_app. cbn [map Nat.add]. rewrite Rsum_snoc, IH.
    rewrite calc_Pn_geometric by assumption. simpl pow. ring.
Qed.

(** X12: the weights of the first [nmax] levels add up to [1 - q^nmax],
    short of 1, which is why they are divided by their sum before the
    draw; after that division they add up to 1. *)
Theorem truncated_populations (omega_cm temp : R) (N : nat) :
  0 < omega_cm -> 0 < temp -> (0 < N)%nat ->
  let Pn := map (fun n => calc_Pn omega_cm temp (Z.of_nat n)) (range N) in
  Rsum Pn = 1 - boltzmann_factor omega_cm temp ^ N /\
  0 < Rsum Pn < 1 /\
  Rsum (map (fun x => x / Rsum Pn) Pn) = 1.
Proof.
  intros Ho HT HN Pn. pose proof (boltzmann_factor_range omega_cm temp Ho HT) as Hq.
  assert (E : Rsum Pn = 1 - boltzmann_factor omega_cm temp ^ N)
    by (apply truncated_sum; assumption).
  set (q := boltzmann_factor omega_cm temp) in *.
  assert (HqN : 0 < q ^ N < 1).
  { split; [apply pow_lt; lra|].
    destruct N as [|N]; [lia|]. simpl.
    assert (0 < q ^ N <= 1).
    { split; [apply pow_lt; lra|]. rewrite <- (pow1 N). apply pow_incr. lra. }
    nra. }
  split; [exact E|]. split; [lra|].
  rewrite Rsum_scaled. field. lra.
Qed.

Lemma truncated_populations_witness :
  let Pn := map (fun n => calc_Pn 1000 300 (Z.of_nat n)) (range 5) in
  Rsum Pn = 1 - boltzmann_factor 1000 300 ^ 5 /\
  0 < Rsum Pn < 1 /\
  Rsum (map (fun x => x / Rsum Pn) Pn) = 1.
Proof.
  apply truncated_populations; try lra. lia.
Defined.

(** ** Evaluation times: closed form, counts and errors *)

Lemma nth_map_seq (f : nat -> R) (len start i : nat) (d : R) :
  (i < len)%nat -> nth i (map f (seq start len)) d = f (start + i)%nat.
Proof.
  revert start i. induction len as [|len IH]; intros start [|i] H; simpl; try lia.
  - f_equal. lia.
  - rewrite IH by lia. f_equal. lia.
Qed.

Lemma nth_linspace_samples (start stop : R) (num i : nat) :
  (2 <= num)%nat -> (i < num)%nat ->
  nth i (linspace_samples start stop num) 0
  = start + INR i * (stop - start) / INR (num - 1).
Proof.
  intros Hn Hi. destruct num as [|[|d]]; try lia.
  unfold linspace_samples; lazy beta iota.
  replace (S (S d) - 1)%nat with (S d) by lia.
  assert (Hd : INR (S d) <> 0) by (apply not_0_INR; lia).
  destruct (Nat.eq_dec i (S d)) as [->|Hne].
  - rewrite app_nth2; rewrite length_map, length_seq; [|lia].
    rewrite Nat.sub_diag. simpl nth. field. exact Hd.
  - rewrite app_nth1 by (rewrite length_map, length_seq; lia).
    rewrite nth_map_seq by lia. cbn [Nat.add]. field. exact Hd.
Qed.

(** X13: for a single range [(t1, t2)] with two or more points,
    [make_timebins] stores exactly that many evaluation times, evenly
    spaced with both ends included: the [i]-th is
    [t1 + i (t2 - t1) / (n - 1)], the first is [t1] and the last is [t2]. *)
Theorem make_timebins_single_range (self : CE_sim) (t1 t2 : R) (n : Z) :
  (2 <= n)%Z ->
  exists (sim' : CE_sim) (times : list R),
    make_timebins self [(t1, t2)] [n] = Ok sim' /\
    timebins sim' = Some times /\
    n_t_steps sim' = Some (Z.to_nat n) /\
    (forall i : nat, (i < Z.to_nat n)%nat ->
       nth i times 0 = t1 + INR i * (t2 - t1) / INR (Z.to_nat n - 1)) /\
    nth 0 times 0 = t1 /\
    nth (Z.to_nat n - 1) times 0 = t2.
Proof.
  intros Hn.
  assert (Hn' : (2 <= Z.to_nat n)%nat) by lia.
  assert (Hd : INR (Z.to_nat n - 1) <> 0) by (apply not_0_INR; lia).
  pose proof (length_linspace_samples t1 t2 (Z.to_nat n)) as Hlen.
  destruct (linspace_samples t1 t2 (Z.to_nat n)) as [|x l] eqn:Es; [simpl in Hlen; lia|].
  eexists. exists (x :: l). split.
  - apply (make_timebins_Ok self [(t1, t2)] [n] x l); [repeat constructor; lia|].
    cbn [combine map concat fst snd]. rewrite Es. apply app_nil_r.
  - cbn [timebins n_t_steps]. split; [reflexivity|]. split; [rewrite Hlen; reflexivity|].
    rewrite <- Es. split; [intros i Hi; apply nth_linspace_samples; assumption|].
    split.
    + rewrite nth_linspace_samples by lia. simpl INR. field. exact Hd.
    + rewrite nth_linspace_samples by lia. field. exact Hd.
Qed.

Lemma make_timebins_single_range_witness :
  exists (sim' : CE_sim) (times : list R),
    make_timebins example_sim [(1, 5)] [5%Z] = Ok sim' /\
    timebins sim' = Some times /\
    n_t_steps sim' = Some (Z.to_nat 5) /\
    (forall i : nat, (i < Z.to_nat 5)%nat ->
       nth i times 0 = 1 + INR i * (5 - 1) / INR (Z.to_nat 5 - 1)) /\
    nth 0 times 0 = 1 /\
    nth (Z.to_nat 5 - 1) times 0 = 5.
Proof.
  apply (make_timebins_single_range example_sim 1 5 5). lia.
Defined.

Lemma linspace_cases (start stop : R) (num : Z) :
  (num < 0)%Z /\ linspace start stop num = Raise ValueError \/
  (0 <= num)%Z /\ linspace start stop num = Ok (linspace_samples start stop (Z.to_nat num)).
Proof.
  destruct (Z.ltb_spec num 0) as [H|H].
  - left. split; [exact H|]. unfold linspace. apply Z.ltb_lt in H. rewrite H. reflexivity.
  - right. split; [exact H | apply linspace_Ok; exact H].
Qed.

Lemma map_outcome_linspace_negative (pairs : list (R * R * Z)) :
  Exists (fun rn => (snd rn < 0)%Z) pairs ->
  map_outcome (fun rn => linspace (fst (fst rn)) (snd (fst rn)) (snd rn)) pairs
  = Raise ValueError.
Proof.
  induction 1 as [rn l Hneg | rn l Hex IH]; cbn [map_outcome].
  - destruct (linspace_cases (fst (fst rn)) (snd (fst rn)) (snd rn)) as [[_ E]|[Hpos _]];
      [|lia]. rewrite E. reflexivity.
  - rewrite IH.
    destruct (linspace_cases (fst (fst rn)) (snd (fst rn)) (snd rn)) as [[_ E]|[_ E]];
      rewrite E; reflexivity.
Qed.

Lemma concat_nil_length (l : list (list R)) : concat l = [] -> length (concat l) = 0%nat.
Proof. intros E. rewrite E. reflexivity. Qed.

Lemma length_concat_linspace (ranges : list (R * R)) (counts : list Z) :
  length (concat (map (fun rn : R * R * Z =>
                         linspace_samples (fst (fst rn)) (snd (fst rn)) (Z.to_nat (snd rn)))
                      (combine ranges counts)))
  = requested_samples ranges counts.
Proof.
  unfold requested_samples. induction (combine ranges counts) as [|rn l IH]; simpl.
  - reflexivity.
  - rewrite length_app, length_linspace_samples, IH. reflexivity.
Qed.

(** X14: [make_timebins] raises [ValueError] when one of the paired point
    counts is negative, and also when the pairs ask for no sample at all
    (empty lists, or all counts zero). *)
Theorem make_timebins_errors (self : CE_sim) (ranges : list (R * R)) (counts : list Z) :
  (Exists (fun rn => (snd rn < 0)%Z) (combine ranges counts) ->
   make_timebins self ranges counts = Raise ValueError) /\
  (Forall (fun n => (0 <= n)%Z) counts -> requested_samples ranges counts = 0%nat ->
   make_timebins self ranges counts = Raise ValueError).
Proof.
  split.
  - intros Hex. unfold make_timebins. rewrite map_outcome_linspace_negative by exact Hex.
    reflexivity.
  - intros Hc Hz. unfold make_timebins. rewrite (make_timebins_run self ranges counts Hc).
    cbn [bind]. rewrite <- length_concat_linspace in Hz.
    destruct (map _ (combine ranges counts)) as [|t0 ts] eqn:E.
    + reflexivity.
    + unfold np_concatenate. cbn [bind].
      destruct (concat (t0 :: ts)) as [|x l]; [reflexivity | simpl in Hz; lia].
Qed.

Lemma make_timebins_errors_witness :
  make_timebins example_sim [(0, 1); (1, 5)] [3%Z; (-5)%Z] = Raise ValueError /\
  make_timebins example_sim [(0, 1); (1, 5)] [] = Raise ValueError.
Proof.
  split.
  - apply (proj1 (make_timebins_errors example_sim [(0, 1); (1, 5)] [3%Z; (-5)%Z])).
    simpl. apply Exists_cons_tl. apply Exists_cons_hd. simpl. lia.
  - apply (proj2 (make_timebins_errors example_sim [(0, 1); (1, 5)] [])).
    + constructor.
    + reflexivity.
Defined.

(** X15: when no paired count is negative and at least one sample is asked
    for, [make_timebins] returns, the stored count is the sum of the paired
    counts (ranges or counts beyond the shorter list are ignored), and the
    stored minimum is at most the stored maximum. *)
Theorem make_timebins_count (self : CE_sim) (ranges : list (R * R)) (counts : list Z) :
  Forall (fun n => (0 <= n)%Z) counts ->
  (0 < requested_samples ranges counts)%nat ->
  exists (sim' : CE_sim) (times : list R) (lo hi : R),
    make_timebins self ranges counts = Ok sim' /\
    timebins sim' = Some times /\ length times = requested_samples ranges counts /\
    n_t_steps sim' = Some (requested_samples ranges counts) /\
    tmin sim' = Some lo /\ tmax sim' = Some hi /\ lo <= hi /\
    sim_starting_conditions sim' = sim_starting_conditions self /\
    sim_counter sim' = sim_counter self.
Proof.
  intros Hc Hpos. rewrite <- length_concat_linspace in *.
  destruct (concat _) as [|x l] eqn:E; [simpl in Hpos; lia|].
  rewrite (make_timebins_Ok self ranges counts x l Hc E).
  eexists. exists (x :: l). eexists. eexists.
  split; [reflexivity|]. repeat split.
  destruct (fold_left_Rmin_spec l x) as [_ Hmin].
  destruct (fold_left_Rmax_spec l x) as [Hin _].
  rewrite Forall_forall in Hmin. apply Hmin. exact Hin.
Qed.

Lemma make_timebins_count_witness :
  exists (sim' : CE_sim) (times : list R) (lo hi : R),
    make_timebins example_sim [(0, 1); (1, 5); (7, 9)] [3%Z; 5%Z] = Ok sim' /\
    timebins sim' = Some times /\
    length times = requested_samples [(0, 1); (1, 5); (7, 9)] [3%Z; 5%Z] /\
    n_t_steps sim' = Some (requested_samples [(0, 1); (1, 5); (7, 9)] [3%Z; 5%Z]) /\
    tmin sim' = Some lo /\ tmax sim' = Some hi /\ lo <= hi /\
    sim_starting_conditions sim' = sim_starting_conditions example_sim /\
    sim_counter sim' = sim_counter example_sim.
Proof.
  apply make_timebins_count.
  - repeat constructor; lia.
  - unfold requested_samples. simpl. lia.
Defined.

(** ** Channel lists that are accepted *)

Lemma bindM_Raise {A B : Type} (m : M A) (f : A -> M B) (tape : list R) (err : exn) :
  m tape = Raise err -> bindM m f tape = Raise err.
Proof. intros E. unfold bindM. rewrite E. reflexivity. Qed.

Lemma Rltb_true (x y : R) : x < y -> Rltb x y = true.
Proof. intros H. unfold Rltb. destruct (Rlt_dec x y); [reflexivity | contradiction]. Qed.

Lemma set_channel_list_good (self : starting_conditions) (channels : list Channel.ce_channel) :
  Rabs (Rsum (map Channel.p channels) - 1) <= 0.001 ->
  set_channel_list self channels
  = (mk_starting_conditions (eq_geometry self) true (Some channels)
       (Some (map Channel.p channels))
       (method self) (n_geoms self) (random_rotate self) (T self) (wigner_sample_max self)
       (nmax self) (sigma self) (n_list self) (Pn_arr self) (samp_n_list self)
       (samp_q_list self) (samp_y0_list self) (samp_charges_list self)
       (samp_masses_list self) (samp_channel_list self), []).
Proof.
  intros H. unfold set_channel_list. rewrite Rltb_false by lra. reflexivity.
Qed.

Lemma existsb_Exists_neg (ps : list R) :
  Exists (fun x => x < 0) ps -> existsb (fun x => Rltb x 0) ps = true.
Proof.
  induction 1 as [x l H | x l _ IH]; simpl.
  - rewrite Rltb_true by exact H. reflexivity.
  - rewrite IH. apply orb_true_r.
Qed.

Lemma random_choice_refuses {A : Type} (a : list A) (ps : list R) (tape : list R) :
  a <> [] -> length ps = length a ->
  choice_atol < Rabs (Rsum ps - 1) \/ Exists (fun x => x < 0) ps ->
  random_choice a ps tape = Raise ValueError.
Proof.
  intros Ha Hl Hbad. unfold random_choice. destruct a as [|a0 a]; [congruence|].
  rewrite Hl, Nat.eqb_refl. cbn [negb].
  destruct (existsb (fun x => Rltb x 0) ps) eqn:En; [reflexivity|].
  destruct Hbad as [Hs|Hneg].
  - rewrite Rltb_true by exact Hs. reflexivity.
  - rewrite existsb_Exists_neg in En by exact Hneg. discriminate.
Qed.

(** X16: the tolerance of [set_channel_list] is looser than that of the
    draw.  A non-empty channel list whose probabilities sum to 1 within
    1e-3 is accepted; but if the sum is off by more than the tolerance of
    [np.random.choice], or one probability is negative, every later
    [generate_pool] of at least one trajectory raises [ValueError] at the
    first draw of a channel. *)
Theorem accepted_channels_refused (self : starting_conditions)
        (channels : list Channel.ce_channel) (n : nat) (rotate : bool) (sig : sigma_t)
        (sample_max temp : R) (n_max : nat) (tape : list R) :
  channels <> [] ->
  Rabs (Rsum (map Channel.p channels) - 1) <= 0.001 ->
  choice_atol < Rabs (Rsum (map Channel.p channels) - 1) \/
  Exists (fun x => x < 0) (map Channel.p channels) ->
  multi_channel (fst (set_channel_list self channels)) = true /\
  generate_pool (fst (set_channel_list self channels)) (S n) "gaussian" rotate sig
                sample_max temp n_max tape
  = Raise ValueError.
Proof.
  intros Hne Hacc Hbad. rewrite (set_channel_list_good self channels Hacc). cbn [fst].
  split; [reflexivity|]. unfold generate_pool.
  change (String.eqb "gaussian" "wigner") with false.
  change (String.eqb "gaussian" "gaussian") with true. cbv iota.
  erewrite bindM_Ok_eq by reflexivity. cbn [eq_geometry].
  destruct (com_geometry_Ok (eq_geometry self)) as [c Ec]. rewrite Ec.
  erewrite bindM_Ok_eq by reflexivity. cbn [andb].
  erewrite bindM_Ok_eq by reflexivity.
  apply bindM_Raise. unfold range. cbn [seq for_eachM]. apply bindM_Raise.
  unfold trajectory. apply bindM_Raise. unfold charges_and_masses.
  cbn [multi_channel channel_list channel_p_list].
  erewrite bindM_Ok_eq by reflexivity. erewrite bindM_Ok_eq by reflexivity.
  apply bindM_Raise. apply random_choice_refuses; [exact Hne | apply length_map | exact Hbad].
Qed.

Lemma accepted_channels_refused_witness :
  multi_channel (fst (set_channel_list example_sampler
                        [Channel.mk [1] (1 / 2) "a"; Channel.mk [2] (5005 / 10000) "b"])) = true /\
  generate_pool (fst (set_channel_list example_sampler
                        [Channel.mk [1] (1 / 2) "a"; Channel.mk [2] (5005 / 10000) "b"]))
                1 "gaussian" false (SigmaNumber 0) 3 0 5 [0; 0; 0; 0]
  = Raise ValueError.
Proof.
  assert (E : Rsum (map Channel.p [Channel.mk [1] (1 / 2) "a"; Channel.mk [2] (5005 / 10000) "b"])
              - 1 = 5 / 10000) by (unfold Rsum; simpl; lra).
  apply accepted_channels_refused.
  - discriminate.
  - rewrite E, Rabs_right; lra.
  - left. rewrite E, Rabs_right by lra. unfold choice_atol.
    apply (Rmult_lt_reg_r (2 ^ 26)); [apply pow_lt; lra|].
    rewrite Rinv_l by (apply Rgt_not_eq, pow_lt; lra). simpl. lra.
Defined.

(** X17: a rejected channel list does not undo an accepted one: after a
    good list has been set, a bad one leaves the sampler in multi-channel
    mode with the good list and its probabilities. *)
Theorem rejected_after_accepted (self : starting_conditions)
        (good bad : list Channel.ce_channel) :
  Rabs (Rsum (map Channel.p good) - 1) <= 0.001 ->
  0.001 < Rabs (Rsum (map Channel.p bad) - 1) ->
  let after := fst (set_channel_list (fst (set_channel_list self good)) bad) in
  multi_channel after = true /\
  channel_list after = Some good /\
  channel_p_list after = Some (map Channel.p good).
Proof.
  intros Hg Hb after. unfold after.
  rewrite (set_channel_list_bad _ bad Hb). cbn [fst].
  rewrite (set_channel_list_good self good Hg). cbn [fst]. repeat split.
Qed.

Lemma rejected_after_accepted_witness :
  let after := fst (set_channel_list
                      (fst (set_channel_list example_sampler [Channel.mk [1] 1 "only"]))
                      []) in
  multi_channel after = true /\
  channel_list after = Some [Channel.mk [1] 1 "only"] /\
  channel_p_list after = Some (map Channel.p [Channel.mk [1] 1 "only"]).
Proof.
  apply rejected_after_accepted.
  - unfold Rsum. simpl. replace (0 + 1 - 1) with 0 by ring. rewrite Rabs_R0. lra.
  - unfold Rsum. simpl. replace (0 - 1) with (- (1)) by ring.
    rewrite Rabs_Ropp, Rabs_R1. lra.
Defined.

(** ** How [generate_pool] fails *)

Lemma bind_Raise {A B : Type} (m : outcome A) (f : A -> outcome B) (err : exn) :
  m = Raise err -> bind m f = Raise err.
Proof. intros E. rewrite E. reflexivity. Qed.

Lemma range_S (n : nat) : range (S n) = 0%nat :: seq 1 n.
Proof. reflexivity. Qed.

Lemma fill_y0_no_positions (g : geometry) :
  (0 < natoms g)%nat -> fill_y0 g [] = Raise IndexError.
Proof.
  intros H. unfold fill_y0. destruct (natoms g) as [|N]; [lia|].
  rewrite range_S. reflexivity.
Qed.

(** X18: a [method] that is neither ['gaussian'] nor ['wigner'] is not
    refused as such: for a geometry with atoms the positions stay empty and
    the first trajectory raises [IndexError] when the state vector is
    filled. *)
Theorem generate_pool_unknown_method (self : starting_conditions) (n : nat) (meth : string)
        (rotate : bool) (sig : sigma_t) (sample_max temp : R) (n_max : nat) (tape : list R) :
  String.eqb meth "gaussian" = false -> String.eqb meth "wigner" = false ->
  multi_channel self = false ->
  (0 < natoms (eq_geometry self))%nat ->
  (rotate = true -> (3 <= length tape)%nat) ->
  generate_pool self (S n) meth rotate sig sample_max temp n_max tape = Raise IndexError.
Proof.
  intros Hg Hw Hmc HN Ht. unfold generate_pool. rewrite Hg, Hw. cbv iota.
  erewrite bindM_Ok_eq by reflexivity.
  destruct (com_geometry_Ok (eq_geometry self)) as [c Ec]. rewrite Ec.
  erewrite bindM_Ok_eq by reflexivity. cbn [andb].
  erewrite bindM_Ok_eq by reflexivity.
  apply bindM_Raise. rewrite range_S. cbn [for_eachM]. apply bindM_Raise.
  unfold trajectory, charges_and_masses. rewrite Hmc, Hg, Hw.
  erewrite bindM_Ok_eq by reflexivity. cbv beta iota.
  erewrite bindM_Ok_eq by reflexivity. cbv beta iota.
  destruct rotate.
  - destruct (random_rotation_Ok [] tape (Ht eq_refl)) as [rr [t2 [E2 [Hrr _]]]].
    destruct rr; [|simpl in Hrr; lia].
    erewrite bindM_Ok_eq by exact E2.
    apply bindM_Raise. rewrite fill_y0_no_positions by exact HN. reflexivity.
  - erewrite bindM_Ok_eq by reflexivity.
    apply bindM_Raise. rewrite fill_y0_no_positions by exact HN. reflexivity.
Qed.

Lemma generate_pool_unknown_method_witness :
  generate_pool example_sampler 1 "Gaussian" true (SigmaNumber 0) 3 0 5 [0; 0; 0]
  = Raise IndexError.
Proof.
  apply generate_pool_unknown_method; try reflexivity; intros; simpl; lia.
Defined.

(** X19: a [sigma] array that has neither one entry nor one entry per atom
    is not refused as such: in gaussian mode, for a geometry with atoms, the
    first trajectory raises [UnboundLocalError] for [blur_sigma]. *)
Theorem generate_pool_bad_sigma (self : starting_conditions) (n : nat) (rotate : bool)
        (a : list R) (sample_max temp : R) (n_max : nat) (tape : list R) :
  multi_channel self = false ->
  (0 < natoms (eq_geometry self))%nat ->
  length a <> 1%nat -> length a <> natoms (eq_geometry self) ->
  generate_pool self (S n) "gaussian" rotate (SigmaArray a) sample_max temp n_max tape
  = Raise (UnboundLocalError "blur_sigma").
Proof.
  intros Hmc HN H1 H2. unfold generate_pool.
  change (String.eqb "gaussian" "wigner") with false.
  change (String.eqb "gaussian" "gaussian") with true. cbv iota.
  erewrite bindM_Ok_eq by reflexivity.
  destruct (com_geometry_Ok (eq_geometry self)) as [c Ec]. rewrite Ec.
  erewrite bindM_Ok_eq by reflexivity. cbn [andb].
  erewrite bindM_Ok_eq by reflexivity.
  apply bindM_Raise. rewrite range_S. cbn [for_eachM]. apply bindM_Raise.
  unfold trajectory, charges_and_masses. rewrite Hmc.
  erewrite bindM_Ok_eq by reflexivity. cbv beta iota.
  change (String.eqb "gaussian" "gaussian") with true. cbv iota.
  apply bindM_Raise. apply bindM_Raise.
  unfold gaussian_positions. cbn [atom_coords_com].
  erewrite bindM_Ok_eq by reflexivity. cbn [natoms].
  destruct (natoms (eq_geometry self)) as [|N] eqn:EN; [lia|].
  rewrite range_S. cbn [for_eachM]. apply bindM_Raise.
  erewrite bindM_Ok_eq by reflexivity.
  apply bindM_Raise. unfold blur_sigma_of, sigma_to_array, sigma_shape0. cbn [bind natoms].
  apply Nat.eqb_neq in H1, H2. rewrite H1, H2. reflexivity.
Qed.

Lemma generate_pool_bad_sigma_witness :
  generate_pool example_sampler 1 "gaussian" false (SigmaArray [1; 2; 3]) 3 0 5 []
  = Raise (UnboundLocalError "blur_sigma").
Proof.
  apply generate_pool_bad_sigma; try reflexivity; simpl; lia.
Defined.

Lemma geometry_init_no_modes (coords : list vec3) (masses : list R)
      (modes : list (list vec3)) (freqs : list R) (g : geometry) :
  geometry_init coords masses modes freqs = Ok g ->
  nmodes g = None /\ nmodes_weighted g = None /\ natoms g = length coords /\
  atom_coords g = coords /\ atom_masses g = masses.
Proof.
  unfold geometry_init. destruct (modes_any modes).
  - destruct (check_normal_modes _ 0.05 true) as [[g' rep]| |] eqn:E; cbn [bind];
      try discriminate.
    exfalso. exact (check_normal_modes_never_returns _ _ _ _ E).
  - cbn [bind]. intros E. injection E as <-. destruct (reals_any freqs); repeat split.
Qed.

(** X20: no geometry that the constructor returns can be sampled in wigner
    mode.  A constructor call that supplies modes does not return, and one
    that returns has no [nmodes] attribute, so [generate_pool] with
    [method='wigner'] raises [AttributeError] whatever its other
    arguments. *)
Theorem constructed_geometry_no_wigner (coords : list vec3) (masses : list R)
        (modes : list (list vec3)) (freqs : list R) (g : geometry) (n : nat) (rotate : bool)
        (sig : sigma_t) (sample_max temp : R) (n_max : nat) (tape : list R) :
  geometry_init coords masses modes freqs = Ok g ->
  generate_pool (starting_conditions_init g) n "wigner" rotate sig sample_max temp n_max tape
  = Raise (AttributeError "nmodes").
Proof.
  intros E. apply geometry_init_no_modes in E. destruct E as [Hm _].
  unfold generate_pool. change (String.eqb "wigner" "wigner") with true. cbv iota.
  apply bindM_Raise. unfold wigner_preconditions.
  cbn [eq_geometry starting_conditions_init]. rewrite Hm. reflexivity.
Qed.

Lemma constructed_geometry_no_wigner_witness :
  exists g,
    geometry_init [(0, 0, 0); (1, 0, 0)] [1; 1] [] [1000] = Ok g /\
    generate_pool (starting_conditions_init g) 10 "wigner" true (SigmaNumber 0) 3 300 5
                  [1 / 2; 1 / 3]
    = Raise (AttributeError "nmodes").
Proof.
  assert (H : exists g, geometry_init [(0, 0, 0); (1, 0, 0)] [1; 1] [] [1000] = Ok g).
  { unfold geometry_init. cbn [modes_any existsb bind]. eexists. reflexivity. }
  destruct H as [g E]. exists g. split; [exact E|].
  eapply constructed_geometry_no_wigner. exact E.
Defined.

(** ** Gaussian sampling with zero width *)

Lemma for_eachM_seq_Ok_inv {S : Type} (body : nat -> S -> M S) (Inv : nat -> S -> Prop) :
  forall len start s tape s' tape',
    Inv start s ->
    (forall n s tape s' tape', (start <= n < start + len)%nat -> Inv n s ->
        body n s tape = Ok (s', tape') -> Inv (Datatypes.S n) s') ->
    for_eachM (seq start len) body s tape = Ok (s', tape') -> Inv (start + len)%nat s'.
Proof.
  induction len as [|len IH]; intros start s tape s' tape' H0 Hstep E; simpl in E.
  - apply ret_Ok in E. injection E as -> ->. rewrite Nat.add_0_r. exact H0.
  - apply bindM_Ok in E. destruct E as [s1 [t1 [E1 E]]].
    replace (start + Datatypes.S len)%nat with (Datatypes.S start + len)%nat by lia.
    apply (IH (Datatypes.S start) s1 t1 s' tape'); [| |exact E].
    + apply (Hstep start s tape s1 t1); [lia | exact H0 | exact E1].
    + intros n s2 t2 s3 t3 Hn. apply Hstep. lia.
Qed.

Lemma firstn_snoc {A : Type} (l : list A) (n : nat) (x : A) :
  nth_error l n = Some x -> firstn (S n) l = firstn n l ++ [x].
Proof.
  revert n. induction l as [|a l IH]; intros [|n] H; simpl in *; try discriminate.
  - injection H as ->. reflexivity.
  - f_equal. apply IH. exact H.
Qed.

Lemma normal_Ok_inv (loc scale : R) (tape : list R) (x : R) (tape' : list R) :
  normal loc scale tape = Ok (x, tape') -> exists g, x = loc + scale * g.
Proof.
  unfold normal. destruct (Rlt_dec scale 0); [discriminate|].
  intros E. apply bindM_Ok in E. destruct E as [g [t1 [_ E]]].
  apply ret_Ok in E. injection E as -> _. eauto.
Qed.

Lemma gaussian_positions_zero (g : geometry) (coords : list vec3) (tape : list R)
      (r_list : list vec3) (tape' : list R) :
  atom_coords_com g = Some coords ->
  gaussian_positions g (Some (SigmaArray [0])) tape = Ok (r_list, tape') ->
  r_list = map (fun c => vmuls c 1e-10) (firstn (natoms g) coords) /\
  (natoms g <= length coords)%nat.
Proof.
  intros Hc E. unfold gaussian_positions in E. rewrite Hc in E.
  apply bindM_Ok in E. destruct E as [coords' [t1 [E1 E]]].
  apply lift_Ok in E1. destruct E1 as [E1 _]. injection E1 as <-.
  unfold range in E.
  apply (for_eachM_seq_Ok_inv _
           (fun n r_list => r_list = map (fun c => vmuls c 1e-10) (firstn n coords) /\
                            (n <= length coords)%nat)) in E.
  - exact E.
  - split; [reflexivity | lia].
  - clear. intros n r_list tape r_list' tape' _ [Hr Hn] E.
    apply bindM_Ok in E. destruct E as [s [t1 [Es E]]].
    apply lift_Ok in Es. destruct Es as [Es _]. injection Es as <-.
    apply bindM_Ok in E. destruct E as [b [t2 [Eb E]]].
    apply lift_Ok in Eb. destruct Eb as [Eb _]. cbn [fst] in Eb.
    unfold blur_sigma_of, sigma_shape0 in Eb. cbn [bind length Nat.eqb get nth_error] in Eb.
    injection Eb as <-.
    apply bindM_Ok in E. destruct E as [c [t3 [Ec E]]].
    apply lift_Ok in Ec. destruct Ec as [Ec _]. cbn [fst] in Ec. apply get_Ok in Ec.
    apply bindM_Ok in E. destruct E as [dx [t4 [Ex E]]]. apply normal_Ok_inv in Ex.
    apply bindM_Ok in E. destruct E as [dy [t5 [Ey E]]]. apply normal_Ok_inv in Ey.
    apply bindM_Ok in E. destruct E as [dz [t6 [Ez E]]]. apply normal_Ok_inv in Ez.
    apply ret_Ok in E. injection E as -> _.
    destruct Ex as [gx ->], Ey as [gy ->], Ez as [gz ->].
    split.
    + rewrite (firstn_snoc coords n c Ec), map_app, Hr. cbn [map].
      apply (f_equal (fun x => map (fun c0 => vmuls c0 1e-10) (firstn n coords) ++ [x])).
      destruct c as [[c1 c2] c3]. vec_unfold. mat_ext; ring.
    + apply Nat.lt_succ_r. apply le_n_S. apply Nat.lt_succ_r.
      apply le_n_S. apply nth_error_Some. rewrite Ec. discriminate.
Qed.

Lemma trajectory_sigma_zero (self : starting_conditions) (g : geometry) (sample_max temp : R)
      (table : option (list (list R))) (levels : option (list Z)) (coords : list vec3)
      (acc : pool) (tape : list R) (acc' : pool) (tape' : list R) :
  atom_coords_com g = Some coords ->
  trajectory self g "gaussian" false (Some (SigmaArray [0])) sample_max temp table levels
             acc tape = Ok (acc', tape') ->
  exists y0, pool_y0 acc' = pool_y0 acc ++ [y0] /\
             forall j : nat, (j < natoms g)%nat ->
               pos y0 j = vmuls (nth j coords vzero) 1e-10.
Proof.
  intros Hc E. unfold trajectory in E.
  apply bindM_Ok in E. destruct E as [[charges masses] [t1 [_ E]]].
  change (String.eqb "gaussian" "gaussian") with true in E. cbv iota in E.
  apply bindM_Ok in E. destruct E as [[[r_list ns] qs] [t2 [Er E]]].
  apply bindM_Ok in Er. destruct Er as [r_list' [t2' [Eg Er]]].
  apply ret_Ok in Er. injection Er as -> _ _ _.
  apply (gaussian_positions_zero g coords _ _ _ Hc) in Eg. destruct Eg as [Hr Hn].
  apply bindM_Ok in E. destruct E as [r_list_rot [t3 [Erot E]]].
  apply ret_Ok in Erot. injection Erot as -> _.
  apply bindM_Ok in E. destruct E as [y0 [t4 [Ey E]]].
  apply lift_Ok in Ey. destruct Ey as [Ey _]. cbn [fst] in Ey. apply fill_y0_shape in Ey.
  apply ret_Ok in E. injection E as -> _.
  exists y0. split; [reflexivity|].
  intros j Hj. destruct Ey as [_ [Hpos _]]. destruct (Hpos j Hj) as [r [Hr' Hp]].
  rewrite Hp. rewrite Hr in Hr'.
  rewrite nth_error_map, nth_error_firstn in Hr'.
  destruct (Nat.ltb_spec j (natoms g)) as [_|Hge]; [|lia].
  rewrite (nth_error_nth' coords vzero) in Hr' by lia.
  cbn [option_map] in Hr'. injection Hr' as <-. reflexivity.
Qed.

Lemma pool_sigma_zero_step (self : starting_conditions) (g : geometry) (sample_max temp : R)
      (table : option (list (list R))) (levels : option (list Z)) (coords : list vec3)
      (k : nat) (acc : pool) (tape : list R) (acc' : pool) (tape' : list R) :
  atom_coords_com g = Some coords ->
  length (pool_y0 acc) = k /\
  Forall (fun y0 => forall j : nat, (j < natoms g)%nat ->
                      pos y0 j = vmuls (nth j coords vzero) 1e-10) (pool_y0 acc) ->
  trajectory self g "gaussian" false (Some (SigmaArray [0])) sample_max temp table levels
             acc tape = Ok (acc', tape') ->
  length (pool_y0 acc') = S k /\
  Forall (fun y0 => forall j : nat, (j < natoms g)%nat ->
                      pos y0 j = vmuls (nth j coords vzero) 1e-10) (pool_y0 acc').
Proof.
  intros Hc [Hl Hall] E.
  destruct (trajectory_sigma_zero self g sample_max temp table levels coords acc tape acc'
              tape' Hc E) as [y0 [Hy Hp]].
  rewrite Hy. split.
  - rewrite length_app. simpl. lia.
  - apply Forall_app. split; [exact Hall|]. constructor; [exact Hp | constructor].
Qed.

(** X21: with [sigma = 0], gaussian sampling without rotation of a geometry
    whose masses do not sum to zero reproduces the centred equilibrium
    geometry exactly, whatever the normal deviates drawn: every state vector
    holds the centred coordinates times 1e-10. *)
Theorem gaussian_sigma_zero (self : starting_conditions) (n : nat) (sample_max temp : R)
        (n_max : nat) (tape : list R) :
  multi_channel self = false ->
  natoms (eq_geometry self) = length (atom_coords (eq_geometry self)) ->
  paired_mass (atom_coords (eq_geometry self)) (atom_masses (eq_geometry self)) <> 0 ->
  (n * (3 * natoms (eq_geometry self)) <= length tape)%nat ->
  exists (self' : starting_conditions) (tape' : list R) (centred : list vec3)
         (y0s : list (list R)),
    generate_pool self n "gaussian" false (SigmaNumber 0) sample_max temp n_max tape
    = Ok (self', tape') /\
    atom_coords_com (eq_geometry self') = Some centred /\
    samp_y0_list self' = Some y0s /\ length y0s = n /\
    Forall (fun y0 => forall j : nat, (j < natoms (eq_geometry self))%nat ->
                        pos y0 j = vmuls (nth j centred vzero) 1e-10) y0s.
Proof.
  intros Hmc HN _ Ht.
  destruct (generate_pool_gaussian_Ok self n false (SigmaNumber 0) sample_max temp n_max tape)
    as [self' [tape' E]]; try assumption.
  { exists [0]. split; [reflexivity|]. split; [repeat constructor; lra | left; reflexivity]. }
  { unfold draws_per_trajectory. lia. }
  exists self', tape'. pose proof E as E0. unfold generate_pool in E.
  change (String.eqb "gaussian" "wigner") with false in E.
  change (String.eqb "gaussian" "gaussian") with true in E. cbv iota in E.
  apply bindM_Ok in E. destruct E as [_u [t1 [_ E]]].
  apply bindM_Ok in E. destruct E as [g [t2 [Eg E]]].
  apply lift_Ok in Eg. destruct Eg as [Eg _]. cbn [fst] in Eg.
  destruct (com_geometry_Ok (eq_geometry self)) as [c Ec]. rewrite Ec in Eg.
  injection Eg as Eg.
  apply bindM_Ok in E. destruct E as [[[levels table] ns0] [t3 [_ E]]].
  apply bindM_Ok in E. destruct E as [acc [t4 [Eacc E]]].
  apply ret_Ok in E. injection E as -> _.
  exists (map (fun r => vsub r c) (atom_coords (eq_geometry self))), (pool_y0 acc).
  assert (Hcom : atom_coords_com g
                 = Some (map (fun r => vsub r c) (atom_coords (eq_geometry self))))
    by (rewrite <- Eg; reflexivity).
  assert (HNg : natoms g = natoms (eq_geometry self)) by (rewrite <- Eg; reflexivity).
  split; [exact E0|]. cbn [eq_geometry samp_y0_list].
  split; [exact Hcom|]. split; [reflexivity|].
  cbn [sigma_to_array] in Eacc.
  apply (for_eachM_Ok_inv _
           (fun k acc =>
              length (pool_y0 acc) = k /\
              Forall (fun y0 => forall j : nat, (j < natoms g)%nat ->
                        pos y0 j = vmuls (nth j (map (fun r => vsub r c)
                                                     (atom_coords (eq_geometry self))) vzero)
                                         1e-10) (pool_y0 acc))
           (fun a k s tp s' tp' Hinv Hb =>
              pool_sigma_zero_step self g sample_max temp table levels _ k s tp s' tp'
                                   Hcom Hinv Hb)
           (range n) 0%nat) in Eacc.
  - unfold range in Eacc. rewrite length_seq in Eacc. cbn [Nat.add] in Eacc.
    destruct Eacc as [Hl Hall]. split; [exact Hl|]. rewrite <- HNg. exact Hall.
  - split; [reflexivity | constructor].
Qed.

Lemma gaussian_sigma_zero_witness :
  exists (self' : starting_conditions) (tape' : list R) (centred : list vec3)
         (y0s : list (list R)),
    generate_pool two_body_sampler 2 "gaussian" false (SigmaNumber 0) 3 0 5
                  [1; -2; 3; 1 / 2; 0; 7; 1; 1; 1; -1; -1; -1]
    = Ok (self', tape') /\
    atom_coords_com (eq_geometry self') = Some centred /\
    samp_y0_list self' = Some y0s /\ length y0s = 2%nat /\
    Forall (fun y0 => forall j : nat, (j < natoms (eq_geometry two_body_sampler))%nat ->
                        pos y0 j = vmuls (nth j centred vzero) 1e-10) y0s.
Proof.
  apply gaussian_sigma_zero; try reflexivity; unfold paired_mass; simpl; lra.
Defined.

(** ** The equations of motion: edge cases and symmetry *)

Lemma list_eq_pos_vel (l l' : list R) (N : nat) :
  length l = (6 * N)%nat -> length l' = (6 * N)%nat ->
  (forall i : nat, (i < N)%nat -> pos l i = pos l' i /\ vel l N i = vel l' N i) ->
  l = l'.
Proof.
  intros Hl Hl' H. apply (nth_ext l l' 0 0); [lia|].
  intros idx Hidx. rewrite Hl in Hidx.
  pose proof (Nat.div_mod_eq idx 3) as Hq.
  pose proof (Nat.mod_upper_bound idx 3 ltac:(lia)) as Hr.
  remember (idx / 3)%nat as q eqn:Eq. remember (idx mod 3)%nat as r eqn:Er.
  destruct (Nat.lt_ge_cases q N) as [Hlt|Hge].
  - destruct (H q Hlt) as [Hp _].
    pose proof (f_equal vx Hp) as H0. pose proof (f_equal vy Hp) as H1.
    pose proof (f_equal vz Hp) as H2. cbv [pos vx vy vz fst snd] in H0, H1, H2.
    destruct r as [|[|[|r]]]; try lia.
    + replace idx with (3 * q)%nat by lia. exact H0.
    + replace idx with (3 * q + 1)%nat by lia. exact H1.
    + replace idx with (3 * q + 2)%nat by lia. exact H2.
  - destruct (H (q - N)%nat) as [_ Hv]; [lia|].
    pose proof (f_equal vx Hv) as H0. pose proof (f_equal vy Hv) as H1.
    pose proof (f_equal vz Hv) as H2. cbv [vel vx vy vz fst snd] in H0, H1, H2.
    destruct r as [|[|[|r]]]; try lia.
    + replace idx with (3 * N + 3 * (q - N))%nat by lia. exact H0.
    + replace idx with (3 * N + 3 * (q - N) + 1)%nat by lia. exact H1.
    + replace idx with (3 * N + 3 * (q - N) + 2)%nat by lia. exact H2.
Qed.

Lemma newton_single_ignores_charges (charges masses y : list R) :
  length y = 6%nat -> newton charges masses y = newton [0] masses y.
Proof.
  intros Hy. unfold newton. rewrite Hy. change (6 / 6)%nat with 1%nat.
  unfold total_force, range. cbn [seq for_each Nat.eqb negb bind]. reflexivity.
Qed.

(** X22: a single atom feels no force.  For a state of length 6 the
    derivative is the velocity followed by zeros, whatever the charge
    vector holds, even if it is empty. *)
Theorem newton_single_atom (charges : list R) (x y z v1 v2 v3 m : R) :
  m <> 0 ->
  newton charges [m] [x; y; z; v1; v2; v3] = Ok [v1; v2; v3; 0; 0; 0].
Proof.
  intros Hm. rewrite newton_single_ignores_charges by reflexivity.
  destruct (newton_Ok [0] [m] [x; y; z; v1; v2; v3] 1) as [d [E [Hl Hd]]];
    try reflexivity.
  rewrite E. f_equal. apply (list_eq_pos_vel d [v1; v2; v3; 0; 0; 0] 1 Hl eq_refl).
  intros i Hi. assert (i = 0%nat) by lia. subst i.
  destruct (Hd 0%nat Hi) as [H1 H2]. rewrite H1, H2. split; [reflexivity|].
  unfold acceleration, others, vsum. cbn [seq filter Nat.eqb negb map fold_right nth].
  unfold vel, vzero. cbn [nth Nat.mul Nat.add]. vec_unfold. mat_ext; field; exact Hm.
Qed.

Lemma newton_single_atom_witness :
  newton [] [u] [1; 2; 3; 4; 5; 6] = Ok [4; 5; 6; 0; 0; 0].
Proof.
  apply (newton_single_atom [] 1 2 3 4 5 6 u). unfold u. lra.
Defined.

Lemma for_each_seq_Raise {S : Type} (body : nat -> S -> outcome S) (err : exn) :
  forall len start s j,
    (start <= j < start + len)%nat ->
    (forall n s, (start <= n < j)%nat -> exists s', body n s = Ok s') ->
    (forall s, body j s = Raise err) ->
    for_each (seq start len) body s = Raise err.
Proof.
  induction len as [|len IH]; intros start s j Hj Hok Hfail; [lia|].
  cbn [seq for_each]. destruct (Nat.eq_dec start j) as [->|Hne].
  - rewrite Hfail. reflexivity.
  - destruct (Hok start s) as [s1 E1]; [lia|]. rewrite E1. cbn [bind].
    apply (IH (Datatypes.S start) s1 j); [lia | | exact Hfail].
    intros n s2 Hn. apply Hok. lia.
Qed.

Lemma get_Raise {A : Type} (l : list A) (i : nat) :
  (length l <= i)%nat -> get l i = Raise IndexError.
Proof.
  intros H. unfold get. apply nth_error_None in H. rewrite H. reflexivity.
Qed.

Lemma total_force_short_charges (charges y : list R) (N : nat) :
  (6 * N <= length y)%nat -> (2 <= N)%nat -> (length charges < N)%nat ->
  total_force charges y N 0 = Raise IndexError.
Proof.
  intros Hy HN Hc. unfold total_force, range.
  apply (for_each_seq_Raise _ IndexError N 0 vzero (Nat.max 1 (length charges))).
  - lia.
  - intros n s Hn. destruct n as [|n]; [cbn [Nat.eqb negb]; eauto|].
    cbn [Nat.eqb negb].
    rewrite (position_Ok y 0) by lia. cbn [bind].
    rewrite (position_Ok y (S n)) by lia. cbn [bind].
    rewrite (get_nth charges 0 0) by lia. cbn [bind].
    rewrite (get_nth charges (S n) 0) by lia. cbn [bind]. eauto.
  - intros s. destruct (Nat.max 1 (length charges)) as [|j] eqn:Ej; [lia|].
    cbn [Nat.eqb negb].
    rewrite (position_Ok y 0) by lia. cbn [bind].
    rewrite (position_Ok y (S j)) by lia. cbn [bind].
    destruct (Nat.le_gt_cases (length charges) 0) as [H0|H0].
    + rewrite (get_Raise charges 0) by lia. reflexivity.
    + rewrite (get_nth charges 0 0) by lia. cbn [bind].
      rewrite (get_Raise charges (S j)) by lia. reflexivity.
Qed.

(** X23: with two or more atoms, a charge vector shorter than the number of
    atoms makes [NewtonEquations] raise [IndexError]: the lengths of the
    state and of the charge vector are not reconciled beforehand. *)
Theorem newton_short_charges (self : CE_sim) (t : R) (y : list R) (N : nat)
        (all_charges all_masses : list (list R)) (counter : nat) (charges masses : list R) :
  samp_charges_list (sim_starting_conditions self) = Some all_charges ->
  samp_masses_list (sim_starting_conditions self) = Some all_masses ->
  sim_counter self = Some counter ->
  nth_error all_charges counter = Some charges ->
  nth_error all_masses counter = Some masses ->
  length y = (6 * N)%nat -> (2 <= N)%nat -> (length charges < N)%nat ->
  NewtonEquations self t y = Raise IndexError.
Proof.
  intros Hc Hm Hs Hci Hmi Hy HN Hl.
  unfold NewtonEquations. rewrite Hc, Hm, Hs. cbn [attr bind].
  unfold get. rewrite Hci, Hmi. cbn [bind]. unfold newton.
  assert (E : (length y / 6)%nat = N).
  { rewrite Hy, Nat.mul_comm. apply Nat.div_mul. lia. }
  rewrite E. destruct N as [|N]; [lia|]. rewrite range_S. cbn [for_each].
  apply bind_Raise.
  rewrite (get_nth y (3 * S N + 3 * 0) 0) by lia. cbn [bind].
  rewrite set_item_Ok by (rewrite repeat_length; lia). cbn [bind].
  rewrite (get_nth y (3 * S N + 3 * 0 + 1) 0) by lia. cbn [bind].
  rewrite set_item_Ok by (rewrite ?length_upd, repeat_length; lia). cbn [bind].
  rewrite (get_nth y (3 * S N + 3 * 0 + 2) 0) by lia. cbn [bind].
  rewrite set_item_Ok by (rewrite ?length_upd, repeat_length; lia). cbn [bind].
  rewrite total_force_short_charges by lia. reflexivity.
Qed.

Lemma newton_short_charges_witness :
  NewtonEquations
    (mk_CE_sim (mk_starting_conditions example_geometry false None None None None None None
                  None None None None None None None None (Some [[e]]) (Some [[u; u]]) None)
               None None None None (Some 0%nat))
    0 (two_body_start 1)
  = Raise IndexError.
Proof.
  eapply (newton_short_charges _ 0 (two_body_start 1) 2); try reflexivity; simpl; lia.
Defined.

Lemma acceleration_translation (charges masses y y' : list R) (N : nat) (t : vec3) :
  (forall i : nat, (i < N)%nat -> pos y' i = vadd (pos y i) t) ->
  forall i : nat, (i < N)%nat ->
    acceleration charges masses y' N i = acceleration charges masses y N i.
Proof.
  intros Hp i Hi. unfold acceleration. f_equal. f_equal. apply map_ext_in.
  intros j Hj. apply others_spec in Hj. destruct Hj as [Hj _].
  unfold coulomb_term. rewrite (Hp i Hi), (Hp j Hj).
  assert (E : vsub (vadd (pos y i) t) (vadd (pos y j) t) = vsub (pos y i) (pos y j)).
  { destruct (pos y i) as [[? ?] ?], (pos y j) as [[? ?] ?], t as [[? ?] ?].
    vec_unfold. mat_ext; ring. }
  rewrite E. reflexivity.
Qed.

(** X24: the derivative does not depend on where the system sits: for
    non-zero masses and pairwise distinct positions, two states with the
    same velocities whose positions differ by one common vector have the
    same derivative. *)
Theorem newton_translation (charges masses y y' : list R) (N : nat) (t : vec3) :
  length y = (6 * N)%nat -> length y' = (6 * N)%nat ->
  length charges = N -> length masses = N ->
  Forall (fun m => m <> 0) masses -> distinct_positions y N ->
  (forall i : nat, (i < N)%nat -> pos y' i = vadd (pos y i) t /\ vel y' N i = vel y N i) ->
  exists dydt : list R,
    newton charges masses y = Ok dydt /\ newton charges masses y' = Ok dydt.
Proof.
  intros Hy Hy' Hc Hm _ _ H.
  destruct (newton_Ok charges masses y N Hy Hc Hm) as [d [E [Hl Hd]]].
  destruct (newton_Ok charges masses y' N Hy' Hc Hm) as [d' [E' [Hl' Hd']]].
  exists d. split; [exact E|]. rewrite E'. f_equal.
  apply (list_eq_pos_vel d' d N Hl' Hl). intros i Hi.
  destruct (Hd i Hi) as [H1 H2]. destruct (Hd' i Hi) as [H1' H2'].
  destruct (H i Hi) as [_ Hv].
  split.
  - rewrite H1, H1'. exact Hv.
  - rewrite H2, H2'. apply (acceleration_translation charges masses y y' N t); [|exact Hi].
    intros j Hj. apply H. exact Hj.
Qed.

Lemma newton_translation_witness :
  exists dydt : list R,
    newton [e; e] [u; u] (two_body_start 1) = Ok dydt /\
    newton [e; e] [u; u] [1 / 2 + 1; 0 + 2; 0 + 3; - (1 / 2) + 1; 0 + 2; 0 + 3; 0; 0; 0; 0; 0; 0]
    = Ok dydt.
Proof.
  apply (newton_translation [e; e] [u; u] (two_body_start 1) _ 2 (1, 2, 3));
    try reflexivity.
  - repeat constructor; unfold u; lra.
  - apply two_body_distinct. lra.
  - intros i Hi. destruct i as [|[|i]]; try lia; split; reflexivity.
Defined.

(** ** Storing the output of a trajectory *)

Lemma Forall2_seq_nth {B : Type} (P : nat -> B -> Prop) (len start : nat) (bs : list B) :
  Forall2 P (seq start len) bs ->
  length bs = len /\
  forall i : nat, (i < len)%nat -> exists b, nth_error bs i = Some b /\ P (start + i)%nat b.
Proof.
  revert start bs. induction len as [|len IH]; intros start bs H; simpl in H.
  - inversion H; subst. split; [reflexivity | intros i Hi; lia].
  - inversion H as [|a b l bs' Hab Hrest]; subst.
    destruct (IH (S start) bs' Hrest) as [Hl Hn]. split; [simpl; lia|].
    intros [|i] Hi.
    + exists b. split; [reflexivity|]. rewrite Nat.add_0_r. exact Hab.
    + destruct (Hn i) as [b' [Hb' HP]]; [lia|]. exists b'. split; [exact Hb'|].
      replace (start + S i)%nat with (S start + i)%nat by lia. exact HP.
Qed.

Lemma get_signed_last_step {A : Type} (l : list A) (n_t : nat) (x : A) :
  (0 < n_t)%nat -> get_signed l (Z.of_nat n_t - 1) = Ok x -> nth_error l (n_t - 1) = Some x.
Proof.
  intros Hn E. unfold get_signed in E.
  destruct (Z.leb_spec 0 (Z.of_nat n_t - 1)) as [_|H]; [|lia].
  apply get_Ok in E. replace (Z.to_nat (Z.of_nat n_t - 1)) with (n_t - 1)%nat in E by lia.
  exact E.
Qed.

Lemma output_row_inv (self : CE_sim) (sol : solution) (charges masses : list R)
      (n_atoms counter i n_t : nat) (row : list R) :
  n_t_steps self = Some n_t -> (0 < n_t)%nat ->
  output_row self sol charges masses n_atoms counter i = Ok row ->
  exists r0 r1 r2 v0 v1 v2 q m,
    row = [v0; v1; v2; q; m; INR counter] /\
    nth_error (sol_y sol) ((n_atoms + i) * 3) = Some r0 /\ nth_error r0 (n_t - 1) = Some v0 /\
    nth_error (sol_y sol) ((n_atoms + i) * 3 + 1) = Some r1 /\ nth_error r1 (n_t - 1) = Some v1 /\
    nth_error (sol_y sol) ((n_atoms + i) * 3 + 2) = Some r2 /\ nth_error r2 (n_t - 1) = Some v2 /\
    nth_error charges i = Some q /\ nth_error masses i = Some m.
Proof.
  intros Hn Hpos E. unfold output_row in E. rewrite Hn in E. cbn [attr bind] in E.
  unfold sol_entry in E.
  apply bind_Ok in E. destruct E as [v0 [E0 E]].
  apply bind_Ok in E0. destruct E0 as [r0 [Er0 E0]].
  apply bind_Ok in E. destruct E as [v1 [E1 E]].
  apply bind_Ok in E1. destruct E1 as [r1 [Er1 E1]].
  apply bind_Ok in E. destruct E as [v2 [E2 E]].
  apply bind_Ok in E2. destruct E2 as [r2 [Er2 E2]].
  apply bind_Ok in E. destruct E as [q [Eq E]].
  apply bind_Ok in E. destruct E as [m [Em E]].
  injection E as <-.
  exists r0, r1, r2, v0, v1, v2, q, m.
  repeat split; try (apply get_Ok; assumption);
    try (apply get_signed_last_step; assumption).
Qed.

Lemma store_output_rows (self : CE_sim) (outs outs' : sim_outputs) (sol : solution) :
  store_output self outs sol = Ok outs' ->
  exists all_charges all_masses counter charges masses old arr,
    samp_charges_list (sim_starting_conditions self) = Some all_charges /\
    samp_masses_list (sim_starting_conditions self) = Some all_masses /\
    sim_counter self = Some counter /\
    nth_error all_charges counter = Some charges /\
    nth_error all_masses counter = Some masses /\
    output_list outs = Some old /\
    outs' = mk_sim_outputs (Some (old ++ [arr])) (save_all outs) (solution_list outs)
                           (output_arr outs) (output_df outs) /\
    Forall2 (fun i row => output_row self sol charges masses (length charges) counter i = Ok row)
            (seq 0 (length charges)) arr.
Proof.
  intros E. unfold store_output in E.
  apply bind_Ok in E. destruct E as [all_charges [Eac E]].
  apply bind_Ok in E. destruct E as [counter [Ecn E]].
  apply bind_Ok in E. destruct E as [charges [Ec E]].
  apply bind_Ok in E. destruct E as [all_masses [Eam E]].
  apply bind_Ok in E. destruct E as [masses [Em E]].
  apply bind_Ok in E. destruct E as [arr [Earr E]].
  apply bind_Ok in E. destruct E as [old [Eold E]].
  injection E as <-.
  exists all_charges, all_masses, counter, charges, masses, old, arr.
  destruct (samp_charges_list _); [|discriminate]. injection Eac as ->.
  destruct (samp_masses_list _); [|discriminate]. injection Eam as ->.
  destruct (sim_counter self); [|discriminate]. injection Ecn as ->.
  destruct (output_list outs); [|discriminate]. injection Eold as ->.
  apply get_Ok in Ec, Em.
  apply map_outcome_Forall2 in Earr.
  repeat split; assumption.
Qed.

Lemma rows_output_of (self : CE_sim) (sol : solution) (charges masses : list R)
      (counter n_t : nat) (arr : list (list R)) :
  n_t_steps self = Some n_t -> (0 < n_t)%nat ->
  Forall2 (fun i row => output_row self sol charges masses (length charges) counter i = Ok row)
          (seq 0 (length charges)) arr ->
  output_of sol charges masses counter n_t arr.
Proof.
  intros Hn Hpos H. apply Forall2_seq_nth in H. destruct H as [Hl Hrow].
  split; [exact Hl|]. intros i Hi.
  destruct (Hrow i Hi) as [row [Hr Hout]]. cbn [Nat.add] in Hout.
  apply (output_row_inv self sol charges masses _ counter i n_t row Hn Hpos) in Hout.
  destruct Hout as [r0 [r1 [r2 [v0 [v1 [v2 [q [m [-> H]]]]]]]]].
  destruct H as [H0 [H0' [H1 [H1' [H2 [H2' [Hq Hm]]]]]]].
  exists r0, r1, r2, v0, v1, v2, m.
  rewrite (nth_error_nth charges i 0 Hq). repeat split; assumption.
Qed.

Lemma output_row_length (self : CE_sim) (sol : solution) (charges masses : list R)
      (n_atoms counter i : nat) (row : list R) :
  output_row self sol charges masses n_atoms counter i = Ok row -> length row = 6%nat.
Proof.
  intros E. unfold output_row in E.
  apply bind_Ok in E. destruct E as [n_t [_ E]].
  apply bind_Ok in E. destruct E as [v0 [_ E]].
  apply bind_Ok in E. destruct E as [v1 [_ E]].
  apply bind_Ok in E. destruct E as [v2 [_ E]].
  apply bind_Ok in E. destruct E as [q [_ E]].
  apply bind_Ok in E. destruct E as [m [_ E]].
  injection E as <-. reflexivity.
Qed.

Lemma rows_output_shape (self : CE_sim) (sol : solution) (charges masses : list R)
      (counter : nat) (arr : list (list R)) :
  Forall2 (fun i row => output_row self sol charges masses (length charges) counter i = Ok row)
          (seq 0 (length charges)) arr ->
  output_shape charges arr.
Proof.
  intros H. split.
  - apply Forall2_length in H. rewrite length_seq in H. symmetry. exact H.
  - induction H as [|i row l arr' Hrow _ IH]; constructor.
    + apply output_row_length in Hrow. exact Hrow.
    + exact IH.
Qed.

Lemma get_signed_last_Ok (r : list R) (n_t : nat) :
  (0 < n_t <= length r)%nat -> exists v, get_signed r (Z.of_nat n_t - 1) = Ok v.
Proof.
  intros H. unfold get_signed.
  destruct (Z.leb_spec 0 (Z.of_nat n_t - 1)) as [_|H']; [|lia].
  unfold get. destruct (nth_error r (Z.to_nat (Z.of_nat n_t - 1))) as [v|] eqn:E; [eauto|].
  apply nth_error_None in E. lia.
Qed.

Lemma sol_entry_Ok (sol : solution) (row n_t : nat) :
  (row < length (sol_y sol))%nat ->
  Forall (fun r => (n_t <= length r)%nat) (sol_y sol) -> (0 < n_t)%nat ->
  exists v, sol_entry sol row (Z.of_nat n_t - 1) = Ok v.
Proof.
  intros Hrow Hcols Hpos. unfold sol_entry, get.
  destruct (nth_error (sol_y sol) row) as [r|] eqn:E.
  - cbn [bind]. apply get_signed_last_Ok. split; [exact Hpos|].
    rewrite Forall_forall in Hcols. apply Hcols. eapply nth_error_In. exact E.
  - apply nth_error_None in E. lia.
Qed.

Lemma get_Ok_lt {A : Type} (l : list A) (i : nat) :
  (i < length l)%nat -> exists x, get l i = Ok x.
Proof.
  intros H. unfold get. destruct (nth_error l i) eqn:E; [eauto|].
  apply nth_error_None in E. lia.
Qed.

(** X25: [store_output] on a solution with a row for each of the 6N state
    entries and a column for each evaluation time appends one array to
    [output_list] and changes nothing else; row i of the array is the
    velocity of atom i in the last column of the solution, its charge, its
    mass and the trajectory index. *)
Theorem store_output_spec (self : CE_sim) (outs : sim_outputs) (sol : solution)
        (all_charges all_masses : list (list R)) (charges masses : list R)
        (counter n_t : nat) (old : list (list (list R))) :
  samp_charges_list (sim_starting_conditions self) = Some all_charges ->
  samp_masses_list (sim_starting_conditions self) = Some all_masses ->
  sim_counter self = Some counter ->
  nth_error all_charges counter = Some charges ->
  nth_error all_masses counter = Some masses ->
  (length charges <= length masses)%nat ->
  n_t_steps self = Some n_t -> (0 < n_t)%nat ->
  output_list outs = Some old ->
  (6 * length charges <= length (sol_y sol))%nat ->
  Forall (fun r => (n_t <= length r)%nat) (sol_y sol) ->
  exists arr,
    store_output self outs sol =
      Ok (mk_sim_outputs (Some (old ++ [arr])) (save_all outs) (solution_list outs)
                         (output_arr outs) (output_df outs)) /\
    output_of sol charges masses counter n_t arr.
Proof.
  intros Hac Ham Hc Hch Hms Hlen Hn Hpos Hold Hrows Hcols.
  assert (Hex : exists arr,
             map_outcome (output_row self sol charges masses (length charges) counter)
                         (range (length charges)) = Ok arr).
  { apply map_outcome_total. apply Forall_forall. intros i Hi.
    unfold range in Hi. apply in_seq in Hi.
    unfold output_row. rewrite Hn. cbn [attr bind].
    destruct (sol_entry_Ok sol ((length charges + i) * 3) n_t) as [v0 ->];
      [lia | exact Hcols | exact Hpos |].
    destruct (sol_entry_Ok sol ((length charges + i) * 3 + 1) n_t) as [v1 ->];
      [lia | exact Hcols | exact Hpos |].
    destruct (sol_entry_Ok sol ((length charges + i) * 3 + 2) n_t) as [v2 ->];
      [lia | exact Hcols | exact Hpos |].
    destruct (get_Ok_lt charges i) as [q ->]; [lia|].
    destruct (get_Ok_lt masses i) as [m ->]; [lia|].
    cbn [bind]. eauto. }
  destruct Hex as [arr Harr]. exists arr.
  assert (E : store_output self outs sol =
              Ok (mk_sim_outputs (Some (old ++ [arr])) (save_all outs) (solution_list outs)
                                 (output_arr outs) (output_df outs))).
  { unfold store_output. rewrite Hac, Ham, Hc, Hold. cbn [attr bind].
    unfold get. rewrite Hch, Hms. cbn [bind]. rewrite Harr. reflexivity. }
  split; [exact E|].
  apply map_outcome_Forall2 in Harr.
  apply (rows_output_of self sol charges masses counter n_t arr Hn Hpos Harr).
Qed.

Lemma store_output_spec_witness :
  exists arr,
    store_output two_body_timed earlier_outputs
                 (mk_solution (map (fun v => [v; v]) (two_body_start 1e-10))) =
      Ok (mk_sim_outputs (Some ([[[1; 2; 3; 4; 5; 0]]] ++ [arr])) (Some false) None
                         (Some [[1; 2; 3; 4; 5; 0]]) None) /\
    output_of (mk_solution (map (fun v => [v; v]) (two_body_start 1e-10)))
              [e; e] [u; u] 0 2 arr.
Proof.
  apply (store_output_spec two_body_timed earlier_outputs
           (mk_solution (map (fun v => [v; v]) (two_body_start 1e-10)))
           [[e; e]] [[u; u]] [e; e] [u; u] 0 2 [[[1; 2; 3; 4; 5; 0]]]);
    try reflexivity; try (simpl; lia).
  simpl. repeat constructor.
Defined.

(** ** Running the ensemble *)

Lemma for_each_nth_Ok_inv {A S : Type} (body : A -> S -> outcome S) (Inv : nat -> S -> Prop)
      (l : list A) :
  (forall a k s s', nth_error l k = Some a -> Inv k s -> body a s = Ok s' ->
                    Inv (Datatypes.S k) s') ->
  forall s s', Inv 0%nat s -> for_each l body s = Ok s' -> Inv (length l) s'.
Proof.
  intros Hstep.
  assert (G : forall post pre s s', l = pre ++ post -> Inv (length pre) s ->
                for_each post body s = Ok s' -> Inv (length l) s').
  { induction post as [|a post IH]; intros pre s s' El H0 E; simpl in E.
    - injection E as <-. rewrite El, app_nil_r. exact H0.
    - apply bind_Ok in E. destruct E as [s1 [E1 E]].
      apply (IH (pre ++ [a]) s1 s'); [rewrite <- app_assoc; exact El | | exact E].
      rewrite length_app. simpl. rewrite Nat.add_1_r.
      apply (Hstep a (length pre) s s1); [|exact H0|exact E1].
      rewrite El. rewrite nth_error_app2 by lia. rewrite Nat.sub_diag. reflexivity. }
  intros s s' H0 E. apply (G l [] s s'); [reflexivity | exact H0 | exact E].
Qed.

(** The loop of [run_sims], for any property [P] of the array that
    [store_output] appends for trajectory [k]. *)
Lemma run_sims_loop
      (solve_ivp : (R -> list R -> outcome (list R)) -> R -> list R -> list R ->
                   outcome solution)
      (P : nat -> solution -> list (list R) -> Prop)
      (self : CE_sim) (outs : sim_outputs) (n_print : positive) (save : bool)
      (self' : CE_sim) (outs' : sim_outputs) :
  (forall k o sol o', store_output (with_counter self k) o sol = Ok o' ->
     exists old arr, output_list o = Some old /\
       o' = mk_sim_outputs (Some (old ++ [arr])) (save_all o) (solution_list o)
                           (output_arr o) (output_df o) /\
       P k sol arr) ->
  run_sims solve_ivp self outs n_print save = Ok (self', outs') ->
  exists y0s arrs,
    samp_y0_list (sim_starting_conditions self) = Some y0s /\
    self' = with_counter self (length y0s) /\
    output_list outs' = Some arrs /\ length arrs = length y0s /\
    output_arr outs' = output_arr outs /\ output_df outs' = output_df outs /\
    forall i : nat, (i < length y0s)%nat ->
      exists arr y0 t_end times sol,
        nth_error arrs i = Some arr /\ nth_error y0s i = Some y0 /\
        tmax self = Some t_end /\ timebins self = Some times /\
        solve_ivp (NewtonEquations (with_counter self i)) t_end y0 times = Ok sol /\
        P i sol arr.
Proof.
  intros HP E. unfold run_sims in E.
  apply bind_Ok in E. destruct E as [y0s [Ey E]].
  change (sim_starting_conditions (with_counter self 0)) with (sim_starting_conditions self)
    in Ey.
  destruct (samp_y0_list (sim_starting_conditions self)) as [y0s'|]; [|discriminate].
  injection Ey as ->.
  exists y0s.
  pose (Inv := fun (k : nat) (st : CE_sim * sim_outputs) =>
    fst st = with_counter self k /\
    output_arr (snd st) = output_arr outs /\ output_df (snd st) = output_df outs /\
    exists arrs, output_list (snd st) = Some arrs /\ length arrs = k /\
      forall i : nat, (i < k)%nat ->
        exists arr y0 t_end times sol,
          nth_error arrs i = Some arr /\ nth_error y0s i = Some y0 /\
          tmax self = Some t_end /\ timebins self = Some times /\
          solve_ivp (NewtonEquations (with_counter self i)) t_end y0 times = Ok sol /\
          P i sol arr).
  assert (H : Inv (length y0s) (self', outs')).
  { apply (for_each_nth_Ok_inv (run_one solve_ivp save) Inv y0s) with (3 := E).
    - intros y0 k [s o] [s' o'] Hy [Hs [Harr [Hdf [arrs [Hol [Hlen Hall]]]]]] Eb.
      cbn [fst snd] in *. subst s.
      unfold run_one in Eb.
      apply bind_Ok in Eb. destruct Eb as [t_end [Et Eb]].
      apply bind_Ok in Eb. destruct Eb as [times [Eti Eb]].
      apply bind_Ok in Eb. destruct Eb as [sol [Esol Eb]].
      apply bind_Ok in Eb. destruct Eb as [o1 [Eo1 Eb]].
      apply bind_Ok in Eb. destruct Eb as [o2 [Eo2 Eb]].
      apply bind_Ok in Eb. destruct Eb as [c [Ec Eb]].
      injection Eb as <- <-. injection Ec as <-.
      change (tmax (with_counter self k)) with (tmax self) in Et.
      change (timebins (with_counter self k)) with (timebins self) in Eti.
      destruct (tmax self) as [t_end'|]; [|discriminate]. injection Et as ->.
      destruct (timebins self) as [times'|]; [|discriminate]. injection Eti as ->.
      assert (H1 : output_list o1 = Some arrs /\ output_arr o1 = output_arr outs /\
                   output_df o1 = output_df outs).
      { destruct save.
        - apply bind_Ok in Eo1. destruct Eo1 as [sols [_ Eo1]]. injection Eo1 as <-.
          cbn. auto.
        - injection Eo1 as <-. auto. }
      destruct H1 as [Hol1 [Harr1 Hdf1]].
      destruct (HP k o1 sol o2 Eo2) as [old [arr [Hold [-> HPk]]]].
      rewrite Hol1 in Hold. injection Hold as <-.
      unfold Inv. cbn [fst snd output_list output_arr output_df].
      split; [unfold with_counter; cbn; rewrite Nat.add_1_r; reflexivity|].
      split; [exact Harr1|]. split; [exact Hdf1|].
      exists (arrs ++ [arr]). split; [reflexivity|].
      split; [rewrite length_app; simpl; lia|].
      intros i Hi. destruct (Nat.eq_dec i k) as [->|Hne].
      + exists arr, y0, t_end, times, sol.
        rewrite nth_error_app2 by lia. rewrite Hlen, Nat.sub_diag.
        repeat split; try reflexivity; assumption.
      + destruct (Hall i) as [arr' [y0' [t' [ts' [sol' H']]]]]; [lia|].
        exists arr', y0', t', ts', sol'.
        rewrite nth_error_app1 by lia. exact H'.
    - unfold Inv. cbn [fst snd output_list output_arr output_df].
      repeat split. exists []. repeat split. intros i Hi. lia. }
  destruct H as [Hs [Harr [Hdf [arrs [Hol [Hlen Hall]]]]]]. cbn [fst snd] in *.
  exists arrs. repeat split; assumption.
Qed.

Lemma store_output_appends (P : nat -> solution -> list (list R) -> Prop) (self : CE_sim) :
  (forall k sol charges masses arr,
     (exists all_charges, samp_charges_list (sim_starting_conditions self) = Some all_charges /\
                          nth_error all_charges k = Some charges) ->
     (exists all_masses, samp_masses_list (sim_starting_conditions self) = Some all_masses /\
                         nth_error all_masses k = Some masses) ->
     Forall2 (fun i row => output_row (with_counter self k) sol charges masses
                                      (length charges) k i = Ok row)
             (seq 0 (length charges)) arr ->
     P k sol arr) ->
  forall k o sol o', store_output (with_counter self k) o sol = Ok o' ->
     exists old arr, output_list o = Some old /\
       o' = mk_sim_outputs (Some (old ++ [arr])) (save_all o) (solution_list o)
                           (output_arr o) (output_df o) /\
       P k sol arr.
Proof.
  intros HP k o sol o' E. apply store_output_rows in E.
  destruct E as [acs [ams [c [charges [masses [old [arr E]]]]]]].
  destruct E as [Hac [Ham [Hc [Hch [Hms [Hold [-> Hrows]]]]]]].
  cbn in Hc. injection Hc as <-.
  exists old, arr. repeat split; [exact Hold|].
  apply (HP k sol charges masses arr); eauto.
Qed.

(** X26: whatever the integrator, when [run_sims] returns, the cursor is the
    number of starting vectors and [output_list] holds one array per starting
    vector, in order; array i has a row per charge of trajectory i, built from
    the last column of the integrator's answer for starting vector i and
    tagged with the index i. *)
Theorem run_sims_outputs
        (solve_ivp : (R -> list R -> outcome (list R)) -> R -> list R -> list R ->
                     outcome solution)
        (self : CE_sim) (outs : sim_outputs) (n_print : positive) (save : bool)
        (n_t : nat) (self' : CE_sim) (outs' : sim_outputs) :
  n_t_steps self = Some n_t -> (0 < n_t)%nat ->
  run_sims solve_ivp self outs n_print save = Ok (self', outs') ->
  run_outputs solve_ivp self n_t self' outs'.
Proof.
  intros Hn Hpos E.
  apply (run_sims_loop solve_ivp
           (fun k sol arr => exists all_charges all_masses charges masses,
              samp_charges_list (sim_starting_conditions self) = Some all_charges /\
              nth_error all_charges k = Some charges /\
              samp_masses_list (sim_starting_conditions self) = Some all_masses /\
              nth_error all_masses k = Some masses /\
              output_of sol charges masses k n_t arr)) in E.
  - destruct E as [y0s [arrs [Hy [Hs [Hol [Hlen [_ [_ Hall]]]]]]]].
    exists y0s, arrs. repeat split; try assumption.
    intros i Hi. destruct (Hall i Hi) as [arr [y0 [t_end [times [sol H]]]]].
    destruct H as [Ha [Hy0 [Ht [Hti [Hsol [acs [ams [charges [masses H]]]]]]]]].
    destruct H as [Hac [Hch [Ham [Hms Hout]]]].
    exists arr. split; [exact Ha|].
    exists y0s, acs, ams, t_end, times, y0, charges, masses, sol.
    repeat (split; [assumption|]). exact Hout.
  - apply store_output_appends.
    intros k sol charges masses arr [acs [Hac Hch]] [ams [Ham Hms]] Hrows.
    exists acs, ams, charges, masses. repeat (split; [assumption|]).
    apply (rows_output_of (with_counter self k) sol charges masses k n_t arr Hn Hpos Hrows).
Qed.

Lemma run_sims_outputs_witness :
  exists self' outs',
    run_sims constant_solver two_body_timed no_outputs 1 false = Ok (self', outs') /\
    run_outputs constant_solver two_body_timed 2 self' outs'.
Proof.
  eexists. eexists. split; [reflexivity|].
  apply (run_sims_outputs constant_solver two_body_timed no_outputs 1 false 2);
    [reflexivity | lia | reflexivity].
Defined.

(** ** Runs that cannot start, and the output table *)

(** X27: a simulation on which [make_timebins] was never called cannot run:
    with at least one starting vector in the ensemble, [run_sims] raises
    [AttributeError] on [tmax] before the integrator is called, whatever the
    integrator. *)
Theorem run_sims_unprepared
        (solve_ivp : (R -> list R -> outcome (list R)) -> R -> list R -> list R ->
                     outcome solution)
        (self : CE_sim) (outs : sim_outputs) (n_print : positive) (save : bool)
        (y0 : list R) (rest : list (list R)) :
  tmax self = None ->
  samp_y0_list (sim_starting_conditions self) = Some (y0 :: rest) ->
  run_sims solve_ivp self outs n_print save = Raise (AttributeError "tmax").
Proof.
  intros Ht H. unfold run_sims.
  change (sim_starting_conditions (with_counter self 0)) with (sim_starting_conditions self).
  rewrite H. cbn [attr bind for_each]. unfold run_one.
  change (tmax (with_counter self 0)) with (tmax self). rewrite Ht. reflexivity.
Qed.

Lemma run_sims_unprepared_witness :
  run_sims constant_solver (CE_sim_init two_body_sampler) no_outputs 1 false =
    Raise (AttributeError "tmax").
Proof.
  apply (run_sims_unprepared constant_solver (CE_sim_init two_body_sampler) no_outputs 1 false
           (two_body_start 1e-10) []); reflexivity.
Defined.

(** X28: on an empty ensemble [run_sims] returns without calling the
    integrator and leaves an empty [output_list]; [output_list_to_arr] then
    raises [ValueError], and so does [output_list_to_df] unless an array of
    an earlier run is still stored. *)
Theorem run_sims_empty_ensemble
        (solve_ivp : (R -> list R -> outcome (list R)) -> R -> list R -> list R ->
                     outcome solution)
        (self : CE_sim) (outs : sim_outputs) (n_print : positive) (save : bool) :
  samp_y0_list (sim_starting_conditions self) = Some [] ->
  exists outs',
    run_sims solve_ivp self outs n_print save = Ok (with_counter self 0, outs') /\
    output_list outs' = Some [] /\
    output_list_to_arr outs' = Raise ValueError /\
    (output_arr outs = None -> output_list_to_df outs' = Raise ValueError).
Proof.
  intros H. unfold run_sims.
  change (sim_starting_conditions (with_counter self 0)) with (sim_starting_conditions self).
  rewrite H. cbn [attr bind for_each].
  eexists. split; [reflexivity|]. split; [reflexivity|]. split; [reflexivity|].
  intros Harr. unfold output_list_to_df, output_list_to_arr.
  cbn [output_arr output_list]. rewrite Harr. reflexivity.
Qed.

Lemma run_sims_empty_ensemble_witness :
  exists outs',
    run_sims constant_solver empty_ensemble_sim no_outputs 1 false =
      Ok (with_counter empty_ensemble_sim 0, outs') /\
    output_list outs' = Some [] /\
    output_list_to_arr outs' = Raise ValueError /\
    (output_arr no_outputs = None -> output_list_to_df outs' = Raise ValueError).
Proof.
  apply (run_sims_empty_ensemble constant_solver empty_ensemble_sim no_outputs 1 false).
  reflexivity.
Defined.

Lemma Forall_six_forallb (arr : list (list R)) :
  Forall (fun row => length row = 6%nat) arr ->
  forallb (fun row => (length row =? length output_columns)%nat) arr = true.
Proof.
  intros H. apply forallb_forall. intros row Hin.
  rewrite Forall_forall in H. rewrite (H row Hin). reflexivity.
Qed.

Lemma table_of_stored (outs : sim_outputs) (arr : list (list R)) :
  output_arr outs = Some arr -> Forall (fun row => length row = 6%nat) arr ->
  output_list_to_df outs =
    Ok (mk_sim_outputs (output_list outs) (save_all outs) (solution_list outs) (Some arr)
                       (Some (output_columns, arr))).
Proof.
  intros Harr Hsix. unfold output_list_to_df, DataFrame. rewrite Harr. cbn [attr bind].
  rewrite (Forall_six_forallb arr Hsix). reflexivity.
Qed.

Lemma store_output_any (self : CE_sim) :
  forall k o sol o', store_output (with_counter self k) o sol = Ok o' ->
     exists old arr, output_list o = Some old /\
       o' = mk_sim_outputs (Some (old ++ [arr])) (save_all o) (solution_list o)
                           (output_arr o) (output_df o) /\
       (exists all_charges charges,
          samp_charges_list (sim_starting_conditions self) = Some all_charges /\
          nth_error all_charges k = Some charges /\ output_shape charges arr).
Proof.
  apply (store_output_appends
           (fun k sol arr => exists all_charges charges,
              samp_charges_list (sim_starting_conditions self) = Some all_charges /\
              nth_error all_charges k = Some charges /\ output_shape charges arr)).
  intros k sol charges masses arr [acs [Hac Hch]] _ Hrows.
  exists acs, charges. split; [exact Hac|]. split; [exact Hch|].
  apply (rows_output_shape (with_counter self k) sol charges masses k arr Hrows).
Qed.

(** X29: [run_sims] does not clear [output_arr], and [output_list_to_df]
    rebuilds it only when building the table fails.  So after a second run on
    an object that still holds the array of an earlier run,
    [output_list_to_df] returns the table of the earlier run, whatever the
    second run produced. *)
Theorem output_list_to_df_stale
        (solve_ivp : (R -> list R -> outcome (list R)) -> R -> list R -> list R ->
                     outcome solution)
        (self : CE_sim) (outs : sim_outputs) (n_print : positive) (save : bool)
        (stale : list (list R)) (self' : CE_sim) (outs' : sim_outputs) :
  output_arr outs = Some stale ->
  Forall (fun row => length row = 6%nat) stale ->
  run_sims solve_ivp self outs n_print save = Ok (self', outs') ->
  exists outs'',
    output_list_to_df outs' = Ok outs'' /\
    output_arr outs'' = Some stale /\
    output_df outs'' = Some (output_columns, stale).
Proof.
  intros Harr Hsix E.
  apply (run_sims_loop solve_ivp _ self outs n_print save self' outs' (store_output_any self))
    in E.
  destruct E as [y0s [arrs [_ [_ [_ [_ [Harr' _]]]]]]].
  rewrite Harr in Harr'.
  eexists. split; [apply (table_of_stored outs' stale Harr' Hsix)|].
  split; reflexivity.
Qed.

Lemma output_list_to_df_stale_witness :
  exists self' outs' outs'',
    run_sims constant_solver two_body_timed earlier_outputs 1 false = Ok (self', outs') /\
    output_list_to_df outs' = Ok outs'' /\
    output_arr outs'' = Some [[1; 2; 3; 4; 5; 0]] /\
    output_df outs'' = Some (output_columns, [[1; 2; 3; 4; 5; 0]]).
Proof.
  eexists. eexists.
  destruct (output_list_to_df_stale constant_solver two_body_timed earlier_outputs 1 false
              [[1; 2; 3; 4; 5; 0]] _ _ eq_refl
              (Forall_cons _ (eq_refl : length [1; 2; 3; 4; 5; 0] = 6%nat) (Forall_nil _))
              eq_refl) as [outs'' H].
  exists outs''. split; [reflexivity | exact H].
Defined.

Lemma concat_lengths (arrs : list (list (list R))) :
  forall cs : list (list R),
  (forall i : nat, (i < length arrs)%nat ->
     exists a c, nth_error arrs i = Some a /\ nth_error cs i = Some c /\
                 length a = length c) ->
  length (concat arrs) = list_sum (map (@length R) (firstn (length arrs) cs)).
Proof.
  induction arrs as [|a arrs IH]; intros cs H; [reflexivity|].
  destruct (H 0%nat) as [a0 [c0 [Ha [Hc Hl]]]]; [simpl; lia|].
  destruct cs as [|c cs]; [discriminate|]. simpl in Ha, Hc.
  injection Ha as <-. injection Hc as <-.
  simpl. rewrite length_app, Hl. f_equal. apply IH.
  intros i Hi. destruct (H (S i)) as [a' [c' H']]; [simpl; lia|].
  exists a', c'. exact H'.
Qed.

(** X30: on an object without a stored array, a run over a non-empty
    ensemble followed by [output_list_to_df] succeeds: the table stacks the
    output arrays of the run in order, under the six column names, and has
    one row per charge of each trajectory run. *)
Theorem output_list_to_df_fresh
        (solve_ivp : (R -> list R -> outcome (list R)) -> R -> list R -> list R ->
                     outcome solution)
        (self : CE_sim) (outs : sim_outputs) (n_print : positive) (save : bool)
        (y0s : list (list R)) (all_charges : list (list R))
        (self' : CE_sim) (outs' : sim_outputs) :
  output_arr outs = None ->
  samp_y0_list (sim_starting_conditions self) = Some y0s -> y0s <> [] ->
  samp_charges_list (sim_starting_conditions self) = Some all_charges ->
  run_sims solve_ivp self outs n_print save = Ok (self', outs') ->
  exists arrs outs'',
    output_list outs' = Some arrs /\
    output_list_to_df outs' = Ok outs'' /\
    output_arr outs'' = Some (concat arrs) /\
    output_df outs'' = Some (output_columns, concat arrs) /\
    length (concat arrs) =
      list_sum (map (@length R) (firstn (length y0s) all_charges)).
Proof.
  intros Harr Hy Hne Hac E.
  apply (run_sims_loop solve_ivp _ self outs n_print save self' outs' (store_output_any self))
    in E.
  destruct E as [y0s' [arrs [Hy' [_ [Hol [Hlen [Harr' [_ Hall]]]]]]]].
  rewrite Hy in Hy'. injection Hy' as <-.
  rewrite Harr in Harr'.
  assert (Hshape : forall i : nat, (i < length arrs)%nat ->
            exists a c, nth_error arrs i = Some a /\ nth_error all_charges i = Some c /\
                        output_shape c a).
  { intros i Hi. destruct (Hall i) as [arr [y0 [t [ts [sol H]]]]]; [lia|].
    destruct H as [Ha [_ [_ [_ [_ [acs [charges [Hac' [Hch Hsh]]]]]]]]].
    rewrite Hac in Hac'. injection Hac' as <-.
    exists arr, charges. repeat (split; [assumption|]). exact Hsh. }
  assert (Hsix : Forall (fun row => length row = 6%nat) (concat arrs)).
  { apply Forall_concat. apply Forall_forall. intros a Hin.
    apply In_nth_error in Hin. destruct Hin as [i Hi].
    assert (Hlt : (i < length arrs)%nat) by (apply nth_error_Some; congruence).
    destruct (Hshape i Hlt) as [a' [c [Ha' [_ [_ H6]]]]].
    rewrite Hi in Ha'. injection Ha' as <-. exact H6. }
  assert (Hne' : arrs <> []).
  { intros ->. destruct y0s; [congruence | discriminate]. }
  exists arrs. eexists. split; [exact Hol|].
  split.
  - unfold output_list_to_df. rewrite Harr'. cbn [attr bind].
    unfold output_list_to_arr. rewrite Hol. cbn [attr bind].
    unfold np_vstack. destruct arrs as [|a arrs']; [congruence|].
    cbn [bind output_arr attr]. unfold DataFrame.
    rewrite (Forall_six_forallb _ Hsix). cbn [bind]. reflexivity.
  - cbn [output_arr output_df]. split; [reflexivity|]. split; [reflexivity|].
    rewrite <- Hlen. apply concat_lengths.
    intros i Hi. destruct (Hshape i Hi) as [a [c [Ha [Hc [Hl _]]]]].
    exists a, c. auto.
Qed.

Lemma output_list_to_df_fresh_witness :
  exists self' outs' arrs outs'',
    run_sims constant_solver two_body_timed no_outputs 1 false = Ok (self', outs') /\
    output_list outs' = Some arrs /\
    output_list_to_df outs' = Ok outs'' /\
    output_arr outs'' = Some (concat arrs) /\
    output_df outs'' = Some (output_columns, concat arrs) /\
    length (concat arrs) = 2%nat.
Proof.
  eexists. eexists.
  destruct (output_list_to_df_fresh constant_solver two_body_timed no_outputs 1 false
              [two_body_start 1e-10] [[e; e]] _ _ eq_refl eq_refl
              ltac:(discriminate) eq_refl eq_refl)
    as [arrs [outs'' H]].
  exists arrs, outs''. split; [reflexivity | exact H].
Defined.
